(** * rss_telegram.py: the diff-and-dispatch engine of the RSS-to-Telegram bot

    A shallow embedding of [src/rss_telegram.py] and the properties its
    specification states about it.

    Python [str] values are sequences of Unicode code points, and [len]
    counts code points, so a string is a [list N] here.  The tables of the
    Python runtime the program consults (Unicode whitespace, decimal digits
    and case folding beyond ASCII, the HTML entity table behind
    [html.unescape]) are not part of the repository: they are the fields of
    the class [Runtime], and every definition is parametric in them. *)

From Stdlib Require Import NArith List String Ascii Bool Lia.
From stdpp Require Import base option list gmap.

Local Open Scope N_scope.

(** ** Python strings *)

Abbreviation pystr := (list N).

(** An ASCII literal of the source as a sequence of code points. *)
Definition py (s : string) : pystr :=
  map N_of_ascii (list_ascii_of_string s).

Definition NL : N := 10.       (* "\n" *)
Definition SP : N := 32.       (* " " *)

(** [len(s)] as a number to compare with the integer constants of the source. *)
Definition len (s : pystr) : N := N.of_nat (length s).

(** [Py_UNICODE_ISSPACE] on the ASCII range: TAB..CR, FS..US and the space. *)
Definition ascii_isspace (c : N) : bool :=
  ((9 <=? c) && (c <=? 13)) || ((28 <=? c) && (c <=? 32)).

Definition ascii_isdecimal (c : N) : bool := (48 <=? c) && (c <=? 57).

Definition ascii_lower (c : N) : N :=
  if (65 <=? c) && (c <=? 90) then c + 32 else c.

(** The runtime tables the program relies on and the repository does not
    contain.  [uni_isspace] and [uni_isdecimal] are consulted for code points
    from 128 on only; [uni_ignorecase p c] says whether the non-ASCII code
    point [c] matches the pattern letter [p] under [re.IGNORECASE];
    [html_unescape] is [html.unescape]. *)
Class Runtime := {
  uni_isspace : N -> bool;
  uni_isdecimal : N -> bool;
  uni_ignorecase : N -> N -> bool;
  html_unescape : pystr -> pystr
}.

(** The shape of the patterns of the source (their matching is defined below). *)
Inductive quant := Once | Star | Plus | LazyStar.

Inductive atom :=
  | Cls (q : quant) (p : N -> bool)
  | Dollar.

Abbreviation regex := (list atom).

Section Text.
Context `{Runtime}.

(** [\s] of [re] and the separator set of [str.split()]/[str.strip()]. *)
Definition isspace (c : N) : bool :=
  if c <? 128 then ascii_isspace c else uni_isspace c.

(** [\d] of [re] on a [str] pattern. *)
Definition isdecimal (c : N) : bool :=
  if c <? 128 then ascii_isdecimal c else uni_isdecimal c.

(** A literal letter [p] of a pattern compiled with [re.IGNORECASE]. *)
Definition lit_i (p c : N) : bool :=
  if c <? 128 then ascii_lower c =? ascii_lower p else uni_ignorecase p c.

Definition lit (p c : N) : bool := c =? p.
Definition notlit (p c : N) : bool := negb (c =? p).

(** [.] without [re.DOTALL]: anything but a newline. *)
Definition dot (c : N) : bool := negb (c =? NL).

(** *** [str.split()], [str.join], [str.strip()] *)

Fixpoint split_from (w s : pystr) : list pystr :=
  match s with
  | [] => match w with [] => [] | _ => [w] end
  | c :: s' =>
      if isspace c
      then match w with [] => split_from [] s' | _ => w :: split_from [] s' end
      else split_from (w ++ [c]) s'
  end.

(** [s.split()] *)
Definition py_split (s : pystr) : list pystr := split_from [] s.

(** [sep.join(ws)] *)
Fixpoint py_join (sep : pystr) (ws : list pystr) : pystr :=
  match ws with
  | [] => []
  | [w] => w
  | w :: ws' => w ++ sep ++ py_join sep ws'
  end.

Fixpoint lstrip (s : pystr) : pystr :=
  match s with
  | c :: s' => if isspace c then lstrip s' else s
  | [] => []
  end.

(** [s.strip()] *)
Definition py_strip (s : pystr) : pystr :=
  rev (lstrip (rev (lstrip s))).

(** [' '.join(s.split())] *)
Definition collapse_ws (s : pystr) : pystr := py_join [SP] (py_split s).

(** ** The regular expressions of the source

    Every pattern of the program is a sequence of single-character classes,
    each taken once, greedily zero or more times ([*]), greedily one or more
    times ([+]) or lazily zero or more times ([*?]), possibly closed by [$].
    [rmatch r s] is the backtracking match of [r] at the start of [s], with
    the priorities of Python's [re]: it returns the number of characters the
    first successful alternative consumes. *)

Section Quantifiers.
Variable p : N -> bool.
Variable k : pystr -> option nat.     (* the rest of the pattern *)

(** greedy: one more character first, the continuation on backtracking *)
Fixpoint star_greedy (s : pystr) : option nat :=
  match s with
  | c :: s' =>
      if p c
      then match star_greedy s' with
           | Some n => Some (S n)
           | None => k s
           end
      else k s
  | [] => k s
  end.

(** lazy: the continuation first, one more character on backtracking *)
Fixpoint star_lazy (s : pystr) : option nat :=
  match k s with
  | Some n => Some n
  | None =>
      match s with
      | c :: s' => if p c then S <$> star_lazy s' else None
      | [] => None
      end
  end.

Definition once (cont : pystr -> option nat) (s : pystr) : option nat :=
  match s with
  | c :: s' => if p c then S <$> cont s' else None
  | [] => None
  end.
End Quantifiers.

(** [$] without [re.MULTILINE]: the end of the string, or just before a
    newline that ends the string. *)
Definition at_dollar (s : pystr) : bool :=
  match s with
  | [] => true
  | [c] => c =? NL
  | _ => false
  end.

Fixpoint rmatch (r : regex) : pystr -> option nat :=
  match r with
  | [] => fun _ => Some O
  | Dollar :: r' => fun s => if at_dollar s then rmatch r' s else None
  | Cls Once p :: r' => once p (rmatch r')
  | Cls Star p :: r' => star_greedy p (rmatch r')
  | Cls Plus p :: r' => once p (star_greedy p (rmatch r'))
  | Cls LazyStar p :: r' => star_lazy p (rmatch r')
  end.

(** [re.sub(r, '', s)]: scanning from the left, every non-overlapping match
    is deleted; where the pattern does not match (or matches the empty
    string, whose replacement by [''] changes nothing) the character is
    copied and the scan moves on by one.  [skip] counts the characters of the
    current match still to be dropped. *)
Fixpoint re_sub_skip (r : regex) (skip : nat) (s : pystr) : pystr :=
  match s with
  | [] => []
  | c :: s' =>
      match skip with
      | S n => re_sub_skip r n s'
      | O =>
          match rmatch r s with
          | Some (S n) => re_sub_skip r n s'
          | _ => c :: re_sub_skip r O s'
          end
      end
  end.

Definition re_delete (r : regex) (s : pystr) : pystr := re_sub_skip r O s.

(** A literal word of a case-insensitive pattern. *)
Definition word_i (w : pystr) : regex := map (fun p => Cls Once (lit_i p)) w.

(** r'\[.*?\]' *)
Definition re_brackets : regex :=
  [Cls Once (lit 91); Cls LazyStar dot; Cls Once (lit 93)].

(** r'\(.*?\)' *)
Definition re_parens : regex :=
  [Cls Once (lit 40); Cls LazyStar dot; Cls Once (lit 41)].

(** r'\s*-\s*\d+\s*$' *)
Definition re_dash_number : regex :=
  [Cls Star isspace; Cls Once (lit 45); Cls Star isspace;
   Cls Plus isdecimal; Cls Star isspace; Dollar].

(** r'\s*Episode\s*\d+$' with [flags=re.IGNORECASE] *)
Definition re_episode : regex :=
  [Cls Star isspace] ++ word_i (py "Episode") ++
  [Cls Star isspace; Cls Plus isdecimal; Dollar].

(** r'<[^>]+>' *)
Definition re_tag : regex :=
  [Cls Once (lit 60); Cls Plus (notlit 62); Cls Once (lit 62)].

(** ** [clean_title] *)
Definition clean_title (title : pystr) : pystr :=
  let cleaned := re_delete re_brackets title in
  let cleaned := re_delete re_parens cleaned in
  let cleaned := re_delete re_dash_number cleaned in
  let cleaned := re_delete re_episode cleaned in
  py_strip (py_join [SP] (py_split cleaned)).

(** ** [strip_html] *)
Definition strip_html (html_content : pystr) : pystr :=
  let text := re_delete re_tag html_content in
  let text := html_unescape text in
  py_join [SP] (py_split text).

End Text.


(** ** Configuration (the environment variables read at import time) *)

Record Config := {
  TELEGRAM_CHAT_ID : pystr;
  TELEGRAM_FORUM_ID : option pystr;
  CHECK_INTERVAL : N;
  TELEGRAM_GROUPED_MESSAGES : bool;
  TELEGRAM_MESSAGE_LINKS_BUTTON : bool;
  INCLUDE_DESCRIPTION : bool;
  DISABLE_NOTIFICATION : bool
}.

(** Maximum character limit for Telegram messages *)
Definition MAX_MESSAGE_LENGTH : N := 4096.

(** ** The transport and its trace

    [bot.send_message] and [bot.send_photo] are external.  A call either
    returns or raises; the bot is an oracle that decides it from the calls
    made so far.  Every call is recorded in the trace with its outcome, and
    so is every [asyncio.sleep].  ([parse_mode] is the constant
    [ParseMode.MARKDOWN] in both calls and is left out.) *)

Record InlineKeyboardButton := { button_text : pystr; button_url : pystr }.

(** [InlineKeyboardMarkup(rows)] *)
Abbreviation InlineKeyboardMarkup := (list (list InlineKeyboardButton)).

Inductive Call :=
  | send_message (chat_id text : pystr) (message_thread_id : option pystr)
      (reply_markup : option InlineKeyboardMarkup) (disable_notification : bool)
  | send_photo (chat_id photo caption : pystr) (message_thread_id : option pystr)
      (reply_markup : option InlineKeyboardMarkup) (disable_notification : bool).

Inductive Event :=
  | Invoke (c : Call) (returned : bool)
  | Sleep (seconds : N).

Abbreviation Trace := (list Event).
Abbreviation Bot := (Trace -> Call -> bool).

(** The coroutines of the source as trace transformers. *)
Definition M (A : Type) : Type := Trace -> A * Trace.

Definition ret {A} (a : A) : M A := fun tr => (a, tr).

Definition bind {A B} (m : M A) (f : A -> M B) : M B :=
  fun tr => let (a, tr') := m tr in f a tr'.

Declare Scope io_scope.
Delimit Scope io_scope with io.
Notation "x <- m ;; k" := (bind m (fun x => k))
  (at level 100, m at next level, right associativity) : io_scope.
Notation "m ;;; k" := (bind m (fun _ => k))
  (at level 100, right associativity) : io_scope.
Local Open Scope io_scope.

(** [for x in xs: body(x)] *)
Fixpoint for_each {A} (xs : list A) (body : A -> M unit) : M unit :=
  match xs with
  | [] => ret tt
  | x :: xs' => body x ;;; for_each xs' body
  end.

(** The events a computation adds to the trace [tr]. *)
Definition emitted {A} (m : M A) (tr : Trace) : Trace :=
  drop (length tr) (snd (m tr)).

(** The text messages and photos of a trace, in order. *)
Definition is_invoke (e : Event) : bool :=
  match e with Invoke _ _ => true | Sleep _ => false end.

Definition outbound (tr : Trace) : Trace := List.filter is_invoke tr.

(** The texts handed to [bot.send_message] in a trace. *)
Fixpoint texts (tr : Trace) : list pystr :=
  match tr with
  | [] => []
  | Invoke (send_message _ text _ _ _) _ :: tr' => text :: texts tr'
  | _ :: tr' => texts tr'
  end.

(** The dictionaries [check_feeds] puts into [messages_by_feed]. *)
Record Item := {
  title : pystr;
  link : pystr;
  description : pystr;
  image_url : option pystr
}.

(** Truth value of a [str]. *)
Definition truthy (s : pystr) : bool :=
  match s with [] => false | _ => true end.

Section Dispatch.
Context `{Runtime}.
Variable cfg : Config.
Variable bot : Bot.

Definition call_bot (c : Call) : M bool :=
  fun tr => let ok := bot tr c in (ok, tr ++ [Invoke c ok]).

Definition asyncio_sleep (seconds : N) : M unit :=
  fun tr => (tt, tr ++ [Sleep seconds]).

(** [send_telegram_message]: [True] when [bot.send_message] returns, [False]
    when it raises (the exception is logged). *)
Definition send_telegram_message (chat_id message : pystr)
    (message_thread_id : option pystr)
    (reply_markup : option InlineKeyboardMarkup) : M bool :=
  call_bot (send_message chat_id message message_thread_id reply_markup
              (DISABLE_NOTIFICATION cfg)).

(** [send_photo_message] *)
Definition send_photo_message (chat_id photo_url caption : pystr)
    (message_thread_id : option pystr)
    (reply_markup : option InlineKeyboardMarkup) : M bool :=
  call_bot (send_photo chat_id photo_url caption message_thread_id reply_markup
              (DISABLE_NOTIFICATION cfg)).

(** The description line both strategies render:
    [desc = strip_html(...); if len(desc) > 150: desc = desc[:147] + '...'] *)
Definition shorten (desc : pystr) : pystr :=
  if 150 <? len desc then take 147 desc ++ py "..." else desc.

Definition description_line (entry : Item) : pystr :=
  let desc := strip_html (description entry) in
  let desc := shorten desc in
  py "  _" ++ desc ++ py "_" ++ [NL].

(** f"📢 *New content from {feed_title}*\n\n" *)
Definition grouped_header (feed_title : pystr) : pystr :=
  [128226] ++ py " *New content from " ++ feed_title ++ py "*" ++ [NL; NL].

(** The block of one entry in [send_grouped_messages]. *)
Definition grouped_entry_text (entry : Item) : pystr :=
  let entry_text := [8226] ++ py " *" ++ title entry ++ py "*" ++ [NL] in
  let entry_text :=
    if INCLUDE_DESCRIPTION cfg && truthy (description entry)
    then entry_text ++ description_line entry
    else entry_text in
  if TELEGRAM_MESSAGE_LINKS_BUTTON cfg
  then entry_text ++ [NL] ++ py "  [Open Link](" ++ link entry ++ py ")" ++ [NL; NL]
  else entry_text ++ [NL] ++ py "  " ++ link entry ++ [NL; NL].

(** The inner loop of [send_grouped_messages]; it returns the final
    [entries_text]. *)
Fixpoint grouped_entries (header : pystr) (entries : list Item)
    (entries_text : pystr) : M pystr :=
  match entries with
  | [] => ret entries_text
  | entry :: rest =>
      let entry_text := grouped_entry_text entry in
      if MAX_MESSAGE_LENGTH <? len header + len entries_text + len entry_text
      then
        send_telegram_message (TELEGRAM_CHAT_ID cfg) (header ++ entries_text)
          (TELEGRAM_FORUM_ID cfg) None ;;;
        grouped_entries header rest entry_text
      else grouped_entries header rest (entries_text ++ entry_text)
  end.

(** The body of the outer loop of [send_grouped_messages]. *)
Definition grouped_feed (kv : pystr * list Item) : M unit :=
  let (feed_title, entries) := kv in
  match entries with
  | [] => ret tt                                   (* continue *)
  | _ =>
      let header := grouped_header feed_title in
      entries_text <- grouped_entries header entries [] ;;
      (if truthy entries_text
       then send_telegram_message (TELEGRAM_CHAT_ID cfg) (header ++ entries_text)
              (TELEGRAM_FORUM_ID cfg) None ;;; ret tt
       else ret tt) ;;;
      asyncio_sleep 1
  end.

(** [send_grouped_messages]; [messages_by_feed] is a [dict], iterated in
    insertion order. *)
Definition send_grouped_messages (messages_by_feed : list (pystr * list Item))
    : M bool :=
  match messages_by_feed with
  | [] => ret true
  | _ => for_each messages_by_feed grouped_feed ;;; ret true
  end.

(** The text of one entry in [send_single_messages], before the link. *)
Definition single_text (feed_title : pystr) (entry : Item) : pystr :=
  let message := [128226] ++ py " *New content from " ++ feed_title ++ py "*" ++
                 [NL; NL] ++ py "*" ++ title entry ++ py "*" ++ [NL] in
  if INCLUDE_DESCRIPTION cfg && truthy (description entry)
  then message ++ description_line entry
  else message.

(** [message] and [reply_markup] as they stand when the entry is sent. *)
Definition single_message (feed_title : pystr) (entry : Item)
    : pystr * option InlineKeyboardMarkup :=
  let message := single_text feed_title entry in
  if TELEGRAM_MESSAGE_LINKS_BUTTON cfg
  then (message,
        Some [[ {| button_text := py "Open Link"; button_url := link entry |} ]])
  else (message ++ [NL] ++ link entry, None).

(** The body of the inner loop of [send_single_messages]. *)
Definition single_entry (feed_title : pystr) (entry : Item) : M unit :=
  let (message, reply_markup) := single_message feed_title entry in
  (match image_url entry with
   | Some ((_ :: _) as url) =>
       success <- send_photo_message (TELEGRAM_CHAT_ID cfg) url message
                    (TELEGRAM_FORUM_ID cfg) reply_markup ;;
       if negb success
       then (* Fallback with text message if photo fails *)
         send_telegram_message (TELEGRAM_CHAT_ID cfg) message
           (TELEGRAM_FORUM_ID cfg) reply_markup ;;; ret tt
       else ret tt
   | _ =>
       send_telegram_message (TELEGRAM_CHAT_ID cfg) message
         (TELEGRAM_FORUM_ID cfg) reply_markup ;;; ret tt
   end) ;;;
  asyncio_sleep 1.

Definition single_feed (kv : pystr * list Item) : M unit :=
  let (feed_title, entries) := kv in
  for_each entries (single_entry feed_title).

(** [send_single_messages] *)
Definition send_single_messages (messages_by_feed : list (pystr * list Item))
    : M bool :=
  match messages_by_feed with
  | [] => ret true
  | _ => for_each messages_by_feed single_feed ;;; ret true
  end.

End Dispatch.

(** ** Files, feeds and the image service

    The three files of the program hold JSON or text; a file whose content
    cannot be read as such ([FileNotFoundError], [json.JSONDecodeError]) is
    [None].  Other failures of the file system are outside the model: every
    [open(..., 'w')] is taken to succeed (where one fails, the exception
    leaves the function and, uncaught, the program), and a feed file that
    exists can be read (where it cannot, [load_feeds] logs the error and
    returns no feeds). *)

Abbreviation SentItems := (gmap pystr (list pystr)).
Abbreviation ImageCache := (gmap pystr (option pystr)).

Record Files := {
  FEEDS_FILE : option (list pystr);          (* the lines of the file *)
  HISTORY_FILE : option SentItems;
  IMAGE_CACHE_FILE : option ImageCache
}.

(** An entry as [feedparser] returns it: an attribute the feed does not
    give is absent ([hasattr] is false, reading it raises
    [AttributeError]). *)
Record FeedEntry := {
  attr_id : option pystr;
  attr_link : option pystr;
  attr_title : option pystr;
  attr_description : option pystr;
  attr_summary : option pystr
}.

Record ParsedFeed := {
  feed_title_attr : option pystr;            (* feed.feed.title *)
  feed_entries : list FeedEntry              (* feed.entries *)
}.

(** The outside world of one cycle: [feedparser.parse(url)] returns a feed
    or raises ([None]); the AniList request returns the cover images of the
    matches, each possibly null, or fails ([None]). *)
Record World := {
  feedparser_parse : pystr -> option ParsedFeed;
  anilist_media : pystr -> option (list (option pystr))
}.

(** [load_image_cache] *)
Definition load_image_cache (fs : Files) : ImageCache :=
  match IMAGE_CACHE_FILE fs with Some cache => cache | None => ∅ end.

(** [save_image_cache] *)
Definition save_image_cache (cache : ImageCache) (fs : Files) : Files :=
  {| FEEDS_FILE := FEEDS_FILE fs; HISTORY_FILE := HISTORY_FILE fs;
     IMAGE_CACHE_FILE := Some cache |}.

(** [load_sent_items] *)
Definition load_sent_items (fs : Files) : SentItems :=
  match HISTORY_FILE fs with Some sent => sent | None => ∅ end.

(** [save_sent_items] *)
Definition save_sent_items (sent_items : SentItems) (fs : Files) : Files :=
  {| FEEDS_FILE := FEEDS_FILE fs; HISTORY_FILE := Some sent_items;
     IMAGE_CACHE_FILE := IMAGE_CACHE_FILE fs |}.

(** [line.startswith('#')] *)
Definition starts_with_hash (s : pystr) : bool :=
  match s with c :: _ => c =? 35 | [] => false end.

(** How an iteration of a loop body ends. *)
Inductive Outcome := Completed | Raised.

(** What the collecting loop of [check_feeds] mutates: the two dictionaries
    and, through the image lookup, the cache file. *)
Record Collect := {
  sent_items : SentItems;
  messages_by_feed : list (pystr * list Item);
  files : Files
}.

(** [d.setdefault(k, [])] and [d[k].append(x)] on [messages_by_feed], a
    dictionary in insertion order. *)
Definition has_key {V} (k : pystr) (d : list (pystr * V)) : bool :=
  existsb (fun kv => bool_decide (kv.1 = k)) d.

Definition setdefault_list {V} (k : pystr) (d : list (pystr * list V))
    : list (pystr * list V) :=
  if has_key k d then d else d ++ [(k, [])].

Definition append_at {V} (k : pystr) (x : V) (d : list (pystr * list V))
    : list (pystr * list V) :=
  map (fun kv => if bool_decide (kv.1 = k) then (kv.1, kv.2 ++ [x]) else kv) d.

(** [sent_items[feed_url]]; the key is always present where it is read. *)
Definition ids_of (sent : SentItems) (feed_url : pystr) : list pystr :=
  default [] (sent !! feed_url).

(** [x in xs] on a list of strings *)
Definition py_in (x : pystr) (xs : list pystr) : bool :=
  existsb (fun y => bool_decide (x = y)) xs.

Section Collecting.
Context `{Runtime}.
Variable cfg : Config.
Variable world : World.

(** [load_feeds]; a missing file is created with one comment line (the
    write is taken to succeed, see above). *)
Definition load_feeds (fs : Files) : list pystr * Files :=
  match FEEDS_FILE fs with
  | Some lines =>
      (omap (fun line =>
               if truthy (py_strip line) && negb (starts_with_hash (py_strip line))
               then Some (py_strip line) else None) lines,
       fs)
  | None =>
      ([], {| FEEDS_FILE := Some [py "# Add your RSS feeds here, one per line" ++ [NL]];
              HISTORY_FILE := HISTORY_FILE fs;
              IMAGE_CACHE_FILE := IMAGE_CACHE_FILE fs |})
  end.

(** [get_anime_image_from_anilist] *)
Definition get_anime_image_from_anilist (title : pystr) (fs : Files)
    : option pystr * Files :=
  let cache := load_image_cache fs in
  let cleaned_title := clean_title title in
  match cache !! cleaned_title with
  | Some cached => (cached, fs)
  | None =>
      match anilist_media world cleaned_title with
      | Some (image_url :: _) =>
          (image_url, save_image_cache (<[cleaned_title := image_url]> cache) fs)
      | _ => (None, fs)
      end
  end.

(** [entry.id if hasattr(entry, 'id') else entry.link]: [None] when reading
    [entry.link] raises [AttributeError]. *)
Definition entry_id_of (entry : FeedEntry) : option pystr :=
  match attr_id entry with
  | Some i => Some i
  | None => attr_link entry
  end.

(** What is appended to [messages_by_feed] for a new entry, and the files
    after the image lookup. *)
Definition new_item (entry : FeedEntry) (fs : Files) : Item * Files :=
  let title := default (py "No title") (attr_title entry) in
  let link := default [] (attr_link entry) in
  let description :=
    if INCLUDE_DESCRIPTION cfg
    then let d := default [] (attr_description entry) in
         if truthy d then d else default [] (attr_summary entry)
    else [] in
  let (image_url, fs') := get_anime_image_from_anilist title fs in
  ({| title := title; link := link; description := description;
      image_url := image_url |}, fs').

(** The loop over [feed.entries] inside the [try] of [check_feeds].  An
    exception leaves the loop; what was appended before stays. *)
Fixpoint check_entries (feed_url feed_title : pystr) (entries : list FeedEntry)
    (st : Collect) : Collect * Outcome :=
  match entries with
  | [] => (st, Completed)
  | entry :: rest =>
      match entry_id_of entry with
      | None => (st, Raised)
      | Some entry_id =>
          if py_in entry_id (ids_of (sent_items st) feed_url)
          then check_entries feed_url feed_title rest st          (* continue *)
          else
            let (item, fs') := new_item entry (files st) in
            check_entries feed_url feed_title rest
              {| sent_items :=
                   <[feed_url := ids_of (sent_items st) feed_url ++ [entry_id]]>
                     (sent_items st);
                 messages_by_feed := append_at feed_title item (messages_by_feed st);
                 files := fs' |}
      end
  end.

(** [sent_items.setdefault(feed_url, [])] *)
Definition setdefault_sent (feed_url : pystr) (sent : SentItems) : SentItems :=
  match sent !! feed_url with
  | Some _ => sent
  | None => <[feed_url := []]> sent
  end.

(** The body of the loop over [feeds], up to the [except]. *)
Definition try_feed (feed_url : pystr) (st : Collect) : Collect * Outcome :=
  if negb (truthy (py_strip feed_url)) then (st, Completed)       (* continue *)
  else
    match feedparser_parse world feed_url with
    | None => (st, Raised)
    | Some feed =>
        match feed_entries feed with
        | [] => (st, Completed)                                    (* continue *)
        | entries =>
            let feed_title := default feed_url (feed_title_attr feed) in
            check_entries feed_url feed_title entries
              {| sent_items := setdefault_sent feed_url (sent_items st);
                 messages_by_feed :=
                   setdefault_list feed_title (messages_by_feed st);
                 files := files st |}
        end
    end.

(** [except Exception as e: logger.error(...)]: the loop goes on. *)
Definition check_feed (st : Collect) (feed_url : pystr) : Collect :=
  fst (try_feed feed_url st).

(** The loop over [feeds]. *)
Definition collect (feeds : list pystr) (st : Collect) : Collect :=
  fold_left check_feed feeds st.

Variable bot : Bot.

(** [check_feeds]: it returns [sent_items]; the files change through
    [load_feeds] and the image lookups. *)
Definition check_feeds (fs : Files) : M (SentItems * Files) :=
  let sent_items0 := load_sent_items fs in
  let (feeds, fs) := load_feeds fs in
  match feeds with
  | [] => ret (sent_items0, fs)
  | _ =>
      let st := collect feeds {| sent_items := sent_items0;
                                 messages_by_feed := [];
                                 files := fs |} in
      (if TELEGRAM_GROUPED_MESSAGES cfg
       then send_grouped_messages cfg bot (messages_by_feed st)
       else send_single_messages cfg bot (messages_by_feed st)) ;;;
      ret (sent_items st, files st)
  end.

(** One turn of the loop of [main_async]: check, persist, sleep. *)
Definition poll_cycle (fs : Files) : M Files :=
  r <- check_feeds fs ;;
  let fs' := save_sent_items (fst r) (snd r) in
  asyncio_sleep (CHECK_INTERVAL cfg) ;;;
  ret fs'.

End Collecting.

(** ** Notions used to state the properties *)

Section Statements.
Context `{Runtime}.
Variable cfg : Config.

(** A text message of the grouped strategy as it appears in the trace. *)
Definition text_event (message : pystr) (ok : bool) : Event :=
  Invoke (send_message (TELEGRAM_CHAT_ID cfg) message (TELEGRAM_FORUM_ID cfg)
            None (DISABLE_NOTIFICATION cfg)) ok.

(** The rendered blocks of a run of entries, one after the other. *)
Definition blocks (g : list Item) : pystr :=
  concat (map (grouped_entry_text cfg) g).

(** How the inner loop cuts the entries into messages: [g] is the run of
    entries the buffer holds; the result is the runs flushed on overflow and
    the run left in the buffer at the end. *)
Fixpoint grouping (header : pystr) (entries g : list Item)
    : list (list Item) * list Item :=
  match entries with
  | [] => ([], g)
  | e :: rest =>
      if MAX_MESSAGE_LENGTH <?
           len header + len (blocks g) + len (grouped_entry_text cfg e)
      then let (gs, gl) := grouping header rest [e] in (g :: gs, gl)
      else grouping header rest (g ++ [e])
  end.

End Statements.

(** How often [x] occurs in a list of identifiers. *)
Definition occurrences (x : pystr) (l : list pystr) : nat :=
  length (List.filter (fun y => bool_decide (y = x)) l).

(** The identifiers of the entries the loop over [feed.entries] gets to:
    those before the first entry that has neither an id nor a link. *)
Fixpoint reached_ids (entries : list FeedEntry) : list pystr :=
  match entries with
  | [] => []
  | entry :: rest =>
      match entry_id_of entry with
      | Some x => x :: reached_ids rest
      | None => []
      end
  end.

(** [l'] is [l] followed by identifiers that are new and pairwise distinct. *)
Definition fresh_ext (l l' : list pystr) : Prop :=
  exists d, l' = l ++ d /\ NoDup d /\ forall x, x ∈ d -> x ∉ l.

(** [s'] keeps every key of [s] and extends every list of it that way. *)
Definition grows (s s' : SentItems) : Prop :=
  forall url,
    fresh_ext (ids_of s url) (ids_of s' url) /\
    (is_Some (s !! url) -> is_Some (s' !! url)).

(** The strategy the configuration selects. *)
Definition dispatch `{Runtime} (cfg : Config) (bot : Bot)
    (messages : list (pystr * list Item)) : M bool :=
  if TELEGRAM_GROUPED_MESSAGES cfg
  then send_grouped_messages cfg bot messages
  else send_single_messages cfg bot messages.

(** The cycle dispatches the messages of the collecting state [st] and
    persists its identifiers. *)
Definition cycle_ends_with `{Runtime} (cfg : Config) (world : World) (bot : Bot)
    (fs : Files) (tr : Trace) (st : Collect) : Prop :=
  snd (check_feeds cfg world bot fs tr)
    = snd (dispatch cfg bot (messages_by_feed st) tr) /\
  HISTORY_FILE (fst (poll_cycle cfg world bot fs tr)) = Some (sent_items st).

(** No feed title of [messages_by_feed] has an entry to send. *)
Definition all_empty (messages : list (pystr * list Item)) : Prop :=
  Forall (fun kv => kv.2 = []) messages.

(** Every identifier the loop gets to in the feed at [feed_url] is already
    recorded for it in [sent]. *)
Definition settled (world : World) `{Runtime} (sent : SentItems)
    (feed_url : pystr) : Prop :=
  forall feed x,
    truthy (py_strip feed_url) = true ->
    feedparser_parse world feed_url = Some feed ->
    x ∈ reached_ids (feed_entries feed) ->
    x ∈ ids_of sent feed_url.

(** The ASCII word [w], given in lower case, with the letters at the
    positions [caps] marks put in upper case. *)
Fixpoint in_case (caps : list bool) (w : pystr) : pystr :=
  match w, caps with
  | c :: w', b :: caps' => (if b then c - 32 else c) :: in_case caps' w'
  | _, _ => w
  end.

(** The words of a pattern: [denotes r w rest] says that [w], followed by
    [rest], is a word of [r] (the rest of the string matters to [$] only). *)
Fixpoint denotes (r : regex) (w rest : pystr) : Prop :=
  match r with
  | [] => w = []
  | Dollar :: r' => at_dollar (w ++ rest) = true /\ denotes r' w rest
  | Cls Once p :: r' =>
      exists c w', w = c :: w' /\ p c = true /\ denotes r' w' rest
  | Cls Plus p :: r' =>
      exists c u w', w = c :: u ++ w' /\ p c = true /\
                     Forall (fun x => p x = true) u /\ denotes r' w' rest
  | Cls _ p :: r' =>
      exists u w', w = u ++ w' /\ Forall (fun x => p x = true) u /\
                   denotes r' w' rest
  end.

(** Whitespace or a decimal digit: what the trailing patterns match after
    their dash or word. *)
Definition blank_or_digit `{Runtime} (c : N) : Prop :=
  isspace c = true \/ isdecimal c = true.

(** ** Sample inputs

    The runtime tables cut down to ASCII text without character references
    (where [html.unescape] changes nothing), and a few values the examples
    below are run on. *)

Definition ascii_runtime : Runtime :=
  {| uni_isspace := fun _ => false;
     uni_isdecimal := fun _ => false;
     uni_ignorecase := fun _ _ => false;
     html_unescape := fun s => s |}.

Definition default_config : Config :=
  {| TELEGRAM_CHAT_ID := py "42";
     TELEGRAM_FORUM_ID := None;
     CHECK_INTERVAL := 3600;
     TELEGRAM_GROUPED_MESSAGES := true;
     TELEGRAM_MESSAGE_LINKS_BUTTON := false;
     INCLUDE_DESCRIPTION := false;
     DISABLE_NOTIFICATION := false |}.

Definition single_config : Config :=
  {| TELEGRAM_CHAT_ID := py "42";
     TELEGRAM_FORUM_ID := None;
     CHECK_INTERVAL := 3600;
     TELEGRAM_GROUPED_MESSAGES := false;
     TELEGRAM_MESSAGE_LINKS_BUTTON := false;
     INCLUDE_DESCRIPTION := true;
     DISABLE_NOTIFICATION := false |}.

Definition reliable_bot : Bot := fun _ _ => true.

(** A bot whose [send_photo] always raises. *)
Definition no_photo_bot : Bot :=
  fun _ c => match c with send_photo _ _ _ _ _ _ => false | _ => true end.

Definition long_title : pystr := repeat 97 5000.

Definition long_item : Item :=
  {| title := long_title; link := py "http://example.org/1";
     description := []; image_url := None |}.

Definition short_item : Item :=
  {| title := py "Show - 01"; link := py "http://example.org/2";
     description := []; image_url := None |}.

(** An entry with a cover image and a description of 151 characters. *)
Definition wordy_item : Item :=
  {| title := py "Show - 01"; link := py "http://example.org/3";
     description := repeat 97 151;
     image_url := Some (py "http://img.example.org/3.png") |}.

Definition entry_a : FeedEntry :=
  {| attr_id := Some (py "a"); attr_link := Some (py "http://example.org/a");
     attr_title := Some (py "Show - 01");
     attr_description := None; attr_summary := None |}.

Definition entry_b : FeedEntry :=
  {| attr_id := Some (py "b"); attr_link := Some (py "http://example.org/b");
     attr_title := Some (py "Show - 02");
     attr_description := None; attr_summary := None |}.

(** An item of a feed with neither [guid] nor [link]. *)
Definition entry_anonymous : FeedEntry :=
  {| attr_id := None; attr_link := None;
     attr_title := Some (py "Untitled");
     attr_description := None; attr_summary := None |}.

(** A world whose every feed is titled "Feed" and holds [entries]; the image
    service is down. *)
Definition sample_world (entries : list FeedEntry) : World :=
  {| feedparser_parse := fun _ =>
       Some {| feed_title_attr := Some (py "Feed"); feed_entries := entries |};
     anilist_media := fun _ => None |}.

Definition sample_url : pystr := py "http://example.org/rss".

(** One configured feed, no history and no image cache yet. *)
Definition sample_files : Files :=
  {| FEEDS_FILE := Some [sample_url ++ [NL]];
     HISTORY_FILE := None;
     IMAGE_CACHE_FILE := None |}.

(** ** Further notions

    Used by the properties of the functions beyond the claims. *)

(** In a sequence of runs of entries, every run but the last is full: the
    first block of the next run would not have fitted after it. *)
Fixpoint tightly_packed `{Runtime} (cfg : Config) (header : pystr)
    (groups : list (list Item)) : Prop :=
  match groups with
  | g :: rest =>
      match rest with
      | (e :: _) :: _ =>
          MAX_MESSAGE_LENGTH <
            len header + len (blocks cfg g) + len (grouped_entry_text cfg e)
      | [] :: _ => False
      | [] => True
      end /\ tightly_packed cfg header rest
  | [] => True
  end.

(** The pacing delays of a trace. *)
Fixpoint sleeps (tr : Trace) : list N :=
  match tr with
  | [] => []
  | Sleep n :: tr' => n :: sleeps tr'
  | _ :: tr' => sleeps tr'
  end.

(** All the entries of [messages_by_feed], feed title after feed title. *)
Definition all_items (messages : list (pystr * list Item)) : list Item :=
  concat (map snd messages).

(** Every entry of the image cache of [fs] is in that of [fs'], unchanged. *)
Definition cache_kept (fs fs' : Files) : Prop :=
  forall key v, load_image_cache fs !! key = Some v ->
                load_image_cache fs' !! key = Some v.

(** A word of [str.split()]: not empty, no whitespace in it. *)
Definition word `{Runtime} (w : pystr) : Prop :=
  w <> [] /\ Forall (fun c => isspace c = false) w.

(** The number of identifiers a history holds, over all feeds. *)
Definition recorded (sent : SentItems) : nat :=
  sum_list_with (fun kv : pystr * list pystr => length kv.2) (map_to_list sent).

Section MainLoop.
Context `{Runtime}.
Variable cfg : Config.
Variable bot : Bot.

(** The first turns of the [while True] loop of [main_async], one for each
    world the program meets in turn (the feeds and the image service may
    change from one check to the next). *)
Fixpoint poll_cycles (worlds : list World) (fs : Files) : M Files :=
  match worlds with
  | [] => ret fs
  | world :: later =>
      fs' <- poll_cycle cfg world bot fs ;;
      poll_cycles later fs'
  end.

(** "🤖 *RSS Monitoring Bot started!*\nActive feed monitoring.
    Configuration loaded from file." *)
Definition startup_text : pystr :=
  [129302] ++ py " *RSS Monitoring Bot started!*" ++ [NL] ++
  py "Active feed monitoring. Configuration loaded from file.".

(** How [main_async] stands after the turns of the loop it was given. *)
Inductive MainState := Returned | ValueError | Looping.

(** [main_async], with [TELEGRAM_BOT_TOKEN] (unset or empty: [[]]) and the
    test [int(TELEGRAM_FORUM_ID)] of the runtime, [int_parses], as
    parameters. *)
Definition main_async (int_parses : pystr -> bool) (TELEGRAM_BOT_TOKEN : pystr)
    (worlds : list World) (fs : Files) : M (MainState * Files) :=
  if negb (truthy TELEGRAM_BOT_TOKEN) || negb (truthy (TELEGRAM_CHAT_ID cfg))
  then ret (Returned, fs)
  else
    let forum_ok :=
      match TELEGRAM_FORUM_ID cfg with
      | Some forum => if truthy forum then int_parses forum else true
      | None => true
      end in
    if negb forum_ok then ret (ValueError, fs)
    else
      send_telegram_message cfg bot (TELEGRAM_CHAT_ID cfg) startup_text
        (TELEGRAM_FORUM_ID cfg) None ;;;
      fs' <- poll_cycles worlds fs ;;
      ret (Looping, fs').

End MainLoop.

(** A feed file as the program creates it, with a blank line added. *)
Definition comment_files : Files :=
  {| FEEDS_FILE := Some [py "# Add your RSS feeds here, one per line" ++ [NL];
                         py "  " ++ [NL]];
     HISTORY_FILE := None;
     IMAGE_CACHE_FILE := None |}.

(** The sample feed, with the identifier "a" already in the history. *)
Definition seen_files : Files :=
  {| FEEDS_FILE := Some [sample_url ++ [NL]];
     HISTORY_FILE := Some {[ sample_url := [py "a"] ]};
     IMAGE_CACHE_FILE := None |}.

(** A world whose image service knows one cover for every title. *)
Definition image_world : World :=
  {| feedparser_parse := fun _ => None;
     anilist_media := fun _ => Some [Some (py "http://img.example.org/1.png")] |}.

(** A configuration whose thread identifier is not a number. *)
Definition threaded_config : Config :=
  {| TELEGRAM_CHAT_ID := py "42";
     TELEGRAM_FORUM_ID := Some (py "general");
     CHECK_INTERVAL := 3600;
     TELEGRAM_GROUPED_MESSAGES := true;
     TELEGRAM_MESSAGE_LINKS_BUTTON := false;
     INCLUDE_DESCRIPTION := false;
     DISABLE_NOTIFICATION := false |}.

(** [int(s)] succeeds on the non-empty strings of ASCII digits (a sample of
    what the runtime accepts). *)
Definition ascii_int_parses (s : pystr) : bool :=
  truthy s && forallb ascii_isdecimal s.

(** The sample files once a cycle has put the key of the feed into the
    history without an identifier under it. *)
Definition keyed_files : Files :=
  {| FEEDS_FILE := Some [sample_url ++ [NL]];
     HISTORY_FILE := Some {[ sample_url := [] ]};
     IMAGE_CACHE_FILE := None |}.

(** ** Notions for what a cycle queues and hands to the bot *)

(** [item] is queued under [feed_title] in [messages_by_feed]. *)
Definition queued (feed_title : pystr) (item : Item)
    (messages : list (pystr * list Item)) : Prop :=
  exists items, (feed_title, items) ∈ messages /\ item ∈ items.

(** [item] carries the title, the link and the description of [entry], with
    the defaults of [check_feeds]. *)
Definition item_of (cfg : Config) (entry : FeedEntry) (item : Item) : Prop :=
  title item = default (py "No title") (attr_title entry) /\
  link item = default [] (attr_link entry) /\
  description item
    = (if INCLUDE_DESCRIPTION cfg
       then if truthy (default [] (attr_description entry))
            then default [] (attr_description entry)
            else default [] (attr_summary entry)
       else []).

(** The call that carries [item] in the single strategy: the text message,
    or the photo with the text as its caption. *)
Definition single_call `{Runtime} (cfg : Config) (feed_title : pystr)
    (item : Item) (c : Call) : Prop :=
  let message := fst (single_message cfg feed_title item) in
  let reply_markup := snd (single_message cfg feed_title item) in
  c = send_message (TELEGRAM_CHAT_ID cfg) message (TELEGRAM_FORUM_ID cfg)
        reply_markup (DISABLE_NOTIFICATION cfg) \/
  exists url, image_url item = Some url /\
    c = send_photo (TELEGRAM_CHAT_ID cfg) url message (TELEGRAM_FORUM_ID cfg)
          reply_markup (DISABLE_NOTIFICATION cfg).

(** [item] was handed to the bot in [tr]: in the grouped strategy a text
    message under the header of its feed holds its block; in the single
    strategy a call carries it. *)
Definition delivered `{Runtime} (cfg : Config) (feed_title : pystr)
    (item : Item) (tr : Trace) : Prop :=
  if TELEGRAM_GROUPED_MESSAGES cfg
  then exists before after ok,
         text_event cfg (grouped_header feed_title ++ before ++
                         grouped_entry_text cfg item ++ after) ok ∈ tr
  else exists c ok, Invoke c ok ∈ tr /\ single_call cfg feed_title item c.

(** Where a queued item comes from: an entry of a fetched feed among
    [feeds] whose identifier was not in [sent0] and is in [sent]. *)
Definition origin `{Runtime} (cfg : Config) (world : World) (sent0 : SentItems)
    (feeds : list pystr) (sent : SentItems) (t : pystr) (item : Item) : Prop :=
  exists feed_url feed e x fs',
    feed_url ∈ feeds /\
    feedparser_parse world feed_url = Some feed /\
    t = default feed_url (feed_title_attr feed) /\
    e ∈ feed_entries feed /\ entry_id_of e = Some x /\
    item = fst (new_item cfg world e fs') /\
    x ∈ ids_of sent feed_url /\ x ∉ ids_of sent0 feed_url.

(** A call of [bot.send_photo]. *)
Definition is_photo (c : Call) : Prop :=
  match c with send_photo _ _ _ _ _ _ => True | _ => False end.

Definition other_url : pystr := py "http://example.org/other".
Definition down_url : pystr := py "http://example.org/down".

(** The sample feed has an item without identifier behind its first entry;
    the feed at [other_url] is in order and has no title; no other feed can
    be fetched.  The image service knows one cover for every title. *)
Definition mixed_world : World :=
  {| feedparser_parse := fun u =>
       if bool_decide (u = sample_url)
       then Some {| feed_title_attr := Some (py "Feed");
                    feed_entries := [entry_a; entry_anonymous; entry_b] |}
       else if bool_decide (u = other_url)
       then Some {| feed_title_attr := None; feed_entries := [entry_b] |}
       else None;
     anilist_media := fun _ => Some [Some (py "http://img.example.org/1.png")] |}.

Definition mixed_files : Files :=
  {| FEEDS_FILE := Some [down_url ++ [NL]; sample_url ++ [NL]; other_url ++ [NL]];
     HISTORY_FILE := None;
     IMAGE_CACHE_FILE := None |}.

(** * Properties *)

(** ** Traces *)

Lemma emitted_extends {A} (m : M A) (tr evs : Trace) :
  snd (m tr) = tr ++ evs -> emitted m tr = evs.
Proof.
  intros E. unfold emitted. rewrite E. apply drop_app_length.
Qed.

Lemma texts_app (tr1 tr2 : Trace) : texts (tr1 ++ tr2) = texts tr1 ++ texts tr2.
Proof.
  induction tr1 as [|e tr1 IH]; simpl; [reflexivity|].
  destruct e as [[] ?|]; simpl; rewrite IH; reflexivity.
Qed.

Lemma len_app (s t : pystr) : len (s ++ t) = len s + len t.
Proof. unfold len. rewrite length_app. lia. Qed.

Lemma len_nil : len [] = 0.
Proof. reflexivity. Qed.

(** ** The grouped strategy *)

Section Grouped.
Context `{Runtime}.
Variable cfg : Config.
Variable bot : Bot.

Lemma blocks_app g1 g2 : blocks cfg (g1 ++ g2) = blocks cfg g1 ++ blocks cfg g2.
Proof. unfold blocks. rewrite map_app, concat_app. reflexivity. Qed.

Lemma blocks_one e : blocks cfg [e] = grouped_entry_text cfg e.
Proof. unfold blocks. simpl. apply app_nil_r. Qed.

Lemma blocks_concat gs : concat (map (blocks cfg) gs) = blocks cfg (concat gs).
Proof.
  induction gs as [|g gs IH]; simpl; [reflexivity|].
  rewrite blocks_app, IH. reflexivity.
Qed.

Lemma grouped_entry_text_nonempty e : grouped_entry_text cfg e <> [].
Proof.
  unfold grouped_entry_text.
  destruct (INCLUDE_DESCRIPTION cfg && truthy (description e)),
    (TELEGRAM_MESSAGE_LINKS_BUTTON cfg); simpl; discriminate.
Qed.

Lemma blocks_nil_inv g : blocks cfg g = [] -> g = [].
Proof.
  destruct g as [|e g]; [reflexivity|]. unfold blocks. simpl. intros E.
  apply app_eq_nil in E as [E _].
  exfalso. exact (grouped_entry_text_nonempty e E).
Qed.

Lemma grouped_entries_trace header entries : forall g tr,
  exists evs,
    grouped_entries cfg bot header entries (blocks cfg g) tr
      = (blocks cfg (snd (grouping cfg header entries g)), tr ++ evs) /\
    Forall2 (fun ev g' => exists ok, ev = text_event cfg (header ++ blocks cfg g') ok)
      evs (fst (grouping cfg header entries g)).
Proof.
  induction entries as [|e rest IH]; intros g tr; simpl.
  - exists []. rewrite app_nil_r. split; [reflexivity|constructor].
  - destruct (MAX_MESSAGE_LENGTH <? _) eqn:Hover.
    + destruct (IH [e] (tr ++ [text_event cfg (header ++ blocks cfg g)
                                  (bot tr (send_message (TELEGRAM_CHAT_ID cfg)
                                     (header ++ blocks cfg g) (TELEGRAM_FORUM_ID cfg)
                                     None (DISABLE_NOTIFICATION cfg)))]))
        as (evs & E & F).
      rewrite blocks_one in E.
      destruct (grouping cfg header rest [e]) as [gs gl] eqn:G. simpl in *.
      eexists (_ :: evs). split.
      * unfold bind, send_telegram_message, call_bot. simpl.
        unfold text_event in E. rewrite E. rewrite <- app_assoc. reflexivity.
      * constructor; [eexists; reflexivity|exact F].
    + destruct (IH (g ++ [e]) tr) as (evs & E & F).
      rewrite blocks_app, blocks_one in E. exists evs. split; assumption.
Qed.

Lemma grouping_concat header entries : forall g,
  concat (fst (grouping cfg header entries g)) ++ snd (grouping cfg header entries g)
    = g ++ entries.
Proof.
  induction entries as [|e rest IH]; intros g; simpl.
  - symmetry. apply app_nil_r.
  - destruct (MAX_MESSAGE_LENGTH <? _).
    + specialize (IH [e]). destruct (grouping cfg header rest [e]) as [gs gl].
      simpl in *. rewrite <- app_assoc, IH. reflexivity.
    + rewrite IH, <- app_assoc. reflexivity.
Qed.

Lemma grouping_last_nonempty header entries : forall g,
  g <> [] \/ entries <> [] -> snd (grouping cfg header entries g) <> [].
Proof.
  induction entries as [|e rest IH]; intros g Hne; simpl.
  - destruct Hne as [?|?]; congruence.
  - destruct (MAX_MESSAGE_LENGTH <? _).
    + specialize (IH [e]). destruct (grouping cfg header rest [e]) as [gs gl].
      simpl in *. apply IH. left. discriminate.
    + apply IH. left. destruct g; discriminate.
Qed.

Lemma grouping_no_flush header entries : forall g,
  fst (grouping cfg header entries g) = [] ->
  entries = [] \/ len header + len (blocks cfg (g ++ entries)) <= MAX_MESSAGE_LENGTH.
Proof.
  induction entries as [|e rest IH]; intros g E; [left; reflexivity|right].
  simpl in E. destruct (MAX_MESSAGE_LENGTH <? _) eqn:Hover.
  - destruct (grouping cfg header rest [e]); discriminate.
  - destruct (IH _ E) as [->|Hle].
    + apply N.ltb_ge in Hover. rewrite blocks_app, blocks_one, len_app. lia.
    + rewrite <- app_assoc in Hle. exact Hle.
Qed.

Lemma grouping_bounded header entries : forall g,
  len header + len (blocks cfg g) <= MAX_MESSAGE_LENGTH ->
  Forall (fun e => len header + len (grouped_entry_text cfg e)
                   <= MAX_MESSAGE_LENGTH) entries ->
  Forall (fun g' => len (header ++ blocks cfg g') <= MAX_MESSAGE_LENGTH)
    (fst (grouping cfg header entries g) ++ [snd (grouping cfg header entries g)]).
Proof.
  induction entries as [|e rest IH]; intros g Hg Hall; simpl.
  - constructor; [rewrite len_app; exact Hg|constructor].
  - inversion Hall as [|? ? He Hrest]; subst.
    destruct (MAX_MESSAGE_LENGTH <? _) eqn:Hover.
    + specialize (IH [e]). destruct (grouping cfg header rest [e]) as [gs gl].
      simpl in *. constructor; [rewrite len_app; exact Hg|].
      apply IH; [rewrite blocks_one; exact He|exact Hrest].
    + apply IH; [|exact Hrest].
      apply N.ltb_ge in Hover. rewrite blocks_app, blocks_one, len_app. lia.
Qed.

(** The trace of the body of the outer loop for a feed with entries. *)
Lemma grouped_feed_trace feed_title entries tr :
  entries <> [] ->
  let header := grouped_header feed_title in
  exists evs,
    snd (grouped_feed cfg bot (feed_title, entries) tr)
      = tr ++ evs ++ [Sleep 1] /\
    Forall2 (fun ev g' => exists ok, ev = text_event cfg (header ++ blocks cfg g') ok)
      evs (fst (grouping cfg header entries []) ++ [snd (grouping cfg header entries [])]).
Proof.
  intros Hne header.
  destruct (grouped_entries_trace header entries [] tr) as (evs & E & F).
  change (blocks cfg []) with (@nil N) in E.
  assert (Hl : snd (grouping cfg header entries []) <> [])
    by (apply grouping_last_nonempty; right; exact Hne).
  assert (Ht : truthy (blocks cfg (snd (grouping cfg header entries []))) = true).
  { destruct (blocks cfg _) eqn:B; [|reflexivity].
    apply blocks_nil_inv in B. contradiction. }
  exists (evs ++ [text_event cfg (header ++ blocks cfg (snd (grouping cfg header entries [])))
                   (bot (tr ++ evs)
                      (send_message (TELEGRAM_CHAT_ID cfg)
                         (header ++ blocks cfg (snd (grouping cfg header entries [])))
                         (TELEGRAM_FORUM_ID cfg) None
                         (DISABLE_NOTIFICATION cfg)))]).
  split.
  - unfold grouped_feed. destruct entries as [|e rest]; [contradiction|].
    fold header. unfold bind at 1. rewrite E. unfold bind at 1.
    rewrite Ht. unfold bind, send_telegram_message, call_bot, asyncio_sleep, ret.
    simpl. unfold text_event. rewrite <- !app_assoc. reflexivity.
  - apply Forall2_app; [exact F|].
    constructor; [eexists; reflexivity|constructor].
Qed.

Lemma texts_text_events header evs gs :
  Forall2 (fun ev g' => exists ok, ev = text_event cfg (header ++ blocks cfg g') ok)
    evs gs ->
  texts evs = map (fun g' => header ++ blocks cfg g') gs.
Proof.
  induction 1 as [|ev g' evs gs [ok ->] _ IH]; simpl; [reflexivity|].
  rewrite IH. reflexivity.
Qed.

Lemma outbound_text_events header evs gs :
  Forall2 (fun ev g' => exists ok, ev = text_event cfg (header ++ blocks cfg g') ok)
    evs gs ->
  outbound evs = evs.
Proof.
  induction 1 as [|ev g' evs gs [ok ->] _ IH]; simpl; [reflexivity|].
  unfold outbound in *. simpl. rewrite IH. reflexivity.
Qed.

Lemma outbound_app (tr1 tr2 : Trace) :
  outbound (tr1 ++ tr2) = outbound tr1 ++ outbound tr2.
Proof. unfold outbound. apply List.filter_app. Qed.

(** The messages of a feed with entries: one per flushed run, one for the
    run left at the end, then the pacing delay. *)
Lemma grouped_feed_emitted feed_title entries tr :
  entries <> [] ->
  let header := grouped_header feed_title in
  let groups := fst (grouping cfg header entries []) ++
                [snd (grouping cfg header entries [])] in
  exists evs,
    emitted (grouped_feed cfg bot (feed_title, entries)) tr = evs ++ [Sleep 1] /\
    Forall2 (fun ev g' => exists ok, ev = text_event cfg (header ++ blocks cfg g') ok)
      evs groups /\
    texts (emitted (grouped_feed cfg bot (feed_title, entries)) tr)
      = map (fun g' => header ++ blocks cfg g') groups /\
    outbound (emitted (grouped_feed cfg bot (feed_title, entries)) tr) = evs.
Proof.
  intros Hne header groups.
  destruct (grouped_feed_trace feed_title entries tr Hne) as (evs & E & F).
  apply emitted_extends in E. exists evs. rewrite E.
  split; [reflexivity|]. split; [exact F|]. split.
  - rewrite texts_app. simpl. rewrite app_nil_r.
    exact (texts_text_events _ _ _ F).
  - rewrite outbound_app. simpl. rewrite app_nil_r.
    exact (outbound_text_events _ _ _ F).
Qed.

(** Where the header fits with every single block, every message of the
    feed fits the limit. *)
Lemma grouped_feed_bounded feed_title entries tr :
  Forall (fun e => len (grouped_header feed_title) +
                   len (grouped_entry_text cfg e) <= MAX_MESSAGE_LENGTH) entries ->
  Forall (fun m => len m <= MAX_MESSAGE_LENGTH)
    (texts (emitted (grouped_feed cfg bot (feed_title, entries)) tr)).
Proof.
  intros Hall. destruct entries as [|e rest] eqn:En.
  - unfold emitted. simpl. rewrite drop_all. constructor.
  - rewrite <- En in *.
    assert (Hne : entries <> []) by (rewrite En; discriminate).
    destruct (grouped_feed_emitted feed_title entries tr Hne)
      as (evs & _ & _ & -> & _).
    apply Forall_map.
    apply (grouping_bounded (grouped_header feed_title) entries []);
      [|exact Hall].
    change (blocks cfg []) with (@nil N). rewrite len_nil.
    rewrite En in Hall. inversion Hall as [|? ? He _]; subst.
    pose proof (N.le_0_l (len (grouped_entry_text cfg e))).
    unfold MAX_MESSAGE_LENGTH in *. lia.
Qed.

(** A feed whose only entry does not fit with the header: the header goes
    out alone, then the header with the whole block. *)
Lemma grouped_feed_oversized feed_title e tr :
  MAX_MESSAGE_LENGTH <
    len (grouped_header feed_title) + len (grouped_entry_text cfg e) ->
  texts (emitted (grouped_feed cfg bot (feed_title, [e])) tr)
    = [grouped_header feed_title;
       grouped_header feed_title ++ grouped_entry_text cfg e].
Proof.
  intros Hbig.
  destruct (grouped_feed_emitted feed_title [e] tr ltac:(discriminate))
    as (evs & _ & _ & -> & _).
  cbn [grouping]. change (blocks cfg []) with (@nil N).
  rewrite len_nil, N.add_0_r.
  apply N.ltb_lt in Hbig. rewrite Hbig. cbn [fst snd app map].
  rewrite app_nil_r, blocks_one. reflexivity.
Qed.

Lemma len_title_le_block e : len (title e) <= len (grouped_entry_text cfg e).
Proof.
  unfold grouped_entry_text.
  destruct (INCLUDE_DESCRIPTION cfg && truthy (description e)),
    (TELEGRAM_MESSAGE_LINKS_BUTTON cfg); rewrite !len_app; lia.
Qed.

End Grouped.

(** [send_grouped_messages] adds to the trace what the bodies of its loop add. *)
Lemma send_grouped_messages_trace `{Runtime} cfg bot msgs tr :
  snd (send_grouped_messages cfg bot msgs tr)
    = snd (for_each msgs (grouped_feed cfg bot) tr).
Proof.
  unfold send_grouped_messages. destruct msgs as [|kv msgs]; [reflexivity|].
  unfold bind. destruct (for_each _ _ tr). reflexivity.
Qed.

Lemma for_each_one {A} (x : A) (body : A -> M unit) tr :
  snd (for_each [x] body tr) = snd (body x tr).
Proof. simpl. unfold bind. destruct (body x tr). reflexivity. Qed.

(** C1 (the code breaks the bound): a feed whose only new entry has a title of
    5000 characters makes the grouped strategy send a text message longer
    than 4096 characters, whatever the configuration and the bot. *)
Theorem C1_oversized_entry_exceeds_limit `{Runtime} cfg bot tr :
  Exists (fun m => MAX_MESSAGE_LENGTH < len m)
    (texts (emitted (send_grouped_messages cfg bot [(py "Feed", [long_item])]) tr)).
Proof.
  assert (Hbig : MAX_MESSAGE_LENGTH <
            len (grouped_header (py "Feed")) + len (grouped_entry_text cfg long_item)).
  { pose proof (len_title_le_block cfg long_item) as Hle.
    change (len (title long_item)) with (len long_title) in Hle.
    assert (Hl : len long_title = 5000) by (vm_compute; reflexivity).
    rewrite Hl in Hle. unfold MAX_MESSAGE_LENGTH. lia. }
  unfold emitted.
  rewrite send_grouped_messages_trace, for_each_one.
  change (drop (length tr) (snd (grouped_feed cfg bot (py "Feed", [long_item]) tr)))
    with (emitted (grouped_feed cfg bot (py "Feed", [long_item])) tr).
  rewrite (grouped_feed_oversized cfg bot _ _ tr Hbig).
  apply Exists_cons_tl, Exists_cons_hd. rewrite len_app. exact Hbig.
Qed.

(** C4 as stated fails: a feed title of 5000 characters with no new entry
    makes the combined content exceed the limit, and no message is sent. *)
Lemma C4_empty_feed_sends_nothing :
  let header := grouped_header long_title in
  ~ (MAX_MESSAGE_LENGTH < len header + len (@blocks ascii_runtime default_config []) ->
     (1 < length (texts (emitted
            (@grouped_feed ascii_runtime default_config reliable_bot
               (long_title, [])) [])))%nat).
Proof.
  intros header Hclaim.
  assert (Hlen : MAX_MESSAGE_LENGTH < len header + len (@blocks ascii_runtime default_config []))
    by (vm_compute; reflexivity).
  specialize (Hclaim Hlen). vm_compute in Hclaim. lia.
Qed.

(** C4 (amended): for a feed with at least one new entry whose header and
    blocks together exceed 4096 characters, the grouped strategy sends more
    than one message; the messages are the header followed by the blocks of
    consecutive runs of the entries, and the runs put end to end are the
    entries: every block is sent once, none is left out. *)
Theorem C4_overflow_splits_and_covers `{Runtime} cfg bot feed_title entries tr :
  entries <> [] ->
  MAX_MESSAGE_LENGTH < len (grouped_header feed_title) + len (blocks cfg entries) ->
  let sent := emitted (grouped_feed cfg bot (feed_title, entries)) tr in
  (1 < length (texts sent))%nat /\
  exists groups,
    texts sent = map (fun g => grouped_header feed_title ++ blocks cfg g) groups /\
    length (outbound sent) = length groups /\
    concat groups = entries /\
    concat (map (blocks cfg) groups) = blocks cfg entries.
Proof.
  intros Hne Hbig sent.
  destruct (grouped_feed_emitted cfg bot feed_title entries tr Hne)
    as (evs & _ & F & Ht & Ho).
  subst sent. rewrite Ht, Ho.
  pose proof (grouping_concat cfg (grouped_header feed_title) entries []) as Hc.
  pose proof (grouping_no_flush cfg (grouped_header feed_title) entries []) as Hf.
  destruct (grouping cfg (grouped_header feed_title) entries []) as [gs gl].
  cbn [fst snd] in *. split.
  - rewrite length_map, length_app. simpl.
    destruct gs as [|g gs]; [|simpl; lia].
    destruct (Hf eq_refl) as [?|Hle]; [contradiction|].
    simpl in Hle. lia.
  - exists (gs ++ [gl]). split; [reflexivity|]. split.
    + eapply Forall2_length. exact F.
    + assert (Hcat : concat (gs ++ [gl]) = entries).
      { rewrite concat_app. simpl. rewrite app_nil_r. exact Hc. }
      split; [exact Hcat|].
      rewrite <- Hcat. apply blocks_concat.
Qed.

Lemma C4_overflow_splits_and_covers_witness :
  let entries := [long_item; short_item] in
  let sent := emitted (@grouped_feed ascii_runtime default_config reliable_bot
                         (py "Feed", entries)) [] in
  (1 < length (texts sent))%nat /\
  exists groups,
    texts sent = map (fun g => grouped_header (py "Feed") ++
                               @blocks ascii_runtime default_config g) groups /\
    length (outbound sent) = length groups /\
    concat groups = entries /\
    concat (map (@blocks ascii_runtime default_config) groups)
      = @blocks ascii_runtime default_config entries.
Proof.
  apply (@C4_overflow_splits_and_covers ascii_runtime default_config reliable_bot
           (py "Feed") [long_item; short_item] []).
  - discriminate.
  - vm_compute. reflexivity.
Defined.

(** C10: when the block of the first entry does not fit with the header, the
    first thing the grouped strategy sends for the feed is the header alone,
    the buffer being still empty at the overflow flush. *)
Theorem C10_header_alone_first `{Runtime} cfg bot feed_title e rest tr :
  MAX_MESSAGE_LENGTH <
    len (grouped_header feed_title) + len (grouped_entry_text cfg e) ->
  exists ok more,
    emitted (grouped_feed cfg bot (feed_title, e :: rest)) tr
      = text_event cfg (grouped_header feed_title) ok :: more /\
    exists others,
      texts (emitted (grouped_feed cfg bot (feed_title, e :: rest)) tr)
        = grouped_header feed_title :: others.
Proof.
  intros Hbig.
  destruct (grouped_feed_emitted cfg bot feed_title (e :: rest) tr
              ltac:(discriminate)) as (evs & E & F & _ & _).
  rewrite E. clear E.
  cbn [grouping] in F. change (blocks cfg []) with (@nil N) in F.
  rewrite len_nil, N.add_0_r in F.
  apply N.ltb_lt in Hbig. rewrite Hbig in F.
  destruct (grouping cfg (grouped_header feed_title) rest [e]) as [gs gl].
  cbn [fst snd app] in F.
  inversion F as [|ev g evs' gs' [ok Hev] F']; subst.
  rewrite app_nil_r.
  exists ok, (evs' ++ [Sleep 1]). split; [reflexivity|].
  eexists. simpl. reflexivity.
Qed.

Lemma C10_header_alone_first_witness :
  exists ok more,
    emitted (@grouped_feed ascii_runtime default_config reliable_bot
               (py "Feed", [long_item; short_item])) []
      = text_event default_config (grouped_header (py "Feed")) ok :: more /\
    exists others,
      texts (emitted (@grouped_feed ascii_runtime default_config reliable_bot
                        (py "Feed", [long_item; short_item])) [])
        = grouped_header (py "Feed") :: others.
Proof.
  apply (@C10_header_alone_first ascii_runtime default_config reliable_bot
           (py "Feed") long_item [short_item] []).
  vm_compute. reflexivity.
Defined.

(** ** The description line *)

Lemma shorten_long (desc : pystr) :
  150 < len desc ->
  shorten desc = take 147 desc ++ py "..." /\ len (shorten desc) = 150.
Proof.
  intros Hlong. unfold shorten.
  apply N.ltb_lt in Hlong as Hb. rewrite Hb. split; [reflexivity|].
  unfold len in *. rewrite length_app, length_take.
  change (length (py "...")) with 3%nat. lia.
Qed.

Lemma shorten_short (desc : pystr) : len desc <= 150 -> shorten desc = desc.
Proof.
  intros Hshort. unfold shorten.
  apply N.ltb_ge in Hshort. rewrite Hshort. reflexivity.
Qed.

(** C9 as stated fails: a description of 151 characters is not rendered as
    its first 150 characters followed by an ellipsis, whatever the ellipsis. *)
Lemma C9_keeps_147_not_150 :
  ~ exists ellipsis,
      @description_line ascii_runtime wordy_item
        = py "  _" ++
          take 150 (@strip_html ascii_runtime (description wordy_item)) ++
          ellipsis ++ py "_" ++ [NL].
Proof.
  intros [ellipsis E].
  apply (f_equal (fun s => nth 150 s 0)) in E.
  vm_compute in E. discriminate E.
Qed.

(** C9 (amended): with descriptions enabled, an entry with a description is
    rendered, in the block of the grouped strategy and in the text of the
    single strategy, with the line ["  _" desc "_\n"], where a stripped,
    whitespace-collapsed description of more than 150 characters is cut to
    its first 147 characters followed by three dots (150 characters in all),
    and one of at most 150 characters is left as it is. *)
Theorem C9_description_cut_to_147_and_dots `{Runtime} cfg feed_title entry :
  INCLUDE_DESCRIPTION cfg = true ->
  description entry <> [] ->
  let desc := strip_html (description entry) in
  let shown := if 150 <? len desc then take 147 desc ++ py "..." else desc in
  (exists link_part,
     grouped_entry_text cfg entry
       = [8226] ++ py " *" ++ title entry ++ py "*" ++ [NL] ++
         py "  _" ++ shown ++ py "_" ++ [NL] ++ link_part) /\
  single_text cfg feed_title entry
    = grouped_header feed_title ++ py "*" ++ title entry ++ py "*" ++ [NL] ++
      py "  _" ++ shown ++ py "_" ++ [NL] /\
  (150 < len desc ->
     len shown = 150 /\ take 147 shown = take 147 desc /\
     drop 147 shown = py "...") /\
  (len desc <= 150 -> shown = desc).
Proof.
  intros Hon Hdesc desc shown.
  assert (Ht : truthy (description entry) = true)
    by (destruct (description entry); [contradiction|reflexivity]).
  split; [|split; [|split]].
  - unfold grouped_entry_text, description_line, shorten.
    rewrite Hon, Ht. fold desc. fold shown. simpl andb. cbv iota.
    destruct (TELEGRAM_MESSAGE_LINKS_BUTTON cfg); eexists;
      rewrite <- !app_assoc; reflexivity.
  - unfold single_text, description_line, shorten, grouped_header.
    rewrite Hon, Ht. fold desc. fold shown. simpl andb. cbv iota.
    rewrite <- !app_assoc. reflexivity.
  - intros Hlong. subst shown.
    apply N.ltb_lt in Hlong as Hb. rewrite Hb.
    assert (Hl : length (take 147 desc) = 147%nat)
      by (rewrite length_take; unfold len in Hlong; lia).
    split; [|split].
    + unfold len. rewrite length_app, Hl. reflexivity.
    + rewrite take_app_le by lia. rewrite take_take. reflexivity.
    + rewrite drop_app_length' by (symmetry; exact Hl). reflexivity.
  - intros Hshort. subst shown.
    apply N.ltb_ge in Hshort. rewrite Hshort. reflexivity.
Qed.

Lemma C9_description_cut_to_147_and_dots_witness :
  let desc := @strip_html ascii_runtime (description wordy_item) in
  let shown := if 150 <? len desc then take 147 desc ++ py "..." else desc in
  (exists link_part,
     @grouped_entry_text ascii_runtime single_config wordy_item
       = [8226] ++ py " *" ++ title wordy_item ++ py "*" ++ [NL] ++
         py "  _" ++ shown ++ py "_" ++ [NL] ++ link_part) /\
  @single_text ascii_runtime single_config (py "Feed") wordy_item
    = grouped_header (py "Feed") ++ py "*" ++ title wordy_item ++ py "*" ++
      [NL] ++ py "  _" ++ shown ++ py "_" ++ [NL] /\
  (150 < len desc ->
     len shown = 150 /\ take 147 shown = take 147 desc /\
     drop 147 shown = py "...") /\
  (len desc <= 150 -> shown = desc).
Proof.
  apply (@C9_description_cut_to_147_and_dots ascii_runtime single_config
           (py "Feed") wordy_item).
  - reflexivity.
  - discriminate.
Defined.

(** ** The single strategy *)

Section Single.
Context `{Runtime}.
Variable cfg : Config.
Variable bot : Bot.

(** What [single_entry] adds to the trace for an entry with an image. *)
Lemma single_entry_with_image feed_title entry url tr :
  image_url entry = Some url -> url <> [] ->
  let message := fst (single_message cfg feed_title entry) in
  let reply_markup := snd (single_message cfg feed_title entry) in
  let photo := send_photo (TELEGRAM_CHAT_ID cfg) url message
                 (TELEGRAM_FORUM_ID cfg) reply_markup (DISABLE_NOTIFICATION cfg) in
  let text := send_message (TELEGRAM_CHAT_ID cfg) message
                (TELEGRAM_FORUM_ID cfg) reply_markup (DISABLE_NOTIFICATION cfg) in
  emitted (single_entry cfg bot feed_title entry) tr
    = if bot tr photo
      then [Invoke photo true; Sleep 1]
      else [Invoke photo false;
            Invoke text (bot (tr ++ [Invoke photo false]) text); Sleep 1].
Proof.
  intros Himg Hurl message reply_markup photo text.
  apply emitted_extends.
  unfold single_entry. subst message reply_markup photo text.
  destruct (single_message cfg feed_title entry) as [message reply_markup].
  rewrite Himg. destruct url as [|c url]; [contradiction|].
  unfold bind, send_photo_message, send_telegram_message, call_bot,
    asyncio_sleep, ret. cbn [fst snd].
  destruct (bot tr _) eqn:Hok; cbn [negb]; rewrite <- !app_assoc; reflexivity.
Qed.

End Single.

(** What [check_feeds] returns does not depend on the bot. *)
Lemma check_feeds_result `{Runtime} cfg world bot fs tr :
  fst (check_feeds cfg world bot fs tr)
    = let (feeds, fs') := load_feeds fs in
      match feeds with
      | [] => (load_sent_items fs, fs')
      | _ =>
          let st := collect cfg world feeds
                      {| sent_items := load_sent_items fs;
                         messages_by_feed := [];
                         files := fs' |} in
          (sent_items st, files st)
      end.
Proof.
  unfold check_feeds. destruct (load_feeds fs) as [feeds fs'].
  destruct feeds as [|u feeds]; [reflexivity|].
  unfold bind, ret. destruct (if TELEGRAM_GROUPED_MESSAGES cfg then _ else _).
  reflexivity.
Qed.

Lemma poll_cycle_files `{Runtime} cfg world bot fs tr :
  fst (poll_cycle cfg world bot fs tr)
    = save_sent_items (fst (fst (check_feeds cfg world bot fs tr)))
        (snd (fst (check_feeds cfg world bot fs tr))).
Proof.
  unfold poll_cycle, bind, asyncio_sleep, ret.
  destruct (check_feeds cfg world bot fs tr) as [r tr']. reflexivity.
Qed.

(** C3 as stated fails: with the link button off, the caption of the photo of
    an entry with an image is not the text without the link. *)
Lemma C3_caption_carries_link :
  ~ exists ok reply_markup more,
      emitted (@single_entry ascii_runtime single_config reliable_bot
                 (py "Feed") wordy_item) []
        = Invoke (send_photo (TELEGRAM_CHAT_ID single_config)
                    (py "http://img.example.org/3.png")
                    (@single_text ascii_runtime single_config (py "Feed") wordy_item)
                    (TELEGRAM_FORUM_ID single_config) reply_markup
                    (DISABLE_NOTIFICATION single_config)) ok :: more.
Proof.
  intros (ok & reply_markup & more & E).
  apply (f_equal (fun evs =>
           match evs with
           | Invoke (send_photo _ _ caption _ _ _) _ :: _ => length caption
           | _ => O
           end)) in E.
  vm_compute in E. discriminate E.
Qed.

(** C3 (amended): in the single strategy an entry with a resolved image is
    sent as a photo whose caption is the rendered text.  With the link button
    on, the caption is the text without the link and the link is the URL of
    an 'Open Link' button; with the button off, the caption ends with the
    link and there is no button. *)
Theorem C3_photo_caption_and_link `{Runtime} cfg bot feed_title entry url tr :
  image_url entry = Some url -> url <> [] ->
  exists ok more caption reply_markup,
    emitted (single_entry cfg bot feed_title entry) tr
      = Invoke (send_photo (TELEGRAM_CHAT_ID cfg) url caption
                  (TELEGRAM_FORUM_ID cfg) reply_markup
                  (DISABLE_NOTIFICATION cfg)) ok :: more /\
    (TELEGRAM_MESSAGE_LINKS_BUTTON cfg = true ->
       caption = single_text cfg feed_title entry /\
       reply_markup = Some [[ {| button_text := py "Open Link";
                                 button_url := link entry |} ]]) /\
    (TELEGRAM_MESSAGE_LINKS_BUTTON cfg = false ->
       caption = single_text cfg feed_title entry ++ [NL] ++ link entry /\
       reply_markup = None).
Proof.
  intros Himg Hurl.
  pose proof (single_entry_with_image cfg bot feed_title entry url tr Himg Hurl)
    as E. cbv zeta in E. rewrite E. clear E.
  unfold single_message.
  destruct (TELEGRAM_MESSAGE_LINKS_BUTTON cfg); cbn [fst snd];
    match goal with |- context [if bot tr ?c then _ else _] =>
      destruct (bot tr c) end;
    do 4 eexists; (split; [reflexivity|]); split; intros Hflag;
    try discriminate Hflag; split; reflexivity.
Qed.

Lemma C3_photo_caption_and_link_witness :
  exists ok more caption reply_markup,
    emitted (@single_entry ascii_runtime single_config reliable_bot
               (py "Feed") wordy_item) []
      = Invoke (send_photo (TELEGRAM_CHAT_ID single_config)
                  (py "http://img.example.org/3.png") caption
                  (TELEGRAM_FORUM_ID single_config) reply_markup
                  (DISABLE_NOTIFICATION single_config)) ok :: more /\
    (TELEGRAM_MESSAGE_LINKS_BUTTON single_config = true ->
       caption = @single_text ascii_runtime single_config (py "Feed") wordy_item /\
       reply_markup = Some [[ {| button_text := py "Open Link";
                                 button_url := link wordy_item |} ]]) /\
    (TELEGRAM_MESSAGE_LINKS_BUTTON single_config = false ->
       caption = @single_text ascii_runtime single_config (py "Feed") wordy_item
                 ++ [NL] ++ link wordy_item /\
       reply_markup = None).
Proof.
  apply (@C3_photo_caption_and_link ascii_runtime single_config reliable_bot
           (py "Feed") wordy_item (py "http://img.example.org/3.png") []).
  - reflexivity.
  - discriminate.
Defined.

(** ** The identifiers recorded by a cycle *)

Lemma py_in_spec (x : pystr) (l : list pystr) : py_in x l = true <-> x ∈ l.
Proof.
  unfold py_in. rewrite existsb_exists. split.
  - intros (y & Hy & E). apply bool_decide_eq_true in E. subst y.
    apply list_elem_of_In. exact Hy.
  - intros Hx. exists x. split; [apply list_elem_of_In; exact Hx|].
    apply bool_decide_eq_true. reflexivity.
Qed.

Lemma py_in_false (x : pystr) (l : list pystr) : py_in x l = false <-> x ∉ l.
Proof.
  rewrite <- py_in_spec. destruct (py_in x l); split; congruence.
Qed.

Lemma fresh_ext_refl l : fresh_ext l l.
Proof.
  exists []. rewrite app_nil_r. split; [reflexivity|].
  split; [constructor|]. intros x Hx. inversion Hx.
Qed.

Lemma fresh_ext_trans l1 l2 l3 :
  fresh_ext l1 l2 -> fresh_ext l2 l3 -> fresh_ext l1 l3.
Proof.
  intros (d1 & -> & N1 & F1) (d2 & -> & N2 & F2).
  exists (d1 ++ d2). rewrite app_assoc. split; [reflexivity|]. split.
  - apply NoDup_app. split; [exact N1|]. split; [|exact N2].
    intros x Hx1 Hx2. apply (F2 x Hx2). apply elem_of_app. right. exact Hx1.
  - intros x Hx. apply elem_of_app in Hx as [Hx|Hx]; [exact (F1 x Hx)|].
    intros Hl. apply (F2 x Hx). apply elem_of_app. left. exact Hl.
Qed.

Lemma fresh_ext_elem l l' x : fresh_ext l l' -> x ∈ l -> x ∈ l'.
Proof. intros (d & -> & _) Hx. apply elem_of_app. left. exact Hx. Qed.

Lemma occurrences_app x l1 l2 :
  occurrences x (l1 ++ l2) = (occurrences x l1 + occurrences x l2)%nat.
Proof. unfold occurrences. rewrite List.filter_app, length_app. reflexivity. Qed.

Lemma occurrences_absent x l : x ∉ l -> occurrences x l = O.
Proof.
  unfold occurrences. induction l as [|y l IH]; intros Hx; [reflexivity|].
  apply not_elem_of_cons in Hx as [Hne Hx]. simpl.
  rewrite bool_decide_eq_false_2 by congruence. exact (IH Hx).
Qed.

Lemma occurrences_NoDup x l : NoDup l -> x ∈ l -> occurrences x l = 1%nat.
Proof.
  induction 1 as [|y l Hy Hl IH]; intros Hx; [inversion Hx|].
  change (y :: l) with ([y] ++ l). rewrite occurrences_app.
  apply elem_of_cons in Hx as [->|Hx].
  - rewrite (occurrences_absent y l Hy). unfold occurrences. simpl.
    rewrite bool_decide_eq_true_2 by reflexivity. reflexivity.
  - rewrite (IH Hx). unfold occurrences. simpl.
    rewrite bool_decide_eq_false_2; [reflexivity|].
    intros ->. contradiction.
Qed.

(** A new identifier of a fresh extension occurs exactly once. *)
Lemma fresh_ext_once l l' x :
  fresh_ext l l' -> x ∉ l -> x ∈ l' -> occurrences x l' = 1%nat.
Proof.
  intros (d & -> & Nd & _) Hl Hx. rewrite occurrences_app.
  rewrite (occurrences_absent x l Hl).
  apply elem_of_app in Hx as [Hx|Hx]; [contradiction|].
  exact (occurrences_NoDup x d Nd Hx).
Qed.

Lemma grows_refl s : grows s s.
Proof. intros url. split; [apply fresh_ext_refl|auto]. Qed.

Lemma grows_trans s1 s2 s3 : grows s1 s2 -> grows s2 s3 -> grows s1 s3.
Proof.
  intros G1 G2 url. destruct (G1 url) as [F1 K1], (G2 url) as [F2 K2].
  split; [exact (fresh_ext_trans _ _ _ F1 F2)|auto].
Qed.

(** Identifiers already present are never removed. *)
Lemma grows_keeps s s' url l :
  grows s s' -> s !! url = Some l -> exists d, s' !! url = Some (l ++ d).
Proof.
  intros G E. destruct (G url) as [(d & Hd & _) K].
  destruct (K ltac:(rewrite E; eauto)) as [l' E'].
  unfold ids_of in Hd. rewrite E, E' in Hd. simpl in Hd.
  exists d. rewrite E', Hd. reflexivity.
Qed.

Lemma grows_append (s : SentItems) url x :
  x ∉ ids_of s url -> grows s (<[url := ids_of s url ++ [x]]> s).
Proof.
  intros Hx u. destruct (decide (url = u)) as [<-|Hne].
  - unfold ids_of at 2. rewrite lookup_insert_eq. simpl. split.
    + exists [x]. split; [reflexivity|]. split.
      * apply NoDup_singleton.
      * intros y Hy. apply list_elem_of_singleton in Hy. subst y. exact Hx.
    + eauto.
  - unfold ids_of at 2. rewrite lookup_insert_ne by exact Hne.
    split; [apply fresh_ext_refl|auto].
Qed.

Lemma grows_setdefault (s : SentItems) url : grows s (setdefault_sent url s).
Proof.
  unfold setdefault_sent. destruct (s !! url) eqn:E; [apply grows_refl|].
  intros u. destruct (decide (url = u)) as [<-|Hne].
  - unfold ids_of. rewrite lookup_insert_eq, E. simpl.
    split; [apply fresh_ext_refl|eauto].
  - unfold ids_of. rewrite lookup_insert_ne by exact Hne.
    split; [apply fresh_ext_refl|auto].
Qed.

Lemma reached_ids_app pre entry post x :
  Forall (fun e => is_Some (entry_id_of e)) pre ->
  entry_id_of entry = Some x ->
  x ∈ reached_ids (pre ++ entry :: post).
Proof.
  intros Hpre Hx. induction Hpre as [|e pre [y Hy] _ IH]; simpl.
  - rewrite Hx. apply elem_of_cons. left. reflexivity.
  - rewrite Hy. apply elem_of_cons. right. exact IH.
Qed.

Section Recording.
Context `{Runtime}.
Variable cfg : Config.
Variable world : World.

Lemma check_entries_grows feed_url feed_title entries : forall st,
  grows (sent_items st)
    (sent_items (fst (check_entries cfg world feed_url feed_title entries st))).
Proof.
  induction entries as [|entry rest IH]; intros st; simpl.
  - apply grows_refl.
  - destruct (entry_id_of entry) as [x|]; [|apply grows_refl].
    destruct (py_in x (ids_of (sent_items st) feed_url)) eqn:Hin; [apply IH|].
    destruct (new_item cfg world entry (files st)) as [item fs'].
    eapply grows_trans; [|apply IH]. simpl.
    apply grows_append. apply py_in_false. exact Hin.
Qed.

Lemma check_entries_records feed_url feed_title entries : forall st x,
  x ∈ reached_ids entries ->
  x ∈ ids_of (sent_items (fst (check_entries cfg world feed_url feed_title
                                 entries st))) feed_url.
Proof.
  induction entries as [|entry rest IH]; intros st x Hx; simpl in *.
  - inversion Hx.
  - destruct (entry_id_of entry) as [y|]; [|inversion Hx].
    destruct (py_in y (ids_of (sent_items st) feed_url)) eqn:Hin.
    + apply elem_of_cons in Hx as [->|Hx]; [|exact (IH st x Hx)].
      apply py_in_spec in Hin.
      destruct (check_entries_grows feed_url feed_title rest st feed_url)
        as [F _].
      exact (fresh_ext_elem _ _ _ F Hin).
    + destruct (new_item cfg world entry (files st)) as [item fs'].
      apply elem_of_cons in Hx as [->|Hx]; [|exact (IH _ x Hx)].
      match goal with |- context [check_entries _ _ _ _ rest ?st1] =>
        destruct (check_entries_grows feed_url feed_title rest st1 feed_url)
          as [F _]; apply (fresh_ext_elem _ _ _ F) end.
      simpl. unfold ids_of at 1. rewrite lookup_insert_eq. simpl.
      apply elem_of_app. right. apply list_elem_of_singleton. reflexivity.
Qed.

Lemma try_feed_grows feed_url st :
  grows (sent_items st) (sent_items (fst (try_feed cfg world feed_url st))).
Proof.
  unfold try_feed. destruct (negb (truthy (py_strip feed_url))); [apply grows_refl|].
  destruct (feedparser_parse world feed_url) as [feed|]; [|apply grows_refl].
  destruct (feed_entries feed) as [|entry rest]; [apply grows_refl|].
  eapply grows_trans; [|apply check_entries_grows]. simpl.
  apply grows_setdefault.
Qed.

Lemma try_feed_records feed_url feed st x :
  truthy (py_strip feed_url) = true ->
  feedparser_parse world feed_url = Some feed ->
  x ∈ reached_ids (feed_entries feed) ->
  x ∈ ids_of (sent_items (fst (try_feed cfg world feed_url st))) feed_url.
Proof.
  intros Hurl Hfeed Hx. unfold try_feed. rewrite Hurl, Hfeed. simpl negb.
  cbv iota.
  destruct (feed_entries feed) as [|entry rest] eqn:En; [inversion Hx|].
  apply check_entries_records. exact Hx.
Qed.

Lemma collect_grows feeds : forall st,
  grows (sent_items st) (sent_items (collect cfg world feeds st)).
Proof.
  induction feeds as [|u feeds IH]; intros st; simpl; [apply grows_refl|].
  eapply grows_trans; [apply try_feed_grows|]. apply IH.
Qed.

Lemma collect_records feeds : forall st feed_url feed x,
  feed_url ∈ feeds ->
  truthy (py_strip feed_url) = true ->
  feedparser_parse world feed_url = Some feed ->
  x ∈ reached_ids (feed_entries feed) ->
  x ∈ ids_of (sent_items (collect cfg world feeds st)) feed_url.
Proof.
  induction feeds as [|u feeds IH]; intros st feed_url feed x Hin Hurl Hfeed Hx.
  - inversion Hin.
  - simpl. apply elem_of_cons in Hin as [->|Hin].
    + destruct (collect_grows feeds (check_feed cfg world st u) u) as [F _].
      apply (fresh_ext_elem _ _ _ F).
      exact (try_feed_records u feed st x Hurl Hfeed Hx).
    + exact (IH _ feed_url feed x Hin Hurl Hfeed Hx).
Qed.

(** *** [str.strip()] twice is [str.strip()] once *)

Lemma lstrip_lstrip s : lstrip (lstrip s) = lstrip s.
Proof.
  induction s as [|c s IH]; simpl; [reflexivity|].
  destruct (isspace c) eqn:E; [exact IH|]. simpl. rewrite E. reflexivity.
Qed.

Lemma lstrip_snoc s c : isspace c = false -> lstrip (s ++ [c]) = lstrip s ++ [c].
Proof.
  intros Hc. induction s as [|d s IH]; simpl; [rewrite Hc; reflexivity|].
  destruct (isspace d); [exact IH|reflexivity].
Qed.

Lemma lstrip_rstrip s :
  lstrip (rev (lstrip (rev (lstrip s)))) = rev (lstrip (rev (lstrip s))).
Proof.
  destruct (lstrip s) as [|c t] eqn:E; [reflexivity|].
  assert (Hc : isspace c = false).
  { pose proof (lstrip_lstrip s) as Hl. rewrite E in Hl. simpl in Hl.
    destruct (isspace c); [|reflexivity].
    apply (f_equal (@length N)) in Hl. simpl in Hl.
    assert (Hle : forall u : pystr, (length (lstrip u) <= length u)%nat).
    { induction u as [|d u IHu]; simpl; [lia|].
      destruct (isspace d); simpl; lia. }
    specialize (Hle t). lia. }
  simpl rev. rewrite (lstrip_snoc _ _ Hc), rev_app_distr. simpl.
  rewrite Hc. reflexivity.
Qed.

Lemma py_strip_idem s : py_strip (py_strip s) = py_strip s.
Proof.
  unfold py_strip. rewrite (lstrip_rstrip s), rev_involutive, lstrip_lstrip.
  reflexivity.
Qed.

(** A configured feed is a stripped, non-blank line: the cycle fetches it. *)
Lemma load_feeds_nonblank fs feed_url :
  feed_url ∈ fst (load_feeds fs) -> truthy (py_strip feed_url) = true.
Proof.
  unfold load_feeds. destruct (FEEDS_FILE fs) as [lines|]; simpl.
  - intros Hin. apply list_elem_of_omap in Hin as (line & _ & Hline).
    destruct (truthy (py_strip line)) eqn:Ht; [|discriminate].
    destruct (negb _); [|discriminate]. simpl in Hline.
    injection Hline as <-. rewrite py_strip_idem. exact Ht.
  - intros Hin. inversion Hin.
Qed.

End Recording.

(** What a cycle returns as [sent_items], in terms of the collecting loop. *)
Lemma check_feeds_sent `{Runtime} cfg world bot fs tr :
  fst (fst (check_feeds cfg world bot fs tr))
    = sent_items (collect cfg world (fst (load_feeds fs))
                    {| sent_items := load_sent_items fs;
                       messages_by_feed := [];
                       files := snd (load_feeds fs) |}).
Proof.
  rewrite check_feeds_result. destruct (load_feeds fs) as [feeds fs'].
  destruct feeds; reflexivity.
Qed.

(** X21: for every configured feed that is fetched and every entry of it
    that the loop over the entries gets to (no entry before it lacks both id
    and link), an identifier that was not in the history of the feed occurs
    there exactly once after the cycle; identifiers already present are
    never removed; and this is what the cycle persists, whatever the sends
    return. *)
Theorem reached_identifier_recorded_once `{Runtime} cfg world bot fs tr :
  let sent := load_sent_items fs in
  let sent' := fst (fst (check_feeds cfg world bot fs tr)) in
  (forall feed_url feed pre entry post x,
     feed_url ∈ fst (load_feeds fs) ->
     feedparser_parse world feed_url = Some feed ->
     feed_entries feed = pre ++ entry :: post ->
     Forall (fun e => is_Some (entry_id_of e)) pre ->
     entry_id_of entry = Some x ->
     x ∉ ids_of sent feed_url ->
     occurrences x (ids_of sent' feed_url) = 1%nat) /\
  (forall feed_url l,
     sent !! feed_url = Some l -> exists d, sent' !! feed_url = Some (l ++ d)) /\
  (forall bot' tr',
     HISTORY_FILE (fst (poll_cycle cfg world bot' fs tr')) = Some sent').
Proof.
  intros sent sent'. subst sent'. rewrite check_feeds_sent.
  set (st0 := {| sent_items := load_sent_items fs; messages_by_feed := [];
                 files := snd (load_feeds fs) |}).
  pose proof (collect_grows cfg world (fst (load_feeds fs)) st0) as G.
  split; [|split].
  - intros feed_url feed pre entry post x Hin Hfeed Hentries Hpre Hid Hnew.
    destruct (G feed_url) as [F _].
    apply (fresh_ext_once _ _ _ F Hnew).
    apply (collect_records cfg world _ st0 feed_url feed x Hin).
    + exact (load_feeds_nonblank fs feed_url Hin).
    + exact Hfeed.
    + rewrite Hentries. exact (reached_ids_app pre entry post x Hpre Hid).
  - intros feed_url l E. exact (grows_keeps _ _ feed_url l G E).
  - intros bot' tr'. rewrite poll_cycle_files, check_feeds_sent. reflexivity.
Qed.

Lemma reached_identifier_recorded_once_witness :
  let world := sample_world [entry_a; entry_b] in
  occurrences (py "b")
    (ids_of (fst (fst (@check_feeds ascii_runtime default_config world
                         reliable_bot sample_files []))) sample_url) = 1%nat.
Proof.
  intros world.
  refine (proj1 (@reached_identifier_recorded_once ascii_runtime
                   default_config world reliable_bot sample_files [])
            sample_url
            {| feed_title_attr := Some (py "Feed");
               feed_entries := [entry_a; entry_b] |}
            [entry_a] entry_b [] (py "b") _ _ _ _ _ _).
  - vm_compute. constructor.
  - reflexivity.
  - reflexivity.
  - constructor; [eexists; reflexivity|constructor].
  - reflexivity.
  - vm_compute. intros Hx. inversion Hx.
Defined.

(** ** Errors inside the cycle *)

Section Isolation.
Context `{Runtime}.
Variable cfg : Config.
Variable world : World.

Lemma collect_app feeds1 feeds2 st :
  collect cfg world (feeds1 ++ feeds2) st
    = collect cfg world feeds2 (collect cfg world feeds1 st).
Proof. unfold collect. apply fold_left_app. Qed.

Lemma try_feed_fetch_error feed_url st :
  truthy (py_strip feed_url) = true ->
  feedparser_parse world feed_url = None ->
  try_feed cfg world feed_url st = (st, Raised).
Proof.
  intros Hurl Hfeed. unfold try_feed. rewrite Hurl, Hfeed. reflexivity.
Qed.

Lemma cycle_ends_with_collect bot fs tr :
  fst (load_feeds fs) <> [] ->
  cycle_ends_with cfg world bot fs tr
    (collect cfg world (fst (load_feeds fs))
       {| sent_items := load_sent_items fs; messages_by_feed := [];
          files := snd (load_feeds fs) |}).
Proof.
  intros Hne. split.
  - unfold check_feeds, dispatch. destruct (load_feeds fs) as [feeds fs'].
    destruct feeds as [|u feeds]; [contradiction|]. cbn [fst snd].
    unfold bind, ret.
    destruct (if TELEGRAM_GROUPED_MESSAGES cfg then _ else _). reflexivity.
  - rewrite poll_cycle_files, check_feeds_sent. reflexivity.
Qed.

End Isolation.

(** C6 as stated fails: a feed whose second item has neither id nor link
    raises inside the cycle, and its first entry is sent all the same. *)
Lemma C6_failing_feed_still_contributes :
  let world := sample_world [entry_a; entry_anonymous] in
  let st0 := {| sent_items := load_sent_items sample_files;
                messages_by_feed := [];
                files := snd (@load_feeds ascii_runtime sample_files) |} in
  ~ (snd (@try_feed ascii_runtime default_config world sample_url st0) = Raised ->
     outbound (emitted (@check_feeds ascii_runtime default_config world
                          reliable_bot sample_files) []) = []).
Proof.
  intros world st0 Hclaim.
  assert (E : snd (@try_feed ascii_runtime default_config world sample_url st0)
              = Raised) by (vm_compute; reflexivity).
  specialize (Hclaim E). vm_compute in Hclaim. discriminate Hclaim.
Qed.

(** ** A second cycle over unchanged feeds *)

Section Quiet.
Context `{Runtime}.
Variable cfg : Config.
Variable world : World.

Lemma quiet_entries feed_url feed_title entries st :
  (forall x, x ∈ reached_ids entries -> x ∈ ids_of (sent_items st) feed_url) ->
  fst (check_entries cfg world feed_url feed_title entries st) = st.
Proof.
  induction entries as [|entry rest IH]; intros Hseen; simpl in *; [reflexivity|].
  destruct (entry_id_of entry) as [x|]; [|reflexivity].
  assert (Hx : py_in x (ids_of (sent_items st) feed_url) = true).
  { apply py_in_spec, Hseen. apply elem_of_cons. left. reflexivity. }
  rewrite Hx. apply IH. intros y Hy. apply Hseen.
  apply elem_of_cons. right. exact Hy.
Qed.

Lemma all_empty_setdefault feed_title messages :
  all_empty messages -> all_empty (setdefault_list feed_title messages).
Proof.
  intros Hall. unfold setdefault_list.
  destruct (has_key feed_title messages); [exact Hall|].
  apply Forall_app. split; [exact Hall|].
  constructor; [reflexivity|constructor].
Qed.

Lemma quiet_feed feed_url st :
  settled world (sent_items st) feed_url ->
  all_empty (messages_by_feed st) ->
  all_empty (messages_by_feed (check_feed cfg world st feed_url)).
Proof.
  intros Hset Hall. unfold check_feed, try_feed.
  destruct (truthy (py_strip feed_url)) eqn:Hurl; [|exact Hall]. simpl negb.
  cbv iota.
  destruct (feedparser_parse world feed_url) as [feed|] eqn:Hfeed; [|exact Hall].
  destruct (feed_entries feed) as [|entry rest] eqn:En; [exact Hall|].
  rewrite quiet_entries.
  - simpl. apply all_empty_setdefault. exact Hall.
  - intros x Hx. simpl.
    destruct (grows_setdefault (sent_items st) feed_url feed_url) as [F _].
    apply (fresh_ext_elem _ _ _ F).
    apply (Hset feed x Hurl Hfeed). rewrite En. exact Hx.
Qed.

Lemma settled_grows sent sent' feed_url :
  grows sent sent' -> settled world sent feed_url -> settled world sent' feed_url.
Proof.
  intros G Hset feed x Hurl Hfeed Hx.
  destruct (G feed_url) as [F _].
  exact (fresh_ext_elem _ _ _ F (Hset feed x Hurl Hfeed Hx)).
Qed.

Lemma quiet_collect feeds : forall st,
  (forall feed_url, feed_url ∈ feeds -> settled world (sent_items st) feed_url) ->
  all_empty (messages_by_feed st) ->
  all_empty (messages_by_feed (collect cfg world feeds st)).
Proof.
  induction feeds as [|u feeds IH]; intros st Hset Hall; simpl; [exact Hall|].
  apply IH.
  - intros feed_url Hin.
    apply (settled_grows (sent_items st)); [apply try_feed_grows|].
    apply Hset. apply elem_of_cons. right. exact Hin.
  - apply quiet_feed; [|exact Hall].
    apply Hset. apply elem_of_cons. left. reflexivity.
Qed.

(** After the collecting loop, every configured feed is settled. *)
Lemma collect_settles feeds st feed_url :
  feed_url ∈ feeds ->
  settled world (sent_items (collect cfg world feeds st)) feed_url.
Proof.
  intros Hin feed x Hurl Hfeed Hx.
  exact (collect_records cfg world feeds st feed_url feed x Hin Hurl Hfeed Hx).
Qed.

Lemma grouped_all_empty bot messages tr :
  all_empty messages -> for_each messages (grouped_feed cfg bot) tr = (tt, tr).
Proof.
  induction 1 as [|[t es] ms He _ IH]; [reflexivity|].
  simpl in He. subst es. simpl. unfold bind. simpl. exact IH.
Qed.

Lemma single_all_empty bot messages tr :
  all_empty messages -> for_each messages (single_feed cfg bot) tr = (tt, tr).
Proof.
  induction 1 as [|[t es] ms He _ IH]; [reflexivity|].
  simpl in He. subst es. simpl. unfold bind. simpl. exact IH.
Qed.

(** Neither strategy sends anything when no feed title has an entry. *)
Lemma dispatch_all_empty bot messages tr :
  all_empty messages -> snd (dispatch cfg bot messages tr) = tr.
Proof.
  intros Hall. unfold dispatch, send_grouped_messages, send_single_messages.
  pose proof (grouped_all_empty bot messages tr Hall) as Hg.
  pose proof (single_all_empty bot messages tr Hall) as Hs.
  destruct (TELEGRAM_GROUPED_MESSAGES cfg), messages; try reflexivity;
    unfold bind; [rewrite Hg|rewrite Hs]; reflexivity.
Qed.

(** The collecting loop leaves the feed list alone. *)
Lemma get_anime_image_feeds_file title fs :
  FEEDS_FILE (snd (get_anime_image_from_anilist world title fs)) = FEEDS_FILE fs.
Proof.
  unfold get_anime_image_from_anilist.
  destruct (load_image_cache fs !! clean_title title); [reflexivity|].
  destruct (anilist_media world (clean_title title)) as [[|image_url ?]|];
    reflexivity.
Qed.

Lemma check_entries_feeds_file feed_url feed_title entries : forall st,
  FEEDS_FILE (files (fst (check_entries cfg world feed_url feed_title entries st)))
    = FEEDS_FILE (files st).
Proof.
  induction entries as [|entry rest IH]; intros st; simpl; [reflexivity|].
  destruct (entry_id_of entry) as [x|]; [|reflexivity].
  destruct (py_in x (ids_of (sent_items st) feed_url)); [apply IH|].
  unfold new_item.
  pose proof (get_anime_image_feeds_file
                (default (py "No title") (attr_title entry)) (files st)) as E.
  destruct (get_anime_image_from_anilist world _ (files st)) as [image fs'].
  rewrite IH. exact E.
Qed.

Lemma collect_feeds_file feeds : forall st,
  FEEDS_FILE (files (collect cfg world feeds st)) = FEEDS_FILE (files st).
Proof.
  induction feeds as [|u feeds IH]; intros st; simpl; [reflexivity|].
  rewrite IH. unfold check_feed, try_feed.
  destruct (negb (truthy (py_strip u))); [reflexivity|].
  destruct (feedparser_parse world u) as [feed|]; [|reflexivity].
  destruct (feed_entries feed) as [|entry rest]; [reflexivity|].
  rewrite check_entries_feeds_file. reflexivity.
Qed.

(** Reading the feed list again gives the same feeds. *)
Lemma load_feeds_again fs fs2 :
  FEEDS_FILE fs2 = FEEDS_FILE (snd (load_feeds fs)) ->
  fst (load_feeds fs2) = fst (load_feeds fs).
Proof.
  unfold load_feeds. intros E.
  destruct (FEEDS_FILE fs) as [lines|] eqn:Ef; cbn [snd FEEDS_FILE] in E.
  - rewrite E, Ef. reflexivity.
  - rewrite E. vm_compute. reflexivity.
Qed.

End Quiet.

Lemma check_feeds_no_feeds `{Runtime} cfg world bot fs tr :
  fst (load_feeds fs) = [] -> snd (check_feeds cfg world bot fs tr) = tr.
Proof.
  unfold check_feeds. destruct (load_feeds fs) as [feeds fs']. simpl.
  intros ->. reflexivity.
Qed.

(** The files a cycle leaves: the feed list as [load_feeds] left it, the
    identifiers of the cycle as history. *)
Lemma poll_cycle_leaves `{Runtime} cfg world bot fs tr :
  FEEDS_FILE (fst (poll_cycle cfg world bot fs tr))
    = FEEDS_FILE (snd (load_feeds fs)) /\
  load_sent_items (fst (poll_cycle cfg world bot fs tr))
    = sent_items (collect cfg world (fst (load_feeds fs))
                    {| sent_items := load_sent_items fs;
                       messages_by_feed := [];
                       files := snd (load_feeds fs) |}).
Proof.
  rewrite poll_cycle_files. split.
  - rewrite check_feeds_result. destruct (load_feeds fs) as [feeds fs'].
    destruct feeds as [|u feeds]; [reflexivity|].
    cbn [fst snd save_sent_items FEEDS_FILE].
    rewrite collect_feeds_file. reflexivity.
  - unfold load_sent_items at 1. cbn [save_sent_items HISTORY_FILE].
    apply check_feeds_sent.
Qed.

(** C5: a second cycle, run on the files the first cycle left and against
    the same feeds, sends nothing in either strategy: every entry it gets to
    is filtered as already seen, and all it adds to the trace is the sleep
    until the next check. *)
Theorem C5_second_cycle_sends_nothing `{Runtime} cfg world bot bot' fs tr tr' :
  let fs1 := fst (poll_cycle cfg world bot fs tr) in
  emitted (check_feeds cfg world bot' fs1) tr' = [] /\
  emitted (poll_cycle cfg world bot' fs1) tr' = [Sleep (CHECK_INTERVAL cfg)] /\
  outbound (emitted (poll_cycle cfg world bot' fs1) tr') = [].
Proof.
  intros fs1.
  destruct (poll_cycle_leaves cfg world bot fs tr) as [Hfeeds Hsent].
  fold fs1 in Hfeeds, Hsent.
  pose proof (load_feeds_again fs fs1 Hfeeds) as Hsame.
  assert (Hquiet : snd (check_feeds cfg world bot' fs1 tr') = tr').
  { destruct (fst (load_feeds fs1)) as [|u feeds] eqn:Hl.
    - apply check_feeds_no_feeds. exact Hl.
    - destruct (cycle_ends_with_collect cfg world bot' fs1 tr') as [-> _].
      { rewrite Hl. discriminate. }
      apply dispatch_all_empty. apply quiet_collect; [|constructor].
      intros feed_url Hin. cbn [sent_items].
      rewrite Hsent, <- Hsame. apply collect_settles.
      rewrite Hl in Hin. exact Hin. }
  assert (Hcheck : emitted (check_feeds cfg world bot' fs1) tr' = []).
  { apply emitted_extends. rewrite Hquiet, app_nil_r. reflexivity. }
  assert (Hpoll : emitted (poll_cycle cfg world bot' fs1) tr'
                  = [Sleep (CHECK_INTERVAL cfg)]).
  { apply emitted_extends. unfold poll_cycle, bind, asyncio_sleep, ret.
    destruct (check_feeds cfg world bot' fs1 tr') as [r tr2].
    simpl in Hquiet. subst tr2. reflexivity. }
  split; [exact Hcheck|]. split; [exact Hpoll|]. rewrite Hpoll. reflexivity.
Qed.

(** ** Title normalization *)

Section Matching.
Context `{Runtime}.

Lemma re_sub_skip_drop r a b :
  re_sub_skip r (length a) (a ++ b) = re_sub_skip r O b.
Proof. induction a as [|c a IH]; simpl; [reflexivity|exact IH]. Qed.

(** Where the pattern matches at no position of [base], [base] is copied. *)
Lemma re_delete_prefix r base suf :
  (forall i, (i < length base)%nat -> rmatch r (drop i (base ++ suf)) = None) ->
  re_delete r (base ++ suf) = base ++ re_delete r suf.
Proof.
  unfold re_delete. induction base as [|c base IH]; intros Hno; [reflexivity|].
  pose proof (Hno O ltac:(simpl; lia)) as H0. simpl in H0.
  simpl. rewrite H0. f_equal. apply IH.
  intros i Hi. exact (Hno (S i) ltac:(simpl; lia)).
Qed.

(** A match of the whole non-empty string deletes it. *)
Lemma re_delete_whole r suf :
  suf <> [] -> rmatch r suf = Some (length suf) -> re_delete r suf = [].
Proof.
  unfold re_delete. destruct suf as [|c s]; [contradiction|].
  intros _ Hm. simpl. simpl in Hm. rewrite Hm.
  rewrite <- (app_nil_r s) at 2. apply re_sub_skip_drop.
Qed.

Lemma star_greedy_run p k w rest n :
  Forall (fun c => p c = true) w ->
  star_greedy p k rest = Some n ->
  star_greedy p k (w ++ rest) = Some (length w + n)%nat.
Proof.
  intros Hw Hrest. induction Hw as [|c w Hc _ IH]; simpl; [exact Hrest|].
  rewrite Hc, IH. reflexivity.
Qed.

Lemma star_greedy_stop p k c s :
  p c = false -> star_greedy p k (c :: s) = k (c :: s).
Proof. intros Hc. simpl. rewrite Hc. reflexivity. Qed.

(** *** Characters of the ASCII range *)

Lemma ascii_digit_class d :
  48 <= d <= 57 -> isspace d = false /\ isdecimal d = true.
Proof.
  intros [Hlo Hhi]. unfold isspace, isdecimal, ascii_isspace, ascii_isdecimal.
  assert ((d <? 128) = true) as -> by (apply N.ltb_lt; lia).
  assert ((d <=? 13) = false) as -> by (apply N.leb_gt; lia).
  assert ((d <=? 32) = false) as -> by (apply N.leb_gt; lia).
  assert ((48 <=? d) = true) as -> by (apply N.leb_le; lia).
  assert ((d <=? 57) = true) as -> by (apply N.leb_le; lia).
  rewrite !andb_false_r. split; reflexivity.
Qed.

(** *** Bracketed and parenthesized segments *)

Lemma delimited_match o c seg post :
  Forall (fun x => x <> c /\ x <> NL) seg ->
  rmatch [Cls Once (lit o); Cls LazyStar dot; Cls Once (lit c)]
    (o :: seg ++ c :: post) = Some (S (length seg + 1)).
Proof.
  intros Hseg. cbn [rmatch once]. unfold lit at 1. rewrite N.eqb_refl.
  assert (E : star_lazy dot (once (lit c) (fun _ => Some O)) (seg ++ c :: post)
              = Some (length seg + 1)%nat).
  { induction Hseg as [|x seg [Hxc Hxn] _ IH]; simpl.
    - unfold lit. rewrite N.eqb_refl. reflexivity.
    - unfold lit at 1. apply N.eqb_neq in Hxc as ->.
      unfold dot at 1. apply N.eqb_neq in Hxn as ->. simpl negb. cbv iota.
      rewrite IH. reflexivity. }
  cbn [rmatch]. rewrite E. reflexivity.
Qed.

Lemma delimited_miss o c x s :
  x <> o ->
  rmatch [Cls Once (lit o); Cls LazyStar dot; Cls Once (lit c)] (x :: s) = None.
Proof.
  intros Hx. cbn [rmatch once]. unfold lit at 1.
  apply N.eqb_neq in Hx as ->. reflexivity.
Qed.

(** The first segment from [o] to the nearest [c] on the same line is
    deleted; what precedes it holds no [o] and is kept. *)
Lemma re_delete_delimited o c pre seg post :
  Forall (fun x => x <> o) pre ->
  Forall (fun x => x <> c /\ x <> NL) seg ->
  let r := [Cls Once (lit o); Cls LazyStar dot; Cls Once (lit c)] in
  re_delete r (pre ++ [o] ++ seg ++ [c] ++ post) = pre ++ re_delete r post.
Proof.
  intros Hpre Hseg r. rewrite re_delete_prefix.
  - f_equal. unfold re_delete. cbn [app re_sub_skip].
    unfold r at 1. rewrite (delimited_match o c seg post Hseg).
    replace (seg ++ c :: post) with ((seg ++ [c]) ++ post)
      by (rewrite <- app_assoc; reflexivity).
    replace (length seg + 1)%nat with (length (seg ++ [c]))
      by (rewrite length_app; reflexivity).
    apply re_sub_skip_drop.
  - intros i Hi. rewrite drop_app_le by lia.
    destruct (drop i pre) as [|x rest] eqn:E.
    + apply (f_equal (@length N)) in E. rewrite length_drop in E.
      simpl in E. lia.
    + pose proof (Forall_drop _ i _ Hpre) as Hd. rewrite E in Hd.
      inversion Hd as [|? ? Hx _]; subst. simpl.
      apply delimited_miss. exact Hx.
Qed.

(** *** The trailing "Episode N" *)

(** The pattern with its literal word spelled out. *)
Lemma re_episode_atoms :
  re_episode
    = [Cls Star isspace;
       Cls Once (lit_i 69); Cls Once (lit_i 112); Cls Once (lit_i 105);
       Cls Once (lit_i 115); Cls Once (lit_i 111); Cls Once (lit_i 100);
       Cls Once (lit_i 101);
       Cls Star isspace; Cls Plus isdecimal; Dollar].
Proof. reflexivity. Qed.

End Matching.

Section Whitespace.
Context `{Runtime}.

Lemma split_from_word w : forall acc s,
  Forall (fun c => isspace c = false) w ->
  split_from acc (w ++ s) = split_from (acc ++ w) s.
Proof.
  induction w as [|c w IH]; intros acc s Hw; simpl.
  - rewrite app_nil_r. reflexivity.
  - inversion Hw as [|? ? Hc Hw']; subst. rewrite Hc.
    rewrite (IH _ _ Hw'), <- app_assoc. reflexivity.
Qed.

Lemma split_from_lead g s :
  Forall (fun c => isspace c = true) g ->
  split_from [] (g ++ s) = split_from [] s.
Proof.
  induction 1 as [|c g Hc _ IH]; simpl; [reflexivity|].
  rewrite Hc. exact IH.
Qed.

Lemma split_from_gap acc g s :
  acc <> [] -> g <> [] ->
  Forall (fun c => isspace c = true) g ->
  split_from acc (g ++ s) = acc :: split_from [] s.
Proof.
  intros Hacc Hg Hsp. destruct Hsp as [|c g Hc Hsp]; [contradiction|].
  simpl. rewrite Hc. destruct acc; [contradiction|].
  rewrite (split_from_lead g s Hsp). reflexivity.
Qed.

(** Words separated by whitespace runs: leading whitespace, words each
    followed by a non-empty run, and a last word that may be missing. *)
Lemma py_split_words lead (items : list (pystr * pystr)) last :
  Forall (fun c => isspace c = true) lead ->
  Forall (fun wg => wg.1 <> [] /\ Forall (fun c => isspace c = false) wg.1 /\
                    wg.2 <> [] /\ Forall (fun c => isspace c = true) wg.2) items ->
  Forall (fun c => isspace c = false) last ->
  py_split (lead ++ concat (map (fun wg => wg.1 ++ wg.2) items) ++ last)
    = map fst items ++ match last with [] => [] | _ => [last] end.
Proof.
  intros Hlead Hitems Hlast. unfold py_split.
  rewrite (split_from_lead lead _ Hlead).
  induction Hitems as [|[w g] items (Hw & Hwn & Hg & Hgs) _ IH]; simpl in *.
  - rewrite <- (app_nil_r last) at 1.
    rewrite (split_from_word last [] [] Hlast). simpl.
    destruct last; reflexivity.
  - rewrite <- !app_assoc.
    rewrite (split_from_word w [] _ Hwn). simpl.
    rewrite (split_from_gap w g _ Hw Hg Hgs), IH. reflexivity.
Qed.

End Whitespace.

(** * Beyond the claims *)

(** ** Loops and traces *)

(** A loop whose every turn only appends to the trace only appends to it,
    and any reading [phi] of traces that respects concatenation reads the
    loop turn by turn. *)
Lemma for_each_reading {A B} (phi : Trace -> list B) (f : A -> list B)
    (body : A -> M unit) (xs : list A) :
  phi [] = [] ->
  (forall a b, phi (a ++ b) = phi a ++ phi b) ->
  (forall x tr, exists evs, snd (body x tr) = tr ++ evs /\ phi evs = f x) ->
  forall tr, exists evs,
    snd (for_each xs body tr) = tr ++ evs /\ phi evs = concat (map f xs).
Proof.
  intros Hnil Happ Hbody. induction xs as [|x xs IH]; intros tr.
  - exists []. rewrite app_nil_r. split; [reflexivity|exact Hnil].
  - destruct (Hbody x tr) as (evs1 & E1 & F1).
    destruct (IH (tr ++ evs1)) as (evs2 & E2 & F2).
    exists (evs1 ++ evs2). split.
    + simpl. unfold bind. destruct (body x tr) as [[] tr1]. simpl in E1.
      subst tr1. rewrite E2, app_assoc. reflexivity.
    + rewrite Happ, F1, F2. reflexivity.
Qed.

Lemma sleeps_app (tr1 tr2 : Trace) : sleeps (tr1 ++ tr2) = sleeps tr1 ++ sleeps tr2.
Proof.
  induction tr1 as [|e tr1 IH]; simpl; [reflexivity|].
  destruct e; simpl; rewrite ?IH; reflexivity.
Qed.

(** ** More on the grouped strategy *)

Section GroupedMore.
Context `{Runtime}.
Variable cfg : Config.

(** The texts of one feed title, as a function of the entries alone. *)
Lemma grouped_feed_texts bot kv tr :
  exists evs,
    snd (grouped_feed cfg bot kv tr) = tr ++ evs /\
    texts evs
      = match kv.2 with
        | [] => []
        | _ => map (fun g => grouped_header kv.1 ++ blocks cfg g)
                 (fst (grouping cfg (grouped_header kv.1) kv.2 []) ++
                  [snd (grouping cfg (grouped_header kv.1) kv.2 [])])
        end.
Proof.
  destruct kv as [feed_title entries]. cbn [fst snd].
  destruct entries as [|e rest] eqn:En.
  - exists []. rewrite app_nil_r. split; reflexivity.
  - rewrite <- En.
    assert (Hne : entries <> []) by (rewrite En; discriminate).
    destruct (grouped_feed_trace cfg bot feed_title entries tr Hne)
      as (evs & E & F).
    exists (evs ++ [Sleep 1]). split; [exact E|].
    rewrite texts_app. simpl. rewrite app_nil_r.
    rewrite (texts_text_events cfg _ _ _ F), En. reflexivity.
Qed.

Lemma send_grouped_messages_texts bot messages tr :
  texts (emitted (send_grouped_messages cfg bot messages) tr)
    = concat (map (fun kv =>
        match kv.2 with
        | [] => []
        | _ => map (fun g => grouped_header kv.1 ++ blocks cfg g)
                 (fst (grouping cfg (grouped_header kv.1) kv.2 []) ++
                  [snd (grouping cfg (grouped_header kv.1) kv.2 [])])
        end) messages).
Proof.
  destruct (for_each_reading texts _ (grouped_feed cfg bot) messages
              eq_refl texts_app (grouped_feed_texts bot) tr) as (evs & E & F).
  unfold emitted. rewrite send_grouped_messages_trace, E, drop_app_length.
  exact F.
Qed.

(** X1: the text messages of the grouped strategy are a function of the
    configuration and of the entries: a send that fails changes nothing to
    what is sent next (no retry, no abort), and neither does the trace so
    far. *)
Theorem grouped_texts_ignore_outcomes bot bot' messages tr tr' :
  texts (emitted (send_grouped_messages cfg bot messages) tr)
    = texts (emitted (send_grouped_messages cfg bot' messages) tr').
Proof. rewrite !send_grouped_messages_texts. reflexivity. Qed.

(** X2: where, for every feed title, each block fits beside the header, no
    text message of the grouped strategy exceeds the limit. *)
Theorem grouped_messages_bounded bot messages tr :
  Forall (fun kv =>
            Forall (fun e => len (grouped_header kv.1) +
                             len (grouped_entry_text cfg e)
                             <= MAX_MESSAGE_LENGTH) kv.2) messages ->
  Forall (fun m => len m <= MAX_MESSAGE_LENGTH)
    (texts (emitted (send_grouped_messages cfg bot messages) tr)).
Proof.
  intros Hall. rewrite send_grouped_messages_texts.
  induction Hall as [|[feed_title entries] messages Hkv _ IH]; simpl;
    [constructor|].
  apply Forall_app. split; [|exact IH]. cbn [fst snd] in *.
  destruct entries as [|e rest] eqn:En; [constructor|]. rewrite <- En in *.
  apply Forall_map.
  apply (grouping_bounded cfg (grouped_header feed_title) entries []);
    [|exact Hkv].
  change (blocks cfg []) with (@nil N). rewrite len_nil.
  rewrite En in Hkv. inversion Hkv as [|? ? He _]; subst.
  pose proof (N.le_0_l (len (grouped_entry_text cfg e))).
  unfold MAX_MESSAGE_LENGTH in *. lia.
Qed.

Lemma grouping_packed header entries : forall g,
  exists p rest,
    fst (grouping cfg header entries g) ++ [snd (grouping cfg header entries g)]
      = (g ++ p) :: rest /\
    tightly_packed cfg header ((g ++ p) :: rest).
Proof.
  induction entries as [|e es IH]; intros g.
  - exists [], []. simpl. rewrite app_nil_r.
    split; [reflexivity|]. split; exact I.
  - cbn [grouping].
    destruct (MAX_MESSAGE_LENGTH <? _) eqn:Hover.
    + destruct (IH [e]) as (p & rest & E & T).
      destruct (grouping cfg header es [e]) as [gs gl]. cbn [fst snd] in *.
      exists [], (([e] ++ p) :: rest). rewrite app_nil_r.
      split; [rewrite <- E; reflexivity|].
      split; [apply N.ltb_lt; exact Hover|exact T].
    + destruct (IH (g ++ [e])) as (p & rest & E & T).
      exists (e :: p), rest.
      replace (g ++ e :: p) with ((g ++ [e]) ++ p)
        by (rewrite <- app_assoc; reflexivity).
      split; [exact E|exact T].
Qed.

Lemma grouping_nonempty header entries : forall g,
  g <> [] ->
  Forall (fun g' => g' <> [])
    (fst (grouping cfg header entries g) ++ [snd (grouping cfg header entries g)]).
Proof.
  induction entries as [|e es IH]; intros g Hg; cbn [grouping].
  - simpl. constructor; [exact Hg|constructor].
  - destruct (MAX_MESSAGE_LENGTH <? _).
    + specialize (IH [e] ltac:(discriminate)).
      destruct (grouping cfg header es [e]) as [gs gl]. cbn [fst snd] in *.
      constructor; [exact Hg|exact IH].
    + apply IH. destruct g; discriminate.
Qed.

(** X3: the grouped strategy fills its messages: the runs of entries behind
    the messages of a feed, put end to end, are its entries, and every run
    but the last is followed by a non-empty run whose first block would not
    have fitted after it. *)
Theorem grouped_feed_fills_messages bot feed_title entries tr :
  entries <> [] ->
  exists groups,
    texts (emitted (grouped_feed cfg bot (feed_title, entries)) tr)
      = map (fun g => grouped_header feed_title ++ blocks cfg g) groups /\
    concat groups = entries /\
    tightly_packed cfg (grouped_header feed_title) groups.
Proof.
  intros Hne.
  destruct (grouped_feed_emitted cfg bot feed_title entries tr Hne)
    as (evs & _ & _ & Ht & _).
  destruct (grouping_packed (grouped_header feed_title) entries [])
    as (p & rest & E & T).
  eexists. split; [exact Ht|]. split.
  - rewrite concat_app. simpl. rewrite app_nil_r.
    exact (grouping_concat cfg (grouped_header feed_title) entries []).
  - rewrite E. exact T.
Qed.

End GroupedMore.

Section Pacing.
Context `{Runtime}.
Variable cfg : Config.
Variable bot : Bot.

(** X4: Where every block of a feed fits beside the header, no message of the
    feed is the header alone, and there are no more messages than entries. *)
Theorem grouped_feed_no_bare_header feed_title entries tr :
  entries <> [] ->
  Forall (fun e => len (grouped_header feed_title) +
                   len (grouped_entry_text cfg e) <= MAX_MESSAGE_LENGTH) entries ->
  let sent := texts (emitted (grouped_feed cfg bot (feed_title, entries)) tr) in
  Forall (fun m => exists body,
            m = grouped_header feed_title ++ body /\ body <> []) sent /\
  (length sent <= length entries)%nat.
Proof.
  intros Hne Hfit sent. subst sent.
  destruct (grouped_feed_emitted cfg bot feed_title entries tr Hne)
    as (evs & _ & _ & -> & _).
  pose proof (grouping_concat cfg (grouped_header feed_title) entries []) as Hc.
  assert (Hgroups : Forall (fun g => g <> [])
            (fst (grouping cfg (grouped_header feed_title) entries []) ++
             [snd (grouping cfg (grouped_header feed_title) entries [])])).
  { destruct entries as [|e es]; [contradiction|].
    inversion Hfit as [|? ? He _]; subst. cbn [grouping].
    change (blocks cfg []) with (@nil N). rewrite len_nil, N.add_0_r.
    apply N.ltb_ge in He. rewrite He.
    apply grouping_nonempty. discriminate. }
  split.
  - apply Forall_map. eapply Forall_impl; [exact Hgroups|].
    intros g Hg. exists (blocks cfg g). split; [reflexivity|].
    intros Hb. apply Hg. exact (blocks_nil_inv cfg g Hb).
  - rewrite length_map.
    assert (Hlen : forall G : list (list Item),
              Forall (fun g => g <> []) G -> (length G <= length (concat G))%nat).
    { induction 1 as [|g G Hg _ IH]; simpl; [lia|].
      rewrite length_app. destruct g; [contradiction|]. simpl. lia. }
    specialize (Hlen _ Hgroups).
    rewrite concat_app in Hlen. simpl in Hlen. rewrite app_nil_r, Hc in Hlen.
    exact Hlen.
Qed.

Lemma grouped_feed_sleeps kv tr :
  exists evs,
    snd (grouped_feed cfg bot kv tr) = tr ++ evs /\
    sleeps evs = match kv.2 with [] => [] | _ => [1] end.
Proof.
  destruct kv as [feed_title entries]. cbn [fst snd].
  destruct entries as [|e rest] eqn:En.
  - exists []. rewrite app_nil_r. split; reflexivity.
  - rewrite <- En.
    assert (Hne : entries <> []) by (rewrite En; discriminate).
    destruct (grouped_feed_trace cfg bot feed_title entries tr Hne)
      as (evs & E & F).
    exists (evs ++ [Sleep 1]). split; [exact E|].
    rewrite sleeps_app. simpl.
    assert (Hs : sleeps evs = []).
    { clear E. induction F as [|ev g evs gs [ok ->] _ IH]; [reflexivity|].
      simpl. exact IH. }
    rewrite Hs. rewrite ?En. reflexivity.
Qed.

(** X5: The grouped strategy pauses once, for a second, after each feed title
    that has entries, whatever the number of its messages, and not at all
    for a feed title without entries. *)
Theorem grouped_pauses_once_per_feed messages tr :
  sleeps (emitted (send_grouped_messages cfg bot messages) tr)
    = concat (map (fun kv => match kv.2 with [] => [] | _ => [1] end) messages).
Proof.
  destruct (for_each_reading sleeps _ (grouped_feed cfg bot) messages
              eq_refl sleeps_app grouped_feed_sleeps tr) as (evs & E & F).
  unfold emitted. rewrite send_grouped_messages_trace, E, drop_app_length.
  exact F.
Qed.

(** What [single_entry] adds to the trace for an entry without an image. *)
Lemma single_entry_without_image feed_title entry tr :
  image_url entry = None \/ image_url entry = Some [] ->
  let message := fst (single_message cfg feed_title entry) in
  let reply_markup := snd (single_message cfg feed_title entry) in
  let text := send_message (TELEGRAM_CHAT_ID cfg) message
                (TELEGRAM_FORUM_ID cfg) reply_markup (DISABLE_NOTIFICATION cfg) in
  snd (single_entry cfg bot feed_title entry tr)
    = tr ++ [Invoke text (bot tr text); Sleep 1].
Proof.
  intros Himg message reply_markup text.
  unfold single_entry. subst message reply_markup text.
  destruct (single_message cfg feed_title entry) as [message reply_markup].
  unfold bind, send_telegram_message, call_bot, asyncio_sleep, ret.
  destruct Himg as [-> | ->]; cbn [fst snd]; rewrite <- app_assoc; reflexivity.
Qed.

(** One turn of the inner loop of the single strategy: one or two calls,
    then one pause. *)
Lemma single_entry_shape feed_title entry tr :
  exists evs,
    snd (single_entry cfg bot feed_title entry tr) = tr ++ evs /\
    sleeps evs = [1] /\
    (1 <= length (outbound evs) <= 2)%nat /\
    (length (outbound evs) = 2%nat ->
     exists c, In (Invoke c false) evs /\
               match c with send_photo _ _ _ _ _ _ => True | _ => False end).
Proof.
  destruct (image_url entry) as [[|c0 url]|] eqn:Himg.
  - eexists. split; [apply single_entry_without_image; auto|].
    split; [reflexivity|]. simpl. split; [lia|]. intros; lia.
  - pose proof (single_entry_with_image cfg bot feed_title entry (c0 :: url) tr
                  Himg ltac:(discriminate)) as E. cbv zeta in E.
    unfold emitted in E.
    assert (Hext : exists evs,
              snd (single_entry cfg bot feed_title entry tr) = tr ++ evs).
    { unfold single_entry.
      destruct (single_message cfg feed_title entry) as [message reply_markup].
      rewrite Himg.
      unfold bind, send_photo_message, send_telegram_message, call_bot,
        asyncio_sleep, ret. cbn [fst snd].
      destruct (bot tr _); cbn [negb]; rewrite <- !app_assoc; eexists;
        reflexivity. }
    destruct Hext as (evs & Hevs). rewrite Hevs, drop_app_length in E.
    exists evs. split; [exact Hevs|]. rewrite E.
    destruct (bot tr _) eqn:Hok; simpl.
    + split; [reflexivity|]. split; [lia|]. intros; lia.
    + split; [reflexivity|]. split; [lia|]. intros _.
      eexists. split; [left; reflexivity|exact I].
  - eexists. split; [apply single_entry_without_image; auto|].
    split; [reflexivity|]. simpl. split; [lia|]. intros; lia.
Qed.

End Pacing.

(** A loop whose turn for [x] adds between [lo x] and [hi x] of something
    countable adds between the sum of the [lo x] and the sum of the [hi x]. *)
Lemma for_each_count {A} (mu : Trace -> nat) (lo hi : A -> nat)
    (body : A -> M unit) (xs : list A) :
  mu [] = O ->
  (forall a b, mu (a ++ b) = (mu a + mu b)%nat) ->
  (forall x tr, exists evs,
     snd (body x tr) = tr ++ evs /\ (lo x <= mu evs <= hi x)%nat) ->
  forall tr, exists evs,
    snd (for_each xs body tr) = tr ++ evs /\
    (sum_list (map lo xs) <= mu evs <= sum_list (map hi xs))%nat.
Proof.
  intros Hnil Happ Hbody. induction xs as [|x xs IH]; intros tr.
  - exists []. rewrite app_nil_r, Hnil. split; [reflexivity|simpl; lia].
  - destruct (Hbody x tr) as (evs1 & E1 & F1).
    destruct (IH (tr ++ evs1)) as (evs2 & E2 & F2).
    exists (evs1 ++ evs2). split.
    + simpl. unfold bind. destruct (body x tr) as [[] tr1]. simpl in E1.
      subst tr1. rewrite E2, app_assoc. reflexivity.
    + rewrite Happ. simpl. lia.
Qed.

Lemma concat_const_one {A} (xs : list A) :
  concat (map (fun _ => [1]) xs) = repeat 1 (length xs).
Proof. induction xs as [|x xs IH]; simpl; [reflexivity|]. rewrite IH. reflexivity. Qed.

Lemma sum_list_const {A} (c : nat) (xs : list A) :
  sum_list (map (fun _ => c) xs) = (length xs * c)%nat.
Proof. induction xs as [|x xs IH]; simpl; [reflexivity|]. rewrite IH. reflexivity. Qed.

Section SingleMore.
Context `{Runtime}.
Variable cfg : Config.
Variable bot : Bot.

Lemma send_single_messages_trace messages tr :
  snd (send_single_messages cfg bot messages tr)
    = snd (for_each messages (single_feed cfg bot) tr).
Proof.
  unfold send_single_messages. destruct messages as [|kv messages]; [reflexivity|].
  unfold bind. destruct (for_each _ _ tr). reflexivity.
Qed.

Lemma single_feed_sleeps kv tr :
  exists evs,
    snd (single_feed cfg bot kv tr) = tr ++ evs /\
    sleeps evs = repeat 1 (length kv.2).
Proof.
  destruct kv as [feed_title entries]. unfold single_feed. cbn [snd].
  rewrite <- concat_const_one.
  apply (for_each_reading sleeps (fun _ => [1])); [reflexivity|apply sleeps_app|].
  intros entry tr0.
  destruct (single_entry_shape cfg bot feed_title entry tr0)
    as (evs & E & S & _).
  exists evs. split; assumption.
Qed.

Lemma single_feed_calls kv tr :
  exists evs,
    snd (single_feed cfg bot kv tr) = tr ++ evs /\
    (length kv.2 <= length (outbound evs) <= 2 * length kv.2)%nat.
Proof.
  destruct kv as [feed_title entries]. unfold single_feed. cbn [snd].
  destruct (for_each_count (fun evs => length (outbound evs))
              (fun _ => 1%nat) (fun _ => 2%nat)
              (single_entry cfg bot feed_title) entries eq_refl) with (tr := tr)
    as (evs & E & B).
  - intros a b. rewrite outbound_app, length_app. reflexivity.
  - intros entry tr0.
    destruct (single_entry_shape cfg bot feed_title entry tr0)
      as (evs & E & _ & B & _).
    exists evs. split; assumption.
  - exists evs. split; [exact E|]. rewrite !sum_list_const in B. lia.
Qed.

Lemma repeat_all_items (messages : list (pystr * list Item)) :
  concat (map (fun kv : pystr * list Item => repeat 1 (length kv.2)) messages)
    = repeat 1 (length (all_items messages)).
Proof.
  unfold all_items. induction messages as [|kv messages IH]; simpl; [reflexivity|].
  rewrite length_app, repeat_app, IH. reflexivity.
Qed.

Lemma sum_all_items (messages : list (pystr * list Item)) :
  sum_list (map (fun kv : pystr * list Item => length kv.2) messages)
    = length (all_items messages).
Proof.
  unfold all_items. induction messages as [|kv messages IH]; simpl; [reflexivity|].
  rewrite length_app, IH. reflexivity.
Qed.

Lemma single_messages_shape messages tr :
  let added := emitted (send_single_messages cfg bot messages) tr in
  sleeps added = repeat 1 (length (all_items messages)) /\
  (length (all_items messages) <= length (outbound added)
     <= 2 * length (all_items messages))%nat.
Proof.
  intros added. subst added. unfold emitted.
  rewrite send_single_messages_trace. split.
  - destruct (for_each_reading sleeps _ (single_feed cfg bot) messages
                eq_refl sleeps_app single_feed_sleeps tr) as (evs & E & F).
    rewrite E, drop_app_length, F. apply repeat_all_items.
  - destruct (for_each_count (fun evs => length (outbound evs))
                (fun kv : pystr * list Item => length kv.2)
                (fun kv : pystr * list Item => (2 * length kv.2)%nat)
                (single_feed cfg bot) messages eq_refl) with (tr := tr)
      as (evs & E & B).
    + intros a b. rewrite outbound_app, length_app. reflexivity.
    + exact single_feed_calls.
    + rewrite E, drop_app_length.
      rewrite sum_all_items in B.
      assert (Hdouble : sum_list (map (fun kv : pystr * list Item =>
                                         (2 * length kv.2)%nat) messages)
                        = (2 * length (all_items messages))%nat).
      { rewrite <- sum_all_items. clear.
        induction messages as [|kv messages IH]; simpl; [reflexivity|].
        simpl in IH. rewrite IH. lia. }
      rewrite Hdouble in B. exact B.
Qed.

(** X6: The single strategy pauses once, for a second, after every entry, and
    makes at least one and at most two calls to the bot for each. *)
Theorem single_one_pause_per_entry messages tr :
  let added := emitted (send_single_messages cfg bot messages) tr in
  sleeps added = repeat 1 (length (all_items messages)) /\
  (length (all_items messages) <= length (outbound added)
     <= 2 * length (all_items messages))%nat.
Proof. exact (single_messages_shape messages tr). Qed.

End SingleMore.

Section SingleOnce.
Context `{Runtime}.
Variable cfg : Config.
Variable bot : Bot.

Lemma single_entry_with_image_trace feed_title entry url tr :
  image_url entry = Some url -> url <> [] ->
  let message := fst (single_message cfg feed_title entry) in
  let reply_markup := snd (single_message cfg feed_title entry) in
  let photo := send_photo (TELEGRAM_CHAT_ID cfg) url message
                 (TELEGRAM_FORUM_ID cfg) reply_markup (DISABLE_NOTIFICATION cfg) in
  let text := send_message (TELEGRAM_CHAT_ID cfg) message
                (TELEGRAM_FORUM_ID cfg) reply_markup (DISABLE_NOTIFICATION cfg) in
  snd (single_entry cfg bot feed_title entry tr)
    = tr ++ if bot tr photo
            then [Invoke photo true; Sleep 1]
            else [Invoke photo false;
                  Invoke text (bot (tr ++ [Invoke photo false]) text); Sleep 1].
Proof.
  intros Himg Hurl message reply_markup photo text.
  unfold single_entry. subst message reply_markup photo text.
  destruct (single_message cfg feed_title entry) as [message reply_markup].
  rewrite Himg. destruct url as [|c url]; [contradiction|].
  unfold bind, send_photo_message, send_telegram_message, call_bot,
    asyncio_sleep, ret. cbn [fst snd].
  destruct (bot tr _) eqn:Hok; cbn [negb]; rewrite <- !app_assoc; reflexivity.
Qed.

(** X7: As long as no photo fails, the single strategy makes exactly one call
    per entry: the second call is the fallback and nothing else. *)
Theorem single_one_call_per_entry messages tr :
  (forall tr0 chat photo caption thread markup quiet,
     bot tr0 (send_photo chat photo caption thread markup quiet) = true) ->
  length (outbound (emitted (send_single_messages cfg bot messages) tr))
    = length (all_items messages).
Proof.
  intros Hphoto. unfold emitted. rewrite send_single_messages_trace.
  assert (Hentry : forall feed_title entry tr0, exists evs,
            snd (single_entry cfg bot feed_title entry tr0) = tr0 ++ evs /\
            (1 <= length (outbound evs) <= 1)%nat).
  { intros feed_title entry tr0.
    destruct (image_url entry) as [[|c0 url]|] eqn:Himg.
    - eexists. split; [apply single_entry_without_image; auto|]. simpl. lia.
    - eexists. split.
      + apply (single_entry_with_image_trace feed_title entry (c0 :: url) tr0
                 Himg). discriminate.
      + rewrite Hphoto. simpl. lia.
    - eexists. split; [apply single_entry_without_image; auto|]. simpl. lia. }
  destruct (for_each_count (fun evs => length (outbound evs))
              (fun kv : pystr * list Item => length kv.2)
              (fun kv : pystr * list Item => length kv.2)
              (single_feed cfg bot) messages eq_refl) with (tr := tr)
    as (evs & E & B).
  - intros a b. rewrite outbound_app, length_app. reflexivity.
  - intros [feed_title entries] tr0. unfold single_feed. cbn [snd].
    destruct (for_each_count (fun evs => length (outbound evs))
                (fun _ => 1%nat) (fun _ => 1%nat)
                (single_entry cfg bot feed_title) entries eq_refl)
      with (tr := tr0) as (evs & E & B).
    + intros a b. rewrite outbound_app, length_app. reflexivity.
    + intros entry tr1. apply Hentry.
    + exists evs. split; [exact E|]. rewrite !sum_list_const in B. lia.
  - rewrite E, drop_app_length. rewrite sum_all_items in B. lia.
Qed.

End SingleOnce.

(** ** The image cache *)

Section ImageCache.
Context `{Runtime}.

(** X8: Once the key of a title is in the cache, every title with the same key
    gets the cached answer, whatever the service would say, and the files
    are left as they are. *)
Theorem image_lookup_reused world world' title title' fs :
  clean_title title' = clean_title title ->
  let first := get_anime_image_from_anilist world title fs in
  is_Some (load_image_cache (snd first) !! clean_title title) ->
  get_anime_image_from_anilist world' title' (snd first) = first.
Proof.
  intros Hkey first Hcached. subst first.
  unfold get_anime_image_from_anilist in *. rewrite Hkey.
  destruct (load_image_cache fs !! clean_title title) as [v|] eqn:Hhit.
  - cbn [snd] in *. rewrite Hhit. reflexivity.
  - destruct (anilist_media world (clean_title title)) as [[|image_url more]|];
      cbn [snd] in *.
    + rewrite Hhit in Hcached. destruct Hcached as [? ?]. discriminate.
    + unfold load_image_cache at 1. cbn [save_image_cache IMAGE_CACHE_FILE].
      rewrite lookup_insert_eq. reflexivity.
    + rewrite Hhit in Hcached. destruct Hcached as [? ?]. discriminate.
Qed.

Lemma image_lookup_files world title fs :
  let after := snd (get_anime_image_from_anilist world title fs) in
  FEEDS_FILE after = FEEDS_FILE fs /\
  HISTORY_FILE after = HISTORY_FILE fs /\
  (forall key v, load_image_cache fs !! key = Some v ->
                 load_image_cache after !! key = Some v) /\
  (load_image_cache fs !! clean_title title = None ->
   (anilist_media world (clean_title title) = None \/
    anilist_media world (clean_title title) = Some []) ->
   get_anime_image_from_anilist world title fs = (None, fs)).
Proof.
  intros after. subst after. unfold get_anime_image_from_anilist.
  destruct (load_image_cache fs !! clean_title title) as [v|] eqn:Hhit.
  - cbn [snd]. repeat split; try reflexivity; auto. discriminate.
  - destruct (anilist_media world (clean_title title)) as [[|image_url more]|]
      eqn:Hsvc; cbn [snd].
    + repeat split; auto.
    + split; [reflexivity|]. split; [reflexivity|]. split.
      * intros key v Hkv. unfold load_image_cache at 1.
        cbn [save_image_cache IMAGE_CACHE_FILE].
        rewrite lookup_insert_ne; [exact Hkv|]. intros <-. congruence.
      * intros _ [Hn|Hn]; discriminate Hn.
    + repeat split; auto.
Qed.

(** X9: A lookup writes nothing but the cache file, and there it only adds: an
    entry of the cache is never overwritten or dropped.  When the service
    fails or finds nothing, nothing is written at all and the answer is "no
    image". *)
Theorem image_lookup_only_adds world title fs :
  let after := snd (get_anime_image_from_anilist world title fs) in
  FEEDS_FILE after = FEEDS_FILE fs /\
  HISTORY_FILE after = HISTORY_FILE fs /\
  (forall key v, load_image_cache fs !! key = Some v ->
                 load_image_cache after !! key = Some v) /\
  (load_image_cache fs !! clean_title title = None ->
   (anilist_media world (clean_title title) = None \/
    anilist_media world (clean_title title) = Some []) ->
   get_anime_image_from_anilist world title fs = (None, fs)).
Proof. exact (image_lookup_files world title fs). Qed.

End ImageCache.

(** ** The feed list *)

Section FeedList.
Context `{Runtime}.

(** X11: The feeds read from the file are exactly the stripped lines that are not
    blank and do not start with '#' once stripped; stripping a feed again
    changes nothing; reading does not touch the files. *)
Theorem load_feeds_keeps_feed_lines fs lines :
  FEEDS_FILE fs = Some lines ->
  (forall u, u ∈ fst (load_feeds fs) <->
             exists line, line ∈ lines /\ u = py_strip line /\
                          u <> [] /\ starts_with_hash u = false) /\
  (forall u, u ∈ fst (load_feeds fs) -> py_strip u = u) /\
  snd (load_feeds fs) = fs.
Proof.
  intros Hfile. unfold load_feeds. rewrite Hfile. cbn [fst snd].
  assert (Hiff : forall u,
            u ∈ omap (fun line =>
                   if truthy (py_strip line) &&
                      negb (starts_with_hash (py_strip line))
                   then Some (py_strip line) else None) lines <->
            exists line, line ∈ lines /\ u = py_strip line /\
                         u <> [] /\ starts_with_hash u = false).
  { intros u. rewrite list_elem_of_omap. split.
    - intros (line & Hin & Hline).
      destruct (truthy (py_strip line)) eqn:Ht; [|discriminate].
      destruct (starts_with_hash (py_strip line)) eqn:Hh; [discriminate|].
      simpl in Hline. injection Hline as <-.
      exists line. repeat split; try assumption.
      intros E. rewrite E in Ht. discriminate.
    - intros (line & Hin & -> & Hne & Hh). exists line. split; [exact Hin|].
      rewrite Hh. destruct (py_strip line); [contradiction|reflexivity]. }
  split; [exact Hiff|]. split; [|reflexivity].
  intros u Hu. apply Hiff in Hu as (line & _ & -> & _).
  apply py_strip_idem.
Qed.

(** X12: A feed file that holds only blank lines and comment lines gives no
    feeds: the cycle fetches nothing, sends nothing and leaves the files as
    they are, whatever the feeds, the image service and the bot would do;
    the loop then writes the history back as it was loaded (an empty one
    where the history file was missing or unreadable) and sleeps. *)
Theorem cycle_without_feeds_only_persists cfg world bot fs tr lines :
  FEEDS_FILE fs = Some lines ->
  Forall (fun line => py_strip line = [] \/
                      starts_with_hash (py_strip line) = true) lines ->
  check_feeds cfg world bot fs tr = ((load_sent_items fs, fs), tr) /\
  poll_cycle cfg world bot fs tr
    = (save_sent_items (load_sent_items fs) fs,
       tr ++ [Sleep (CHECK_INTERVAL cfg)]).
Proof.
  intros Hfile Hlines.
  assert (L : load_feeds fs = ([], fs)).
  { unfold load_feeds. rewrite Hfile. f_equal. clear Hfile.
    induction Hlines as [|line lines Hline _ IH]; [reflexivity|].
    cbn [omap list_omap]. destruct Hline as [E|E]; rewrite E.
    - exact IH.
    - rewrite andb_false_r. exact IH. }
  assert (C : check_feeds cfg world bot fs tr = ((load_sent_items fs, fs), tr))
    by (unfold check_feeds; rewrite L; reflexivity).
  split; [exact C|].
  unfold poll_cycle, bind. rewrite C. reflexivity.
Qed.

End FeedList.

(** ** Whitespace and markup *)

Section Normal.
Context `{Runtime}.

Lemma split_from_are_words s : forall acc,
  Forall (fun c => isspace c = false) acc ->
  Forall word (split_from acc s).
Proof.
  induction s as [|c s IH]; intros acc Hacc; simpl.
  - destruct acc; constructor; [|constructor]. split; [discriminate|exact Hacc].
  - destruct (isspace c) eqn:Hc.
    + destruct acc as [|a acc]; [apply IH; constructor|].
      constructor; [split; [discriminate|exact Hacc]|]. apply IH. constructor.
    + apply IH. apply Forall_app. split; [exact Hacc|].
      constructor; [exact Hc|constructor].
Qed.

Lemma py_split_join ws :
  Forall word ws -> py_split (py_join [SP] ws) = ws.
Proof.
  unfold py_split. induction 1 as [|w ws [Hw Hwn] Hws IH]; [reflexivity|].
  destruct ws as [|w' ws].
  - simpl. rewrite <- (app_nil_r w) at 1.
    rewrite (split_from_word w [] [] Hwn). simpl. destruct w; [contradiction|].
    reflexivity.
  - change (py_join [SP] (w :: w' :: ws))
      with (w ++ [SP] ++ py_join [SP] (w' :: ws)).
    rewrite (split_from_word w [] _ Hwn). simpl app at 1.
    rewrite (split_from_gap w [SP] _ Hw ltac:(discriminate)
               ltac:(constructor; [reflexivity|constructor])).
    rewrite IH. reflexivity.
Qed.

Lemma py_join_ends ws :
  Forall word ws ->
  (forall c s, py_join [SP] ws = c :: s -> isspace c = false) /\
  (forall b x, py_join [SP] ws = b ++ [x] -> isspace x = false).
Proof.
  induction 1 as [|w ws [Hw Hwn] Hws [_ IHlast]].
  - split; [intros c s E; discriminate E|].
    intros b x E. destruct b; discriminate E.
  - split.
    + intros c s E. destruct w as [|c0 w]; [contradiction|].
      inversion Hwn as [|? ? Hc0 _]; subst.
      destruct ws; simpl in E; injection E as <- _; exact Hc0.
    + intros b x E. destruct ws as [|w' ws].
      * simpl in E. rewrite E in Hwn. apply Forall_app in Hwn as [_ Hx].
        inversion Hx; subst. assumption.
      * change (py_join [SP] (w :: w' :: ws))
          with (w ++ [SP] ++ py_join [SP] (w' :: ws)) in E.
        destruct (py_join [SP] (w' :: ws)) as [|j0 j] eqn:Ej using rev_ind.
        { inversion Hws as [|? ? [Hw' _] _]; subst.
          destruct w' as [|? ?]; [contradiction|].
          destruct ws; simpl in Ej; discriminate Ej. }
        rewrite !app_assoc in E. apply app_inj_tail in E as [_ <-].
        apply (IHlast j j0). reflexivity.
Qed.

Lemma lstrip_head s :
  (forall c s', s = c :: s' -> isspace c = false) -> lstrip s = s.
Proof.
  intros Hhead. destruct s as [|c s]; [reflexivity|].
  simpl. rewrite (Hhead c s eq_refl). reflexivity.
Qed.

Lemma py_strip_ends s :
  (forall c s', s = c :: s' -> isspace c = false) ->
  (forall b x, s = b ++ [x] -> isspace x = false) ->
  py_strip s = s.
Proof.
  intros Hhead Hlast. unfold py_strip. rewrite (lstrip_head s Hhead).
  rewrite lstrip_head; [apply rev_involutive|].
  intros c s' E. apply (Hlast (rev s') c).
  rewrite <- (rev_involutive s), E. reflexivity.
Qed.

(** Collapsing whitespace gives a text in normal form: collapsing it again
    or stripping it changes nothing. *)
Lemma collapse_ws_normal s :
  collapse_ws (collapse_ws s) = collapse_ws s /\
  py_strip (collapse_ws s) = collapse_ws s.
Proof.
  assert (Hwords : Forall word (py_split s))
    by (apply split_from_are_words; constructor).
  unfold collapse_ws. split.
  - rewrite (py_split_join _ Hwords). reflexivity.
  - destruct (py_join_ends _ Hwords) as [Hhead Hlast].
    apply py_strip_ends; assumption.
Qed.

(** X13: What [strip_html] and [clean_title] return is in normal form: words
    separated by single spaces, no whitespace at either end; the final
    [.strip()] of [clean_title] has nothing left to strip. *)
Theorem outputs_are_whitespace_normal s :
  (collapse_ws (strip_html s) = strip_html s /\
   py_strip (strip_html s) = strip_html s) /\
  (collapse_ws (clean_title s) = clean_title s /\
   py_strip (clean_title s) = clean_title s) /\
  clean_title s
    = collapse_ws (re_delete re_episode (re_delete re_dash_number
        (re_delete re_parens (re_delete re_brackets s)))).
Proof.
  split; [exact (collapse_ws_normal _)|].
  assert (E : clean_title s
              = collapse_ws (re_delete re_episode (re_delete re_dash_number
                  (re_delete re_parens (re_delete re_brackets s))))).
  { unfold clean_title. exact (proj2 (collapse_ws_normal _)). }
  split; [|exact E]. rewrite E. exact (collapse_ws_normal _).
Qed.

End Normal.

Section Tags.
Context `{Runtime}.

Lemma tag_miss x s : x <> 60 -> rmatch re_tag (x :: s) = None.
Proof.
  intros Hx. unfold re_tag. cbn [rmatch once]. unfold lit at 1.
  apply N.eqb_neq in Hx as ->. reflexivity.
Qed.

Lemma tag_match c seg post :
  c <> 62 -> Forall (fun x => x <> 62) seg ->
  rmatch re_tag (60 :: c :: seg ++ 62 :: post) = Some (S (S (length seg + 1))).
Proof.
  intros Hc Hseg. unfold re_tag. cbn [rmatch once].
  change (lit 60 60) with true. cbv iota.
  unfold notlit at 1. apply N.eqb_neq in Hc as ->. simpl negb. cbv iota.
  rewrite (star_greedy_run (notlit 62) _ seg (62 :: post) 1).
  - reflexivity.
  - eapply Forall_impl; [exact Hseg|]. intros x Hx. unfold notlit.
    apply N.eqb_neq in Hx as ->. reflexivity.
  - rewrite star_greedy_stop by reflexivity. reflexivity.
Qed.

Lemma re_delete_tag_free pre s :
  Forall (fun x => x <> 60) pre ->
  re_delete re_tag (pre ++ s) = pre ++ re_delete re_tag s.
Proof.
  intros Hpre. apply re_delete_prefix. intros i Hi.
  rewrite drop_app_le by lia.
  destruct (drop i pre) as [|x rest] eqn:E.
  - apply (f_equal (@length N)) in E. rewrite length_drop in E. simpl in E. lia.
  - pose proof (Forall_drop _ i _ Hpre) as Hd. rewrite E in Hd.
    inversion Hd as [|? ? Hx _]; subst. simpl. apply tag_miss. exact Hx.
Qed.

(** X14: [strip_html] and tags: a text without '<' goes to the entity decoder as
    it is; a tag, from '<' over at least one character to the nearest '>',
    also across lines, is dropped without a trace; '<>' is no tag and is
    kept. *)
Theorem strip_html_drops_tags :
  (forall s, Forall (fun x => x <> 60) s ->
             strip_html s = collapse_ws (html_unescape s)) /\
  (forall pre c seg post,
     Forall (fun x => x <> 60) pre ->
     c <> 62 -> Forall (fun x => x <> 62) seg ->
     re_delete re_tag (pre ++ py "<" ++ c :: seg ++ py ">" ++ post)
       = pre ++ re_delete re_tag post /\
     strip_html (pre ++ py "<" ++ c :: seg ++ py ">" ++ post)
       = strip_html (pre ++ post)) /\
  (forall pre post,
     Forall (fun x => x <> 60) pre ->
     re_delete re_tag (pre ++ py "<>" ++ post)
       = pre ++ py "<>" ++ re_delete re_tag post).
Proof.
  split; [|split].
  - intros s Hs. unfold strip_html, collapse_ws.
    rewrite <- (app_nil_r s) at 1. rewrite (re_delete_tag_free s [] Hs).
    unfold re_delete at 1. simpl. rewrite app_nil_r. reflexivity.
  - intros pre c seg post Hpre Hc Hseg.
    assert (E : re_delete re_tag (pre ++ py "<" ++ c :: seg ++ py ">" ++ post)
                = pre ++ re_delete re_tag post).
    { rewrite (re_delete_tag_free pre _ Hpre). f_equal.
      change (py "<" ++ c :: seg ++ py ">" ++ post)
        with (60 :: c :: seg ++ 62 :: post).
      unfold re_delete. cbn [re_sub_skip].
      rewrite (tag_match c seg post Hc Hseg).
      change (re_sub_skip re_tag (length seg + 1) (seg ++ 62 :: post)
              = re_sub_skip re_tag 0 post).
      replace (seg ++ 62 :: post) with ((seg ++ [62]) ++ post)
        by (rewrite <- app_assoc; reflexivity).
      replace (length seg + 1)%nat with (length (seg ++ [62]))
        by (rewrite length_app; reflexivity).
      apply re_sub_skip_drop. }
    split; [exact E|]. unfold strip_html.
    rewrite E, (re_delete_tag_free pre post Hpre). reflexivity.
  - intros pre post Hpre. rewrite (re_delete_tag_free pre _ Hpre).
    reflexivity.
Qed.

End Tags.

(** ** Histories over one and many cycles *)

Lemma recorded_insert (sent : SentItems) url l :
  (recorded (<[url := l]> sent) + length (ids_of sent url))%nat
    = (recorded sent + length l)%nat.
Proof.
  unfold recorded, ids_of. destruct (sent !! url) as [l0|] eqn:E; simpl.
  - rewrite <- (insert_delete_eq sent).
    rewrite map_to_list_insert by apply lookup_delete_eq.
    rewrite <- (map_to_list_delete sent url l0 E). simpl. lia.
  - rewrite (map_to_list_insert sent url l E). simpl. lia.
Qed.

Lemma recorded_setdefault (sent : SentItems) url :
  recorded (setdefault_sent url sent) = recorded sent.
Proof.
  unfold setdefault_sent. destruct (sent !! url) eqn:E; [reflexivity|].
  pose proof (recorded_insert sent url []) as R.
  unfold ids_of in R. rewrite E in R. simpl in R. lia.
Qed.

Lemma ids_of_setdefault (sent : SentItems) url u :
  ids_of (setdefault_sent url sent) u = ids_of sent u.
Proof.
  unfold setdefault_sent, ids_of. destruct (sent !! url) eqn:E; [reflexivity|].
  destruct (decide (url = u)) as [<-|Hne].
  - rewrite lookup_insert_eq, E. reflexivity.
  - rewrite lookup_insert_ne by exact Hne. reflexivity.
Qed.

Lemma has_key_spec {V} k (d : list (pystr * V)) :
  has_key k d = true <-> k ∈ map fst d.
Proof.
  unfold has_key. rewrite existsb_exists. split.
  - intros ([k' v] & Hin & E). apply bool_decide_eq_true in E. simpl in E.
    subst k'. apply list_elem_of_In. apply in_map_iff.
    exists (k, v). split; [reflexivity|exact Hin].
  - intros Hin. apply list_elem_of_In, in_map_iff in Hin as ([k' v] & E & Hin).
    simpl in E. subst k'. exists (k, v). split; [exact Hin|].
    apply bool_decide_eq_true. reflexivity.
Qed.

Lemma append_at_keys {V} k (x : V) d : map fst (append_at k x d) = map fst d.
Proof.
  unfold append_at. induction d as [|[k' v] d IH]; simpl; [reflexivity|].
  rewrite IH. destruct (bool_decide (k' = k)); reflexivity.
Qed.

Lemma append_at_absent {V} k (x : V) d : k ∉ map fst d -> append_at k x d = d.
Proof.
  unfold append_at. induction d as [|[k' v] d IH]; simpl; intros Hk;
    [reflexivity|].
  apply not_elem_of_cons in Hk as [Hne Hk].
  rewrite bool_decide_eq_false_2 by congruence. rewrite (IH Hk). reflexivity.
Qed.

(** Appending under a key of a dictionary adds exactly one item. *)
Lemma append_at_one k (x : Item) d :
  NoDup (map fst d) -> k ∈ map fst d ->
  length (all_items (append_at k x d)) = S (length (all_items d)).
Proof.
  unfold all_items. induction d as [|[k' v] d IH]; simpl; intros Hnd Hk.
  - inversion Hk.
  - inversion Hnd as [|? ? Hk' Hnd']; subst.
    destruct (decide (k' = k)) as [->|Hne].
    + rewrite bool_decide_eq_true_2 by reflexivity. simpl.
      fold (append_at k x d). rewrite (append_at_absent k x d Hk').
      rewrite !length_app. simpl. lia.
    + rewrite bool_decide_eq_false_2 by exact Hne. simpl.
      apply elem_of_cons in Hk as [Hk|Hk]; [congruence|].
      rewrite !length_app. fold (append_at k x d).
      rewrite (IH Hnd' Hk). lia.
Qed.

Lemma setdefault_list_keys {V} k (d : list (pystr * list V)) :
  NoDup (map fst d) ->
  NoDup (map fst (setdefault_list k d)) /\ k ∈ map fst (setdefault_list k d) /\
  concat (map snd (setdefault_list k d)) = concat (map snd d).
Proof.
  intros Hnd. unfold setdefault_list. destruct (has_key k d) eqn:Hk.
  - split; [exact Hnd|]. split; [apply has_key_spec; exact Hk|reflexivity].
  - assert (Hnot : k ∉ map fst d).
    { intros Hin. apply has_key_spec in Hin. congruence. }
    rewrite !map_app, concat_app. simpl. rewrite app_nil_r.
    split; [|split; [|reflexivity]].
    + apply NoDup_app. split; [exact Hnd|]. split; [|apply NoDup_singleton].
      intros y Hy Hy'. apply list_elem_of_singleton in Hy'. subst y.
      contradiction.
    + apply elem_of_app. right. apply list_elem_of_singleton. reflexivity.
Qed.

Section Counting.
Context `{Runtime}.
Variable cfg : Config.
Variable world : World.

Lemma check_entries_counts feed_url feed_title entries : forall st,
  NoDup (map fst (messages_by_feed st)) ->
  feed_title ∈ map fst (messages_by_feed st) ->
  let st' := fst (check_entries cfg world feed_url feed_title entries st) in
  NoDup (map fst (messages_by_feed st')) /\
  (length (all_items (messages_by_feed st')) + recorded (sent_items st))%nat
    = (length (all_items (messages_by_feed st)) + recorded (sent_items st'))%nat.
Proof.
  induction entries as [|entry rest IH]; intros st Hnd Hkey; simpl.
  - split; [exact Hnd|reflexivity].
  - destruct (entry_id_of entry) as [x|]; [|split; [exact Hnd|reflexivity]].
    destruct (py_in x (ids_of (sent_items st) feed_url)); [exact (IH st Hnd Hkey)|].
    destruct (new_item cfg world entry (files st)) as [item fs'].
    match goal with |- context [check_entries _ _ _ _ rest ?st1] =>
      destruct (IH st1) as [Hnd' Hcount] end.
    + simpl. rewrite append_at_keys. exact Hnd.
    + simpl. rewrite append_at_keys. exact Hkey.
    + split; [exact Hnd'|]. simpl in Hcount.
      rewrite (append_at_one feed_title item _ Hnd Hkey) in Hcount.
      pose proof (recorded_insert (sent_items st) feed_url
                    (ids_of (sent_items st) feed_url ++ [x])) as R.
      rewrite length_app in R. simpl in R. lia.
Qed.

Lemma collect_counts feeds : forall st,
  NoDup (map fst (messages_by_feed st)) ->
  let st' := collect cfg world feeds st in
  NoDup (map fst (messages_by_feed st')) /\
  (length (all_items (messages_by_feed st')) + recorded (sent_items st))%nat
    = (length (all_items (messages_by_feed st)) + recorded (sent_items st'))%nat.
Proof.
  induction feeds as [|u feeds IH]; intros st Hnd; simpl.
  - split; [exact Hnd|reflexivity].
  - assert (Hstep :
      NoDup (map fst (messages_by_feed (check_feed cfg world st u))) /\
      (length (all_items (messages_by_feed (check_feed cfg world st u))) +
       recorded (sent_items st))%nat
        = (length (all_items (messages_by_feed st)) +
           recorded (sent_items (check_feed cfg world st u)))%nat).
    { unfold check_feed, try_feed.
      destruct (negb (truthy (py_strip u))); [split; [exact Hnd|reflexivity]|].
      destruct (feedparser_parse world u) as [feed|];
        [|split; [exact Hnd|reflexivity]].
      destruct (feed_entries feed) as [|entry rest] eqn:En;
        [split; [exact Hnd|reflexivity]|].
      destruct (setdefault_list_keys (default u (feed_title_attr feed))
                  (messages_by_feed st) Hnd) as (Hnd1 & Hkey1 & Hsame).
      match goal with |- context [check_entries _ _ _ ?t ?es ?st1] =>
        destruct (check_entries_counts u t es st1 Hnd1 Hkey1) as [Hnd' Hcount]
      end.
      split; [exact Hnd'|]. cbn [sent_items messages_by_feed] in Hcount.
      rewrite recorded_setdefault in Hcount.
      unfold all_items in Hcount at 2. rewrite Hsame in Hcount.
      exact Hcount. }
    destruct Hstep as [Hnd1 Hc1].
    destruct (IH _ Hnd1) as [Hnd2 Hc2]. split; [exact Hnd2|].
    simpl in Hc2. fold (check_feed cfg world st u) in Hc2. lia.
Qed.

End Counting.

Lemma fresh_ext_NoDup l l' : fresh_ext l l' -> NoDup l -> NoDup l'.
Proof.
  intros (d & -> & Nd & Hd) Nl. apply NoDup_app.
  split; [exact Nl|]. split; [|exact Nd].
  intros x Hx Hx'. exact (Hd x Hx' Hx).
Qed.

Section Cycles.
Context `{Runtime}.
Variable cfg : Config.

(** X15: The collecting loop queues one item for each identifier it records, no
    more and no less; the feed titles it queues under are distinct. *)
Theorem cycle_queues_one_item_per_new_identifier world fs :
  let st := collect cfg world (fst (load_feeds fs))
              {| sent_items := load_sent_items fs; messages_by_feed := [];
                 files := snd (load_feeds fs) |} in
  (length (all_items (messages_by_feed st)) + recorded (load_sent_items fs))%nat
    = recorded (sent_items st) /\
  NoDup (map fst (messages_by_feed st)).
Proof.
  intros st. subst st.
  destruct (collect_counts cfg world (fst (load_feeds fs))
              {| sent_items := load_sent_items fs; messages_by_feed := [];
                 files := snd (load_feeds fs) |} ltac:(constructor))
    as [Hnd Hcount].
  split; [|exact Hnd]. simpl in Hcount. exact Hcount.
Qed.

(** What a cycle adds to the trace is what the selected strategy sends for
    the collected messages, also when there is no feed at all. *)
Lemma check_feeds_trace world bot fs tr :
  snd (check_feeds cfg world bot fs tr)
    = snd (dispatch cfg bot
             (messages_by_feed
                (collect cfg world (fst (load_feeds fs))
                   {| sent_items := load_sent_items fs; messages_by_feed := [];
                      files := snd (load_feeds fs) |})) tr).
Proof.
  destruct (fst (load_feeds fs)) as [|u feeds] eqn:Hfeeds.
  - rewrite (check_feeds_no_feeds cfg world bot fs tr Hfeeds).
    unfold dispatch. simpl. destruct (TELEGRAM_GROUPED_MESSAGES cfg); reflexivity.
  - destruct (cycle_ends_with_collect cfg world bot fs tr) as [E _].
    { rewrite Hfeeds. discriminate. }
    rewrite E, Hfeeds. reflexivity.
Qed.

(** X16: In the single strategy a cycle pauses once for every identifier it
    records and calls the bot at least once and at most twice for it. *)
Theorem single_cycle_calls_per_new_identifier world bot fs tr :
  TELEGRAM_GROUPED_MESSAGES cfg = false ->
  let added := emitted (check_feeds cfg world bot fs) tr in
  let new := (recorded (fst (fst (check_feeds cfg world bot fs tr)))
              - recorded (load_sent_items fs))%nat in
  length (sleeps added) = new /\
  (new <= length (outbound added) <= 2 * new)%nat.
Proof.
  intros Hmode added new. subst added new. rewrite check_feeds_sent.
  unfold emitted. rewrite check_feeds_trace.
  destruct (collect_counts cfg world (fst (load_feeds fs))
              {| sent_items := load_sent_items fs; messages_by_feed := [];
                 files := snd (load_feeds fs) |} ltac:(constructor))
    as [_ Hcount].
  cbn [sent_items messages_by_feed all_items map concat length Nat.add]
    in Hcount.
  set (st := collect cfg world (fst (load_feeds fs)) _) in *.
  assert (Hnew : (recorded (sent_items st) - recorded (load_sent_items fs))%nat
                 = length (all_items (messages_by_feed st))) by lia.
  rewrite Hnew. unfold dispatch. rewrite Hmode.
  destruct (single_messages_shape cfg bot (messages_by_feed st) tr)
    as [Hs Hc].
  unfold emitted in Hs, Hc.
  split; [rewrite Hs; apply repeat_length|exact Hc].
Qed.

(** A cycle that finds every identifier it gets to already in the history
    sends nothing. *)
Lemma settled_check_feeds_quiet world bot fs tr :
  (forall u, u ∈ fst (load_feeds fs) -> settled world (load_sent_items fs) u) ->
  snd (check_feeds cfg world bot fs tr) = tr.
Proof.
  intros Hset. destruct (fst (load_feeds fs)) as [|u feeds] eqn:Hl.
  - apply check_feeds_no_feeds. exact Hl.
  - destruct (cycle_ends_with_collect cfg world bot fs tr) as [-> _].
    { rewrite Hl. discriminate. }
    apply dispatch_all_empty. apply quiet_collect; [|constructor].
    intros feed_url Hin. cbn [sent_items]. apply Hset.
    rewrite Hl in Hin. exact Hin.
Qed.

Lemma quiet_feed_ids world feed_url st url :
  settled world (sent_items st) feed_url ->
  ids_of (sent_items (check_feed cfg world st feed_url)) url
    = ids_of (sent_items st) url.
Proof.
  intros Hset. unfold check_feed, try_feed.
  destruct (truthy (py_strip feed_url)) eqn:Hurl; [|reflexivity]. simpl negb.
  cbv iota.
  destruct (feedparser_parse world feed_url) as [feed|] eqn:Hfeed; [|reflexivity].
  destruct (feed_entries feed) as [|entry rest] eqn:En; [reflexivity|].
  rewrite quiet_entries.
  - simpl. apply ids_of_setdefault.
  - intros x Hx. simpl. rewrite ids_of_setdefault.
    apply (Hset feed x Hurl Hfeed). rewrite En. exact Hx.
Qed.

Lemma quiet_collect_ids world feeds : forall st url,
  (forall u, u ∈ feeds -> settled world (sent_items st) u) ->
  ids_of (sent_items (collect cfg world feeds st)) url = ids_of (sent_items st) url.
Proof.
  induction feeds as [|u feeds IH]; intros st url Hset; simpl; [reflexivity|].
  assert (Hu : settled world (sent_items st) u)
    by (apply Hset; apply elem_of_cons; left; reflexivity).
  rewrite IH.
  - apply quiet_feed_ids. exact Hu.
  - intros u' Hin feed x Hurl Hfeed Hx.
    fold (check_feed cfg world st u). rewrite (quiet_feed_ids world u st u' Hu).
    exact (Hset u' ltac:(apply elem_of_cons; right; exact Hin) feed x
             Hurl Hfeed Hx).
Qed.

(** X17: A history that already holds every identifier the feeds offer (a
    restored history, or the one a cycle left) makes the cycle silent: it
    sends nothing and records nothing. *)
Theorem settled_cycle_is_silent world bot fs tr :
  (forall u, u ∈ fst (load_feeds fs) -> settled world (load_sent_items fs) u) ->
  emitted (check_feeds cfg world bot fs) tr = [] /\
  (forall url,
     ids_of (fst (fst (check_feeds cfg world bot fs tr))) url
       = ids_of (load_sent_items fs) url).
Proof.
  intros Hset. split.
  - apply emitted_extends.
    rewrite (settled_check_feeds_quiet world bot fs tr Hset), app_nil_r.
    reflexivity.
  - intros url. rewrite check_feeds_sent.
    apply quiet_collect_ids. exact Hset.
Qed.

Lemma poll_cycle_grows world bot fs tr :
  grows (load_sent_items fs)
    (load_sent_items (fst (poll_cycle cfg world bot fs tr))).
Proof.
  destruct (poll_cycle_leaves cfg world bot fs tr) as [_ ->].
  apply (collect_grows cfg world (fst (load_feeds fs))
           {| sent_items := load_sent_items fs; messages_by_feed := [];
              files := snd (load_feeds fs) |}).
Qed.

Lemma poll_cycles_step bot world later fs tr :
  poll_cycles cfg bot (world :: later) fs tr
    = poll_cycles cfg bot later (fst (poll_cycle cfg world bot fs tr))
        (snd (poll_cycle cfg world bot fs tr)).
Proof.
  simpl. unfold bind. destruct (poll_cycle cfg world bot fs tr). reflexivity.
Qed.

Lemma poll_cycles_grows bot worlds : forall fs tr,
  grows (load_sent_items fs)
    (load_sent_items (fst (poll_cycles cfg bot worlds fs tr))).
Proof.
  induction worlds as [|world later IH]; intros fs tr.
  - apply grows_refl.
  - rewrite poll_cycles_step.
    eapply grows_trans; [apply (poll_cycle_grows world bot fs tr)|apply IH].
Qed.

(** X18: Over any number of cycles, whatever the feeds and the bot do, the
    history only grows: no feed and no identifier is ever dropped from it,
    and a list of identifiers without repetition stays without repetition. *)
Theorem history_only_grows bot worlds fs tr :
  let before := load_sent_items fs in
  let after := load_sent_items (fst (poll_cycles cfg bot worlds fs tr)) in
  (forall url l, before !! url = Some l ->
                 exists d, after !! url = Some (l ++ d)) /\
  (forall url, NoDup (ids_of before url) -> NoDup (ids_of after url)).
Proof.
  intros before after. subst before after.
  pose proof (poll_cycles_grows bot worlds fs tr) as G. split.
  - intros url l E. exact (grows_keeps _ _ url l G E).
  - intros url Hnd. destruct (G url) as [F _].
    exact (fresh_ext_NoDup _ _ F Hnd).
Qed.

(** A cycle on the files another cycle left, against the same world, adds
    only its sleep to the trace. *)
Lemma cycle_after_cycle world bot bot' fs tr tr' :
  snd (poll_cycle cfg world bot' (fst (poll_cycle cfg world bot fs tr)) tr')
    = tr' ++ [Sleep (CHECK_INTERVAL cfg)].
Proof.
  set (fs1 := fst (poll_cycle cfg world bot fs tr)).
  destruct (poll_cycle_leaves cfg world bot fs tr) as [Hfeeds Hsent].
  fold fs1 in Hfeeds, Hsent.
  pose proof (load_feeds_again fs fs1 Hfeeds) as Hsame.
  assert (Hquiet : snd (check_feeds cfg world bot' fs1 tr') = tr').
  { apply settled_check_feeds_quiet. intros u Hin.
    rewrite Hsent. apply collect_settles. rewrite <- Hsame. exact Hin. }
  unfold poll_cycle, bind, asyncio_sleep, ret.
  destruct (check_feeds cfg world bot' fs1 tr') as [r tr2].
  simpl in Hquiet. subst tr2. reflexivity.
Qed.

Lemma steady_cycles world bot n : forall bot0 fs0 tr0 tr,
  snd (poll_cycles cfg bot (repeat world n)
         (fst (poll_cycle cfg world bot0 fs0 tr0)) tr)
    = tr ++ repeat (Sleep (CHECK_INTERVAL cfg)) n.
Proof.
  induction n as [|n IH]; intros bot0 fs0 tr0 tr.
  - simpl. rewrite app_nil_r. reflexivity.
  - cbn [repeat]. rewrite poll_cycles_step.
    rewrite (cycle_after_cycle world bot0 bot fs0 tr0 tr).
    rewrite IH, <- app_assoc. reflexivity.
Qed.

Lemma dispatch_extends bot messages tr :
  exists evs, snd (dispatch cfg bot messages tr) = tr ++ evs.
Proof.
  unfold dispatch. destruct (TELEGRAM_GROUPED_MESSAGES cfg).
  - rewrite send_grouped_messages_trace.
    destruct (for_each_reading texts _ (grouped_feed cfg bot) messages
                eq_refl texts_app (grouped_feed_texts cfg bot) tr)
      as (evs & E & _).
    exists evs. exact E.
  - rewrite send_single_messages_trace.
    destruct (for_each_reading sleeps _ (single_feed cfg bot) messages
                eq_refl sleeps_app (single_feed_sleeps cfg bot) tr)
      as (evs & E & _).
    exists evs. exact E.
Qed.

Lemma poll_cycle_extends world bot fs tr :
  exists evs, snd (poll_cycle cfg world bot fs tr) = tr ++ evs.
Proof.
  pose proof (check_feeds_trace world bot fs tr) as E.
  destruct (dispatch_extends bot
              (messages_by_feed
                 (collect cfg world (fst (load_feeds fs))
                    {| sent_items := load_sent_items fs; messages_by_feed := [];
                       files := snd (load_feeds fs) |})) tr) as (evs & E').
  rewrite E' in E. unfold poll_cycle, bind, asyncio_sleep, ret.
  destruct (check_feeds cfg world bot fs tr) as [r tr1]. simpl in E.
  subst tr1. exists (evs ++ [Sleep (CHECK_INTERVAL cfg)]).
  simpl. rewrite app_assoc. reflexivity.
Qed.

(** X19: While the world does not change, only the first turn of the loop sends
    anything: each later turn adds its sleep to the trace and nothing else. *)
Theorem steady_state_is_silent world bot n fs tr :
  emitted (poll_cycles cfg bot (repeat world (S n)) fs) tr
    = emitted (poll_cycle cfg world bot fs) tr ++
      repeat (Sleep (CHECK_INTERVAL cfg)) n.
Proof.
  destruct (poll_cycle_extends world bot fs tr) as (evs & E).
  unfold emitted. cbn [repeat]. rewrite poll_cycles_step, steady_cycles.
  rewrite E, <- app_assoc, !drop_app_length. reflexivity.
Qed.

End Cycles.

(** ** The main loop *)

Section Main.
Context `{Runtime}.
Variable cfg : Config.
Variable bot : Bot.

(** X20: [main_async] returns at once, having sent and written nothing, when
    the token or the chat identifier is missing; with both set and a thread
    identifier that does not parse as an integer it raises [ValueError],
    again before anything is sent or written.  Otherwise it enters the loop,
    announces itself once, and against an unchanged world everything else it
    sends is what its first check sends. *)
Theorem main_async_announces_once int_parses token world n fs tr :
  let started := send_message (TELEGRAM_CHAT_ID cfg) startup_text
                   (TELEGRAM_FORUM_ID cfg) None (DISABLE_NOTIFICATION cfg) in
  let run := main_async cfg bot int_parses token (repeat world (S n)) fs in
  (truthy token && truthy (TELEGRAM_CHAT_ID cfg) = false ->
   run tr = ((Returned, fs), tr)) /\
  (forall forum,
     truthy token && truthy (TELEGRAM_CHAT_ID cfg) = true ->
     TELEGRAM_FORUM_ID cfg = Some forum -> truthy forum = true ->
     int_parses forum = false ->
     run tr = ((ValueError, fs), tr)) /\
  (truthy token && truthy (TELEGRAM_CHAT_ID cfg) = true ->
   match TELEGRAM_FORUM_ID cfg with
   | Some forum => truthy forum = true -> int_parses forum = true
   | None => True
   end ->
   fst (fst (run tr)) = Looping /\
   outbound (emitted run tr)
     = Invoke started (bot tr started) ::
       outbound (emitted (poll_cycle cfg world bot fs)
                   (tr ++ [Invoke started (bot tr started)]))).
Proof.
  intros started run. subst run. unfold main_async.
  destruct (truthy token); cbn [negb andb orb].
  2: { split; [reflexivity|]. split; [intros; discriminate|discriminate]. }
  destruct (truthy (TELEGRAM_CHAT_ID cfg)); cbn [negb andb orb].
  2: { split; [reflexivity|]. split; [intros; discriminate|discriminate]. }
  split; [discriminate|]. split.
  - intros forum _ Hforum Hset Hint. rewrite Hforum, Hset, Hint. reflexivity.
  - intros _ Hvalid.
    assert (Hok : match TELEGRAM_FORUM_ID cfg with
                  | Some forum => if truthy forum then int_parses forum else true
                  | None => true
                  end = true).
    { destruct (TELEGRAM_FORUM_ID cfg) as [forum|]; [|reflexivity].
      destruct (truthy forum); [exact (Hvalid eq_refl)|reflexivity]. }
    rewrite Hok. cbn [negb].
    unfold emitted, bind, send_telegram_message, call_bot, ret. cbn [fst snd].
    fold started.
    set (tr1 := tr ++ [Invoke started (bot tr started)]).
    destruct (poll_cycle_extends cfg world bot fs tr1) as (evs & E).
    assert (Hall : snd (poll_cycles cfg bot (repeat world (S n)) fs tr1)
                   = tr1 ++ evs ++ repeat (Sleep (CHECK_INTERVAL cfg)) n).
    { cbn [repeat]. rewrite poll_cycles_step, steady_cycles, E, <- app_assoc.
      reflexivity. }
    destruct (poll_cycles cfg bot (repeat world (S n)) fs tr1) as [fs' tr2].
    cbn [fst snd] in Hall |- *. split; [reflexivity|]. subst tr2 tr1.
    rewrite E, drop_app_length. rewrite <- (app_assoc tr), drop_app_length.
    rewrite !outbound_app.
    assert (Hsleeps : outbound (repeat (Sleep (CHECK_INTERVAL cfg)) n) = []).
    { induction n as [|k IH]; [reflexivity|exact IH]. }
    rewrite Hsleeps, app_nil_r. reflexivity.
Qed.

End Main.

(** ** The properties above on sample inputs *)

Lemma grouped_messages_bounded_witness :
  Forall (fun m => len m <= MAX_MESSAGE_LENGTH)
    (texts (emitted (@send_grouped_messages ascii_runtime default_config
                       reliable_bot [(py "Feed", [short_item; short_item])]) [])).
Proof.
  apply (@grouped_messages_bounded ascii_runtime default_config reliable_bot
           [(py "Feed", [short_item; short_item])] []).
  constructor; [|constructor].
  repeat (constructor; [vm_compute; discriminate|]). constructor.
Defined.

Lemma grouped_feed_fills_messages_witness :
  exists groups,
    texts (emitted (@grouped_feed ascii_runtime default_config reliable_bot
                      (py "Feed", [long_item; short_item])) [])
      = map (fun g => grouped_header (py "Feed") ++
                      @blocks ascii_runtime default_config g) groups /\
    concat groups = [long_item; short_item] /\
    @tightly_packed ascii_runtime default_config (grouped_header (py "Feed")) groups.
Proof.
  apply (@grouped_feed_fills_messages ascii_runtime default_config reliable_bot
           (py "Feed") [long_item; short_item] []).
  discriminate.
Defined.

Lemma grouped_feed_no_bare_header_witness :
  let sent := texts (emitted (@grouped_feed ascii_runtime default_config
                                reliable_bot
                                (py "Feed", [short_item; short_item])) []) in
  Forall (fun m => exists body,
            m = grouped_header (py "Feed") ++ body /\ body <> []) sent /\
  (length sent <= length [short_item; short_item])%nat.
Proof.
  apply (@grouped_feed_no_bare_header ascii_runtime default_config reliable_bot
           (py "Feed") [short_item; short_item] []).
  - discriminate.
  - repeat (constructor; [vm_compute; discriminate|]). constructor.
Defined.

Lemma single_one_call_per_entry_witness :
  length (outbound (emitted (@send_single_messages ascii_runtime single_config
                               reliable_bot
                               [(py "Feed", [wordy_item; short_item])]) []))
    = length (all_items [(py "Feed", [wordy_item; short_item])]).
Proof.
  apply (@single_one_call_per_entry ascii_runtime single_config reliable_bot
           [(py "Feed", [wordy_item; short_item])] []).
  intros. reflexivity.
Defined.

Lemma image_lookup_reused_witness :
  let first := @get_anime_image_from_anilist ascii_runtime image_world
                 (py "Show - 01") sample_files in
  @get_anime_image_from_anilist ascii_runtime (sample_world [])
     (py "[Sub] Show (TV) - 02") (snd first) = first.
Proof.
  apply (@image_lookup_reused ascii_runtime image_world (sample_world [])
           (py "Show - 01") (py "[Sub] Show (TV) - 02") sample_files).
  - vm_compute. reflexivity.
  - vm_compute. eexists. reflexivity.
Defined.

Lemma load_feeds_keeps_feed_lines_witness :
  (forall u, u ∈ fst (@load_feeds ascii_runtime sample_files) <->
             exists line, line ∈ [sample_url ++ [NL]] /\
                          u = @py_strip ascii_runtime line /\
                          u <> [] /\ starts_with_hash u = false) /\
  (forall u, u ∈ fst (@load_feeds ascii_runtime sample_files) ->
             @py_strip ascii_runtime u = u) /\
  snd (@load_feeds ascii_runtime sample_files) = sample_files.
Proof.
  apply (@load_feeds_keeps_feed_lines ascii_runtime sample_files
           [sample_url ++ [NL]]).
  reflexivity.
Defined.

Lemma cycle_without_feeds_only_persists_witness :
  @check_feeds ascii_runtime default_config (sample_world [entry_a]) reliable_bot
    comment_files []
    = ((load_sent_items comment_files, comment_files), []) /\
  @poll_cycle ascii_runtime default_config (sample_world [entry_a]) reliable_bot
    comment_files []
    = (save_sent_items (load_sent_items comment_files) comment_files,
       [] ++ [Sleep (CHECK_INTERVAL default_config)]).
Proof.
  apply (@cycle_without_feeds_only_persists ascii_runtime default_config
           (sample_world [entry_a]) reliable_bot comment_files []
           [py "# Add your RSS feeds here, one per line" ++ [NL]; py "  " ++ [NL]]).
  - reflexivity.
  - constructor; [right; reflexivity|].
    constructor; [left; reflexivity|constructor].
Defined.

Lemma single_cycle_calls_per_new_identifier_witness :
  let world := sample_world [entry_a; entry_b] in
  let added := emitted (@check_feeds ascii_runtime single_config world
                          reliable_bot sample_files) [] in
  let new := (recorded (fst (fst (@check_feeds ascii_runtime single_config world
                                    reliable_bot sample_files [])))
              - recorded (load_sent_items sample_files))%nat in
  length (sleeps added) = new /\
  (new <= length (outbound added) <= 2 * new)%nat.
Proof.
  apply (@single_cycle_calls_per_new_identifier ascii_runtime single_config
           (sample_world [entry_a; entry_b]) reliable_bot sample_files []).
  reflexivity.
Defined.

Lemma settled_cycle_is_silent_witness :
  let world := sample_world [entry_a] in
  emitted (@check_feeds ascii_runtime default_config world reliable_bot
             seen_files) [] = [] /\
  (forall url,
     ids_of (fst (fst (@check_feeds ascii_runtime default_config world
                         reliable_bot seen_files []))) url
       = ids_of (load_sent_items seen_files) url).
Proof.
  apply (@settled_cycle_is_silent ascii_runtime default_config
           (sample_world [entry_a]) reliable_bot seen_files []).
  intros u Hin feed x Hurl Hfeed Hx.
  injection Hfeed as <-.
  assert (Hu : u = sample_url).
  { vm_compute in Hin. inversion Hin as [|? ? ? Hin']; subst;
      [reflexivity|inversion Hin']. }
  subst u.
  assert (Hxa : x = py "a").
  { simpl in Hx. apply list_elem_of_singleton in Hx. exact Hx. }
  subst x. vm_compute. constructor.
Defined.

(** ** The image cache over cycles *)

Section CacheOverCycles.
Context `{Runtime}.
Variable cfg : Config.

Lemma check_entries_cache world feed_url feed_title entries : forall st,
  cache_kept (files st)
    (files (fst (check_entries cfg world feed_url feed_title entries st))) /\
  HISTORY_FILE (files (fst (check_entries cfg world feed_url feed_title entries st)))
    = HISTORY_FILE (files st).
Proof.
  induction entries as [|entry rest IH]; intros st; simpl.
  - split; [intros key v E; exact E|reflexivity].
  - destruct (entry_id_of entry) as [x|];
      [|split; [intros key v E; exact E|reflexivity]].
    destruct (py_in x (ids_of (sent_items st) feed_url)); [apply IH|].
    unfold new_item.
    destruct (image_lookup_files world
                (default (py "No title") (attr_title entry)) (files st))
      as (_ & Hh & Hk & _). cbv zeta in Hh, Hk.
    destruct (get_anime_image_from_anilist world _ (files st)) as [image fs'].
    cbn [snd] in Hh, Hk.
    match goal with |- context [check_entries _ _ _ _ rest ?st1] =>
      destruct (IH st1) as [Hk' Hh'] end.
    cbn [files] in Hk', Hh'. split.
    + intros key v E. exact (Hk' key v (Hk key v E)).
    + rewrite Hh'. exact Hh.
Qed.

Lemma collect_cache world feeds : forall st,
  cache_kept (files st) (files (collect cfg world feeds st)) /\
  HISTORY_FILE (files (collect cfg world feeds st)) = HISTORY_FILE (files st).
Proof.
  induction feeds as [|u feeds IH]; intros st; simpl.
  - split; [intros key v E; exact E|reflexivity].
  - assert (Hstep : cache_kept (files st) (files (check_feed cfg world st u)) /\
                    HISTORY_FILE (files (check_feed cfg world st u))
                      = HISTORY_FILE (files st)).
    { unfold check_feed, try_feed.
      destruct (negb (truthy (py_strip u)));
        [split; [intros key v E; exact E|reflexivity]|].
      destruct (feedparser_parse world u) as [feed|];
        [|split; [intros key v E; exact E|reflexivity]].
      destruct (feed_entries feed) as [|entry rest];
        [split; [intros key v E; exact E|reflexivity]|].
      match goal with |- context [check_entries _ _ _ ?t ?es ?st1] =>
        exact (check_entries_cache world u t es st1) end. }
    destruct Hstep as [Hk1 Hh1].
    destruct (IH (check_feed cfg world st u)) as [Hk2 Hh2].
    fold (check_feed cfg world st u). split.
    + intros key v E. exact (Hk2 key v (Hk1 key v E)).
    + rewrite Hh2. exact Hh1.
Qed.

Lemma load_feeds_other_files fs :
  IMAGE_CACHE_FILE (snd (load_feeds fs)) = IMAGE_CACHE_FILE fs /\
  HISTORY_FILE (snd (load_feeds fs)) = HISTORY_FILE fs.
Proof.
  unfold load_feeds. destruct (FEEDS_FILE fs); split; reflexivity.
Qed.

Lemma check_feeds_files world bot fs tr :
  cache_kept fs (snd (fst (check_feeds cfg world bot fs tr))) /\
  HISTORY_FILE (snd (fst (check_feeds cfg world bot fs tr))) = HISTORY_FILE fs.
Proof.
  rewrite check_feeds_result.
  destruct (load_feeds_other_files fs) as [Hc Hh].
  destruct (load_feeds fs) as [feeds fs'] eqn:Hl. cbn [snd] in Hc, Hh.
  assert (Hkept : cache_kept fs fs').
  { intros key v E. unfold load_image_cache in *. rewrite Hc. exact E. }
  destruct feeds as [|u feeds]; cbn [snd].
  - split; [exact Hkept|exact Hh].
  - destruct (collect_cache world (u :: feeds)
                {| sent_items := load_sent_items fs; messages_by_feed := [];
                   files := fs' |}) as [Hk' Hh'].
    cbn [files] in Hk', Hh'. split.
    + intros key v E. exact (Hk' key v (Hkept key v E)).
    + rewrite Hh'. exact Hh.
Qed.

Lemma poll_cycle_cache world bot fs tr :
  cache_kept fs (fst (poll_cycle cfg world bot fs tr)).
Proof.
  rewrite poll_cycle_files.
  destruct (check_feeds_files world bot fs tr) as [Hk _].
  intros key v E. specialize (Hk key v E).
  unfold load_image_cache in *. exact Hk.
Qed.

(** X10: [check_feeds] does not write the history itself (its caller persists
    what it returns), and over any number of cycles, whatever the feeds and
    the image service do, an answer once cached is never overwritten or
    dropped. *)
Theorem image_cache_only_grows world bot worlds fs tr :
  HISTORY_FILE (snd (fst (check_feeds cfg world bot fs tr))) = HISTORY_FILE fs /\
  cache_kept fs (fst (poll_cycles cfg bot worlds fs tr)).
Proof.
  split; [exact (proj2 (check_feeds_files world bot fs tr))|].
  revert fs tr. induction worlds as [|w later IH]; intros fs tr.
  - intros key v E. exact E.
  - rewrite poll_cycles_step. intros key v E.
    apply IH. exact (poll_cycle_cache w bot fs tr key v E).
Qed.

End CacheOverCycles.

Lemma strip_html_drops_tags_witness :
  @strip_html ascii_runtime (py "New <b>episode</b> out")
    = @strip_html ascii_runtime (py "New episode</b> out").
Proof.
  refine (proj2 (proj1 (proj2 (@strip_html_drops_tags ascii_runtime))
                   (py "New ") 98 [] (py "episode</b> out") _ _ _)).
  - unfold py. simpl. repeat (constructor; [discriminate|]). constructor.
  - discriminate.
  - constructor.
Defined.

Lemma image_lookup_only_adds_witness :
  @get_anime_image_from_anilist ascii_runtime (sample_world [entry_a])
     (py "Show - 01") sample_files = (None, sample_files).
Proof.
  refine (proj2 (proj2 (proj2 (@image_lookup_only_adds ascii_runtime
                                  (sample_world [entry_a]) (py "Show - 01")
                                  sample_files))) _ _).
  - vm_compute. reflexivity.
  - left. reflexivity.
Defined.

Lemma history_only_grows_witness :
  exists d,
    load_sent_items
      (fst (@poll_cycles ascii_runtime default_config reliable_bot
              [sample_world [entry_a; entry_b]; sample_world [entry_b]]
              seen_files [])) !! sample_url
      = Some ([py "a"] ++ d).
Proof.
  refine (proj1 (@history_only_grows ascii_runtime default_config reliable_bot
                   [sample_world [entry_a; entry_b]; sample_world [entry_b]]
                   seen_files []) sample_url [py "a"] _).
  vm_compute. reflexivity.
Defined.

Lemma main_async_announces_once_witness :
  let started := send_message (TELEGRAM_CHAT_ID default_config) startup_text
                   (TELEGRAM_FORUM_ID default_config) None
                   (DISABLE_NOTIFICATION default_config) in
  let world := sample_world [entry_a] in
  @main_async ascii_runtime threaded_config reliable_bot ascii_int_parses
    (py "token") (repeat world 3) sample_files []
    = ((ValueError, sample_files), []) /\
  outbound (emitted (@main_async ascii_runtime default_config reliable_bot
                       ascii_int_parses (py "token") (repeat world 3)
                       sample_files) [])
    = Invoke started (reliable_bot [] started) ::
      outbound (emitted (@poll_cycle ascii_runtime default_config world
                           reliable_bot sample_files)
                  ([] ++ [Invoke started (reliable_bot [] started)])).
Proof.
  split.
  - refine (proj1 (proj2 (@main_async_announces_once ascii_runtime
                            threaded_config reliable_bot ascii_int_parses
                            (py "token") (sample_world [entry_a]) 2%nat
                            sample_files [])) (py "general") _ _ _ _);
      reflexivity.
  - refine (proj2 (proj2 (proj2 (@main_async_announces_once ascii_runtime
                                   default_config reliable_bot ascii_int_parses
                                   (py "token") (sample_world [entry_a]) 2%nat
                                   sample_files [])) _ _)).
    + reflexivity.
    + exact I.
Defined.

(** * Errors, fallback and normalization, end to end *)

(** ** An entry behind an item without identifier *)

(** The files the sample feed leaves once a cycle has created its key. *)
Lemma anonymous_feed_is_stuck n : forall tr,
  let world := sample_world [entry_anonymous; entry_a] in
  @poll_cycles ascii_runtime default_config reliable_bot (repeat world n)
    keyed_files tr
    = (keyed_files, tr ++ repeat (Sleep (CHECK_INTERVAL default_config)) n).
Proof.
  induction n as [|n IH]; intros tr world.
  - simpl. rewrite app_nil_r. reflexivity.
  - cbn [repeat]. rewrite poll_cycles_step.
    assert (E : @poll_cycle ascii_runtime default_config world reliable_bot
                  keyed_files tr
                = (keyed_files, tr ++ [Sleep (CHECK_INTERVAL default_config)]))
      by reflexivity.
    rewrite E. cbn [fst snd]. subst world. rewrite IH, <- app_assoc. reflexivity.
Qed.

(** C2: the entry "a" of a configured feed comes after an item that has
    neither a guid nor a link.  Its identifier is new, and the claim has it
    recorded once after one cycle; the code records it in no cycle and never
    sends the entry: reading [entry.link] of the item in front raises, and
    the handler of the feed skips what follows, cycle after cycle. *)
Theorem C2_entry_after_anonymous_never_recorded n :
  let world := sample_world [entry_anonymous; entry_a] in
  let run := @poll_cycles ascii_runtime default_config reliable_bot
               (repeat world (S n)) sample_files in
  (sample_url ∈ fst (@load_feeds ascii_runtime sample_files)) /\
  feedparser_parse world sample_url
    = Some {| feed_title_attr := Some (py "Feed");
              feed_entries := [entry_anonymous; entry_a] |} /\
  entry_id_of entry_a = Some (py "a") /\
  (py "a" ∉ ids_of (load_sent_items sample_files) sample_url) /\
  occurrences (py "a") (ids_of (load_sent_items (fst (run []))) sample_url) = O /\
  outbound (emitted run []) = [].
Proof.
  intros world run.
  split; [vm_compute; constructor|]. split; [reflexivity|].
  split; [reflexivity|]. split; [vm_compute; intros Hx; inversion Hx|].
  subst run. cbn [repeat]. unfold emitted. rewrite poll_cycles_step.
  assert (E : @poll_cycle ascii_runtime default_config world reliable_bot
                sample_files []
              = (keyed_files, [Sleep (CHECK_INTERVAL default_config)]))
    by (vm_compute; reflexivity).
  rewrite E. cbn [fst snd]. subst world. rewrite anonymous_feed_is_stuck.
  cbn [fst snd length drop]. split; [vm_compute; reflexivity|].
  rewrite drop_0, outbound_app. clear E.
  induction n as [|n IH]; [reflexivity|exact IH].
Qed.

(** ** Title normalization, in general *)

(** Concatenations, associated to the right. *)
Ltac norm_app :=
  repeat (progress cbn [app] || rewrite <- app_assoc || rewrite app_nil_r).

Section Shapes.
Context `{Runtime}.

Lemma star_greedy_sound p k s : forall n,
  star_greedy p k s = Some n ->
  exists u rest m, s = u ++ rest /\ Forall (fun c => p c = true) u /\
                   k rest = Some m /\ n = (length u + m)%nat.
Proof.
  induction s as [|c s IH]; intros n E; simpl in E.
  - exists [], [], n. repeat split; [constructor|exact E].
  - destruct (p c) eqn:Hc.
    + destruct (star_greedy p k s) as [n'|] eqn:Es.
      * injection E as <-.
        destruct (IH n' eq_refl) as (u & rest & m & -> & Hu & Hk & ->).
        exists (c :: u), rest, m.
        repeat split; [constructor; assumption|exact Hk].
      * exists [], (c :: s), n. repeat split; [constructor|exact E].
    + exists [], (c :: s), n. repeat split; [constructor|exact E].
Qed.

Lemma star_lazy_sound p k s : forall n,
  star_lazy p k s = Some n ->
  exists u rest m, s = u ++ rest /\ Forall (fun c => p c = true) u /\
                   k rest = Some m /\ n = (length u + m)%nat.
Proof.
  induction s as [|c s IH]; intros n E; simpl in E.
  - destruct (k []) as [m|] eqn:Ek; [|discriminate]. injection E as <-.
    exists [], [], m. repeat split; [constructor|exact Ek].
  - destruct (k (c :: s)) as [m|] eqn:Ek.
    + injection E as <-. exists [], (c :: s), m.
      repeat split; [constructor|exact Ek].
    + destruct (p c) eqn:Hc; [|discriminate].
      destruct (star_lazy p k s) as [n'|] eqn:Es; [|discriminate].
      injection E as <-.
      destruct (IH n' eq_refl) as (u & rest & m & -> & Hu & Hk & ->).
      exists (c :: u), rest, m.
      repeat split; [constructor; assumption|exact Hk].
Qed.

Lemma once_sound p k s n :
  once p k s = Some n ->
  exists c s' m, s = c :: s' /\ p c = true /\ k s' = Some m /\ n = S m.
Proof.
  destruct s as [|c s]; simpl; [discriminate|].
  destruct (p c) eqn:Hc; [|discriminate].
  destruct (k s) as [m|] eqn:Ek; [|discriminate].
  intros E. injection E as <-. exists c, s, m. repeat split; assumption.
Qed.

(** The matcher only reports matches: what [rmatch] consumes is a word of
    the pattern. *)
Lemma rmatch_sound r : forall s n,
  rmatch r s = Some n ->
  exists w rest, s = w ++ rest /\ length w = n /\ denotes r w rest.
Proof.
  induction r as [|a r IH]; intros s n E.
  - injection E as <-. exists [], s. repeat split.
  - destruct a as [[| | |] p|]; cbn [rmatch] in E.
    + apply once_sound in E as (c & s' & m & -> & Hc & Hk & ->).
      destruct (IH s' m Hk) as (w & rest & -> & <- & Hd).
      exists (c :: w), rest. repeat split. exists c, w. repeat split; assumption.
    + apply star_greedy_sound in E as (u & s' & m & -> & Hu & Hk & ->).
      destruct (IH s' m Hk) as (w & rest & -> & <- & Hd).
      exists (u ++ w), rest. rewrite <- app_assoc, length_app.
      repeat split. exists u, w. repeat split; assumption.
    + apply once_sound in E as (c & s' & m & -> & Hc & Hk & ->).
      apply star_greedy_sound in Hk as (u & s'' & m' & -> & Hu & Hk & ->).
      destruct (IH s'' m' Hk) as (w & rest & -> & <- & Hd).
      exists (c :: u ++ w), rest. cbn [app length].
      rewrite <- app_assoc, length_app.
      repeat split. exists c, u, w. repeat split; assumption.
    + apply star_lazy_sound in E as (u & s' & m & -> & Hu & Hk & ->).
      destruct (IH s' m Hk) as (w & rest & -> & <- & Hd).
      exists (u ++ w), rest. rewrite <- app_assoc, length_app.
      repeat split. exists u, w. repeat split; assumption.
    + destruct (at_dollar s) eqn:Hd; [|discriminate].
      destruct (IH s n E) as (w & rest & -> & <- & Hden).
      exists w, rest. repeat split; assumption.
Qed.


Lemma at_dollar_blank rest : at_dollar rest = true -> Forall blank_or_digit rest.
Proof.
  destruct rest as [|c [|c' rest]]; simpl; intros E; try discriminate.
  - constructor.
  - apply N.eqb_eq in E. subst c. constructor; [left; reflexivity|constructor].
Qed.

Lemma Forall_blank (u : pystr) :
  Forall (fun c => isspace c = true) u -> Forall blank_or_digit u.
Proof. intros Hu. eapply Forall_impl; [exact Hu|]. intros c Hc. left. exact Hc. Qed.

Lemma Forall_digit (u : pystr) :
  Forall (fun c => isdecimal c = true) u -> Forall blank_or_digit u.
Proof. intros Hu. eapply Forall_impl; [exact Hu|]. intros c Hc. right. exact Hc. Qed.

(** What [re_dash_number] matches: whitespace, the dash, then whitespace and
    digits to the end of the string. *)
Lemma dash_number_shape s n :
  rmatch re_dash_number s = Some n ->
  exists u r, s = u ++ 45 :: r /\ Forall (fun c => isspace c = true) u /\
              Exists (fun c => isdecimal c = true) r /\ Forall blank_or_digit r.
Proof.
  intros E. apply rmatch_sound in E as (w & rest & -> & _ & D).
  unfold re_dash_number in D. cbn [denotes] in D.
  destruct D as (u1 & w1 & -> & Hu1 & c & w2 & -> & Hc & u2 & w3 & -> & Hu2 &
                 d & u3 & w4 & -> & Hd & Hu3 & u4 & w5 & -> & Hu4 & Hend & ->).
  apply N.eqb_eq in Hc. subst c. cbn [app] in Hend.
  exists u1, (u2 ++ d :: u3 ++ u4 ++ rest). split; [|split; [exact Hu1|split]].
  - norm_app. reflexivity.
  - apply Exists_app. right. constructor. exact Hd.
  - apply Forall_app. split; [exact (Forall_blank _ Hu2)|].
    constructor; [right; exact Hd|].
    apply Forall_app. split; [exact (Forall_digit _ Hu3)|].
    apply Forall_app. split; [exact (Forall_blank _ Hu4)|].
    apply at_dollar_blank. exact Hend.
Qed.

(** What [re_episode] matches: whitespace, seven letters, then whitespace
    and digits to the end of the string. *)
Lemma episode_shape s n :
  rmatch re_episode s = Some n ->
  exists u l r, s = u ++ l ++ r /\ length l = 7%nat /\
                Forall (fun c => isspace c = true) u /\
                Exists (fun c => isdecimal c = true) r /\
                Forall blank_or_digit r.
Proof.
  intros E. apply rmatch_sound in E as (w & rest & -> & _ & D).
  rewrite re_episode_atoms in D. cbn [denotes] in D.
  destruct D as (u1 & w1 & -> & Hu1 &
                 c1 & ? & -> & _ & c2 & ? & -> & _ & c3 & ? & -> & _ &
                 c4 & ? & -> & _ & c5 & ? & -> & _ & c6 & ? & -> & _ &
                 c7 & ? & -> & _ &
                 u2 & w3 & -> & Hu2 & d & u3 & w4 & -> & Hd & Hu3 & Hend & ->).
  cbn [app] in Hend.
  exists u1, [c1; c2; c3; c4; c5; c6; c7], (u2 ++ d :: u3 ++ rest).
  split; [|split; [reflexivity|split; [exact Hu1|split]]].
  - norm_app. reflexivity.
  - apply Exists_app. right. constructor. exact Hd.
  - apply Forall_app. split; [exact (Forall_blank _ Hu2)|].
    constructor; [right; exact Hd|].
    apply Forall_app. split; [exact (Forall_digit _ Hu3)|].
    apply at_dollar_blank. exact Hend.
Qed.

(** A string cannot be read in both ways: whitespace [u], [l], then blanks
    and digits only; and a character [x] that is no whitespace followed,
    at least as far away as [l] is long, by one that is neither blank nor
    digit. *)
Lemma marks_clash (u l r a mid rest' : pystr) x y :
  u ++ l ++ r = a ++ x :: mid ++ y :: rest' ->
  Forall (fun c => isspace c = true) u ->
  Forall blank_or_digit r ->
  isspace x = false ->
  ~ blank_or_digit y ->
  (length l <= S (length mid))%nat ->
  False.
Proof.
  intros E Hu Hr Hx Hy Hlen.
  destruct (decide (length a < length u)%nat) as [Hlt|Hge].
  - assert (Ex : (u ++ l ++ r) !! length a = Some x)
      by (rewrite E; apply list_lookup_middle; reflexivity).
    rewrite lookup_app_l in Ex by exact Hlt.
    pose proof (Forall_lookup_1 _ _ _ _ Hu Ex) as Hsp. cbv beta in Hsp.
    congruence.
  - assert (Ey : (u ++ l ++ r) !! (length a + S (length mid))%nat = Some y).
    { rewrite E. rewrite lookup_app_r by lia.
      replace (length a + S (length mid) - length a)%nat
        with (S (length mid)) by lia.
      cbn [lookup list_lookup]. apply list_lookup_middle. reflexivity. }
    rewrite lookup_app_r in Ey by lia.
    rewrite lookup_app_r in Ey by lia.
    apply Hy. exact (Forall_lookup_1 _ _ _ _ Hr Ey).
Qed.

Lemma dash_not_blank_or_digit : ~ blank_or_digit 45.
Proof. intros [E|E]; discriminate E. Qed.

(** No trailing "- N" starts before a character that is no whitespace and
    has a dash somewhere behind it. *)
Lemma dash_number_miss a x mid rest' :
  isspace x = false ->
  rmatch re_dash_number (a ++ x :: mid ++ 45 :: rest') = None.
Proof.
  intros Hx. destruct (rmatch re_dash_number _) as [n|] eqn:E; [|reflexivity].
  exfalso. apply dash_number_shape in E as (u & r & E & Hu & _ & Hr).
  apply (marks_clash u [45] r a mid rest' x 45); try assumption.
  - symmetry. exact E.
  - exact dash_not_blank_or_digit.
  - simpl. lia.
Qed.

Lemma episode_miss a x mid y rest' :
  isspace x = false -> ~ blank_or_digit y -> (6 <= length mid)%nat ->
  rmatch re_episode (a ++ x :: mid ++ y :: rest') = None.
Proof.
  intros Hx Hy Hmid.
  destruct (rmatch re_episode _) as [n|] eqn:E; [|reflexivity].
  exfalso. apply episode_shape in E as (u & l & r & E & Hl & Hu & _ & Hr).
  apply (marks_clash u l r a mid rest' x y); try assumption.
  - symmetry. exact E.
  - lia.
Qed.

Lemma re_delete_none r s :
  (forall i, (i < length s)%nat -> rmatch r (drop i s) = None) ->
  re_delete r s = s.
Proof.
  intros Hno. rewrite <- (app_nil_r s) at 1. rewrite re_delete_prefix.
  - apply app_nil_r.
  - intros i Hi. rewrite app_nil_r. exact (Hno i Hi).
Qed.

(** A suffix of a non-empty string ends as the string does. *)
Lemma drop_snoc (b : pystr) x i :
  (i < length (b ++ [x]))%nat -> drop i (b ++ [x]) = drop i b ++ [x].
Proof.
  intros Hi. rewrite length_app in Hi. simpl in Hi.
  apply drop_app_le. lia.
Qed.

(** Both trailing patterns need a digit: they match nowhere in a string
    without one. *)
Lemma trailing_patterns_need_digit s :
  Forall (fun c => isdecimal c = false) s ->
  re_delete re_dash_number s = s /\ re_delete re_episode s = s.
Proof.
  intros Hs.
  assert (Hno : forall i (t : pystr),
            Exists (fun c => isdecimal c = true) t -> drop i s <> t).
  { intros i t Ht E. apply Exists_exists in Ht as (c & Hin & Hc).
    rewrite <- E in Hin.
    pose proof (Forall_drop _ i _ Hs) as Hd.
    rewrite Forall_forall in Hd. specialize (Hd c Hin). cbv beta in Hd.
    congruence. }
  split; apply re_delete_none; intros i _.
  - destruct (rmatch re_dash_number _) as [n|] eqn:E; [|reflexivity].
    exfalso. apply dash_number_shape in E as (u & r & E & _ & Hd & _).
    apply (Hno i _ (proj2 (Exists_app _ u (45 :: r))
                      (or_intror (Exists_cons_tl 45 Hd)))).
    exact E.
  - destruct (rmatch re_episode _) as [n|] eqn:E; [|reflexivity].
    exfalso. apply episode_shape in E as (u & l & r & E & _ & _ & Hd & _).
    apply (Hno i (u ++ l ++ r)); [|exact E].
    apply Exists_app. right. apply Exists_app. right. exact Hd.
Qed.

(** [re_episode] ends in digits: it matches nowhere in a string whose last
    character is neither whitespace nor a digit. *)
Lemma episode_nowhere s :
  (forall b x, s = b ++ [x] -> ~ blank_or_digit x) ->
  re_delete re_episode s = s.
Proof.
  intros Hlast. apply re_delete_none. intros i Hi.
  destruct s as [|x b _] using rev_ind; [simpl in Hi; lia|].
  rewrite drop_snoc by exact Hi.
  destruct (rmatch re_episode _) as [n|] eqn:E; [|reflexivity].
  exfalso. apply episode_shape in E as (u & l & r & E & _ & _ & Hne & Hr).
  destruct r as [|z r' _] using rev_ind; [inversion Hne|].
  rewrite !app_assoc in E. apply app_inj_tail in E as [_ <-].
  apply Forall_app in Hr as [_ Hz]. inversion Hz as [|? ? Hb _]; subst.
  exact (Hlast b x eq_refl Hb).
Qed.

Lemma dash_number_nowhere a c b :
  ~ blank_or_digit c -> c <> 45 -> Forall (fun x => x <> 45) b ->
  re_delete re_dash_number (a ++ c :: b) = a ++ c :: b.
Proof.
  intros Hc Hdash Hb. apply re_delete_none. intros i Hi.
  destruct (rmatch re_dash_number _) as [n|] eqn:E; [|reflexivity].
  exfalso. apply dash_number_shape in E as (u & r & E & Hu & _ & Hr).
  destruct (decide (i <= length a)%nat) as [Hle|Hgt].
  - rewrite drop_app_le in E by exact Hle.
    assert (Ec : (u ++ 45 :: r) !! length (drop i a) = Some c)
      by (rewrite <- E; apply list_lookup_middle; reflexivity).
    destruct (decide (length (drop i a) < length u)%nat) as [Hlt|Hge].
    + rewrite lookup_app_l in Ec by exact Hlt.
      apply Hc. left. exact (Forall_lookup_1 _ _ _ _ Hu Ec).
    + rewrite lookup_app_r in Ec by lia.
      destruct (length (drop i a) - length u)%nat as [|j] eqn:Ej.
      * injection Ec as Ec. congruence.
      * cbn [lookup list_lookup] in Ec.
        apply Hc. exact (Forall_lookup_1 _ _ _ _ Hr Ec).
  - rewrite drop_app_ge in E by lia.
    assert (Hd : Forall (fun x => x <> 45)
                   (drop (i - length a) (c :: b))).
    { apply Forall_drop. constructor; assumption. }
    rewrite E in Hd. apply Forall_app in Hd as [_ Hd].
    inversion Hd as [|? ? H45 _]; subst. contradiction.
Qed.

(** *** The suffixes the trailing patterns take *)

Lemma blanks_to_the_end (sp : pystr) :
  Forall (fun c => isspace c = true) sp ->
  star_greedy isdecimal
    (star_greedy isspace (fun s => if at_dollar s then Some O else None)) sp
    = Some (length sp).
Proof.
  intros Hsp.
  assert (Hk : star_greedy isspace
                 (fun s => if at_dollar s then Some O else None) sp
               = Some (length sp)).
  { rewrite <- (app_nil_r sp) at 1.
    rewrite (star_greedy_run isspace _ sp [] O Hsp eq_refl). f_equal. lia. }
  induction Hsp as [|c sp Hc Hsp IH].
  - reflexivity.
  - assert (Hk' : star_greedy isspace
                    (fun s => if at_dollar s then Some O else None) sp
                  = Some (length sp)).
    { rewrite <- (app_nil_r sp) at 1.
      rewrite (star_greedy_run isspace _ sp [] O Hsp eq_refl). f_equal. lia. }
    cbn [star_greedy]. rewrite (IH Hk').
    destruct (isdecimal c); [reflexivity|exact Hk].
Qed.

Lemma dash_number_suffix sp1 sp2 d ds sp3 :
  Forall (fun c => isspace c = true) sp1 ->
  Forall (fun c => isspace c = true) sp2 ->
  Forall (fun c => isspace c = true) sp3 ->
  48 <= d <= 57 ->
  Forall (fun x => 48 <= x <= 57) ds ->
  let suf := sp1 ++ [45] ++ sp2 ++ d :: ds ++ sp3 in
  rmatch re_dash_number suf = Some (length suf).
Proof.
  intros H1 H2 H3 Hd Hds suf. subst suf. unfold re_dash_number. cbn [rmatch].
  set (kD := fun s : pystr => if at_dollar s then Some O else None).
  set (k4 := star_greedy isspace kD).
  set (k3 := once isdecimal (star_greedy isdecimal k4)).
  set (k2 := star_greedy isspace k3).
  set (k1 := once (lit 45) k2).
  destruct (ascii_digit_class d Hd) as [Hsp Hdec].
  assert (E4 : star_greedy isdecimal k4 (ds ++ sp3)
               = Some (length ds + length sp3)%nat).
  { apply star_greedy_run; [|exact (blanks_to_the_end sp3 H3)].
    eapply Forall_impl; [exact Hds|].
    intros x Hx. exact (proj2 (ascii_digit_class x Hx)). }
  assert (E3 : k3 (d :: ds ++ sp3) = Some (S (length ds + length sp3))).
  { unfold k3, once. rewrite Hdec, E4. reflexivity. }
  assert (E2 : k2 (sp2 ++ d :: ds ++ sp3)
               = Some (length sp2 + S (length ds + length sp3))%nat).
  { unfold k2. apply star_greedy_run; [exact H2|].
    rewrite star_greedy_stop by exact Hsp. exact E3. }
  assert (E1 : k1 (45 :: sp2 ++ d :: ds ++ sp3)
               = Some (S (length sp2 + S (length ds + length sp3)))).
  { unfold k1, once. change (lit 45 45) with true. cbv iota.
    rewrite E2. reflexivity. }
  cbn [app].
  rewrite (star_greedy_run isspace k1 sp1 _ _ H1
             (eq_trans (star_greedy_stop isspace k1 45 _ eq_refl) E1)).
  f_equal. repeat first [progress cbn [length] | rewrite length_app]. lia.
Qed.

(** A trailing "- N", with the whitespace around the dash and after the
    number, goes with the whitespace before it, whatever the title before
    it holds. *)
Lemma re_delete_trailing_dash_number base sp1 sp2 d ds sp3 :
  (forall b x, base = b ++ [x] -> isspace x = false) ->
  Forall (fun c => isspace c = true) sp1 ->
  Forall (fun c => isspace c = true) sp2 ->
  Forall (fun c => isspace c = true) sp3 ->
  48 <= d <= 57 ->
  Forall (fun x => 48 <= x <= 57) ds ->
  re_delete re_dash_number (base ++ sp1 ++ [45] ++ sp2 ++ d :: ds ++ sp3) = base.
Proof.
  intros Hlast H1 H2 H3 Hd Hds. rewrite re_delete_prefix.
  - rewrite re_delete_whole; [apply app_nil_r| |].
    + destruct sp1; discriminate.
    + exact (dash_number_suffix sp1 sp2 d ds sp3 H1 H2 H3 Hd Hds).
  - intros i Hi. destruct base as [|x b _] using rev_ind; [simpl in Hi; lia|].
    rewrite drop_app_le by lia. rewrite drop_snoc by exact Hi.
    rewrite <- app_assoc. cbn [app].
    apply dash_number_miss. exact (Hlast b x eq_refl).
Qed.


(** *** The word "Episode" in any case *)

Lemma in_case_cons caps c w :
  exists c', (c' = c \/ c' = c - 32) /\
             in_case caps (c :: w) = c' :: in_case (tail caps) w.
Proof.
  destruct caps as [|[] caps]; simpl.
  - exists c. split; [left; reflexivity|]. destruct w; reflexivity.
  - exists (c - 32). split; [right; reflexivity|reflexivity].
  - exists c. split; [left; reflexivity|reflexivity].
Qed.

Lemma in_case_episode caps :
  exists c1 c2 c3 c4 c5 c6 c7,
    in_case caps (py "episode") = [c1; c2; c3; c4; c5; c6; c7] /\
    (c1 = 101 \/ c1 = 69) /\ (c2 = 112 \/ c2 = 80) /\ (c3 = 105 \/ c3 = 73) /\
    (c4 = 115 \/ c4 = 83) /\ (c5 = 111 \/ c5 = 79) /\ (c6 = 100 \/ c6 = 68) /\
    (c7 = 101 \/ c7 = 69).
Proof.
  change (py "episode") with [101; 112; 105; 115; 111; 100; 101].
  destruct (in_case_cons caps 101 [112; 105; 115; 111; 100; 101])
    as (c1 & H1 & ->).
  destruct (in_case_cons (tail caps) 112 [105; 115; 111; 100; 101])
    as (c2 & H2 & ->).
  destruct (in_case_cons (tail (tail caps)) 105 [115; 111; 100; 101])
    as (c3 & H3 & ->).
  destruct (in_case_cons (tail (tail (tail caps))) 115 [111; 100; 101])
    as (c4 & H4 & ->).
  destruct (in_case_cons (tail (tail (tail (tail caps)))) 111 [100; 101])
    as (c5 & H5 & ->).
  destruct (in_case_cons (tail (tail (tail (tail (tail caps))))) 100 [101])
    as (c6 & H6 & ->).
  destruct (in_case_cons (tail (tail (tail (tail (tail (tail caps)))))) 101 [])
    as (c7 & H7 & ->).
  exists c1, c2, c3, c4, c5, c6, c7.
  split; [f_equal; f_equal; f_equal; f_equal; f_equal; f_equal; f_equal;
          destruct (tail _); reflexivity|].
  repeat split; assumption.
Qed.

Lemma episode_suffix sp1 caps sp2 d ds :
  Forall (fun c => isspace c = true) sp1 ->
  Forall (fun c => isspace c = true) sp2 ->
  48 <= d <= 57 ->
  Forall (fun x => 48 <= x <= 57) ds ->
  let suf := sp1 ++ in_case caps (py "episode") ++ sp2 ++ d :: ds in
  rmatch re_episode suf = Some (length suf).
Proof.
  intros H1 H2 Hd Hds suf. subst suf.
  destruct (in_case_episode caps)
    as (c1 & c2 & c3 & c4 & c5 & c6 & c7 & -> & L1 & L2 & L3 & L4 & L5 & L6 & L7).
  rewrite re_episode_atoms. cbn [rmatch].
  set (kD := fun s : pystr => if at_dollar s then Some O else None).
  set (k3 := once isdecimal (star_greedy isdecimal kD)).
  set (k2 := star_greedy isspace k3).
  destruct (ascii_digit_class d Hd) as [Hsp Hdec].
  assert (E4 : star_greedy isdecimal kD ds = Some (length ds + 0)%nat).
  { rewrite <- (app_nil_r ds) at 1. apply star_greedy_run; [|reflexivity].
    eapply Forall_impl; [exact Hds|].
    intros x Hx. exact (proj2 (ascii_digit_class x Hx)). }
  assert (E3 : k3 (d :: ds) = Some (S (length ds + 0))).
  { unfold k3, once. rewrite Hdec, E4. reflexivity. }
  assert (E2 : k2 (sp2 ++ d :: ds) = Some (length sp2 + S (length ds + 0))%nat).
  { unfold k2. apply star_greedy_run; [exact H2|].
    rewrite star_greedy_stop by exact Hsp. exact E3. }
  assert (M1 : lit_i 69 c1 = true) by (destruct L1 as [-> | ->]; reflexivity).
  assert (M2 : lit_i 112 c2 = true) by (destruct L2 as [-> | ->]; reflexivity).
  assert (M3 : lit_i 105 c3 = true) by (destruct L3 as [-> | ->]; reflexivity).
  assert (M4 : lit_i 115 c4 = true) by (destruct L4 as [-> | ->]; reflexivity).
  assert (M5 : lit_i 111 c5 = true) by (destruct L5 as [-> | ->]; reflexivity).
  assert (M6 : lit_i 100 c6 = true) by (destruct L6 as [-> | ->]; reflexivity).
  assert (M7 : lit_i 101 c7 = true) by (destruct L7 as [-> | ->]; reflexivity).
  assert (S1 : isspace c1 = false) by (destruct L1 as [-> | ->]; reflexivity).
  cbn [app].
  erewrite star_greedy_run; [|exact H1|].
  2: { rewrite star_greedy_stop by exact S1. unfold once.
       rewrite M1, M2, M3, M4, M5, M6, M7. fold k2. rewrite E2. reflexivity. }
  f_equal. repeat first [progress cbn [length] | rewrite length_app]. lia.
Qed.

(** A trailing "Episode N", the word in any case, goes with the whitespace
    before it, whatever the title before it holds. *)
Lemma re_delete_trailing_episode base sp1 caps sp2 d ds :
  (forall b x, base = b ++ [x] -> isspace x = false) ->
  Forall (fun c => isspace c = true) sp1 ->
  Forall (fun c => isspace c = true) sp2 ->
  48 <= d <= 57 ->
  Forall (fun x => 48 <= x <= 57) ds ->
  re_delete re_episode
    (base ++ sp1 ++ in_case caps (py "episode") ++ sp2 ++ d :: ds) = base.
Proof.
  intros Hlast H1 H2 Hd Hds. rewrite re_delete_prefix.
  - rewrite re_delete_whole; [apply app_nil_r| |].
    + destruct (in_case_episode caps) as (c1 & ? & ? & ? & ? & ? & ? & -> & _).
      destruct sp1; discriminate.
    + exact (episode_suffix sp1 caps sp2 d ds H1 H2 Hd Hds).
  - intros i Hi. destruct base as [|x b _] using rev_ind; [simpl in Hi; lia|].
    rewrite drop_app_le by lia. rewrite drop_snoc by exact Hi.
    destruct (in_case_episode caps)
      as (c1 & c2 & c3 & c4 & c5 & c6 & c7 & -> & _ & _ & _ & _ & _ & _ & L7).
    replace ((drop i b ++ [x]) ++ sp1 ++ [c1; c2; c3; c4; c5; c6; c7] ++
             sp2 ++ d :: ds)
      with (drop i b ++ x :: (sp1 ++ [c1; c2; c3; c4; c5; c6]) ++
            c7 :: sp2 ++ d :: ds)
      by (norm_app; reflexivity).
    apply episode_miss.
    + exact (Hlast b x eq_refl).
    + intros [E|E]; destruct L7 as [-> | ->]; discriminate E.
    + rewrite length_app. simpl. lia.
Qed.


(** *** Titles without brackets *)

Lemma delimited_plain o c pre post :
  Forall (fun x => x <> o) pre ->
  let r := [Cls Once (lit o); Cls LazyStar dot; Cls Once (lit c)] in
  re_delete r (pre ++ post) = pre ++ re_delete r post.
Proof.
  intros Hpre r. apply re_delete_prefix.
  intros i Hi. rewrite drop_app_le by lia.
  destruct (drop i pre) as [|x rest] eqn:E.
  - apply (f_equal (@length N)) in E. rewrite length_drop in E.
    simpl in E. lia.
  - pose proof (Forall_drop _ i _ Hpre) as Hd. rewrite E in Hd.
    inversion Hd as [|? ? Hx _]; subst. simpl.
    apply delimited_miss. exact Hx.
Qed.

Lemma delimited_nowhere o c s :
  Forall (fun x => x <> o) s ->
  re_delete [Cls Once (lit o); Cls LazyStar dot; Cls Once (lit c)] s = s.
Proof.
  intros Hs. rewrite <- (app_nil_r s) at 1.
  rewrite (delimited_plain o c s [] Hs). apply app_nil_r.
Qed.

(** Without "[" and "(" in the title, the two trailing patterns and the
    whitespace are all there is to [clean_title]. *)
Lemma clean_title_plain t :
  Forall (fun x => x <> 91 /\ x <> 40) t ->
  clean_title t
    = collapse_ws (re_delete re_episode (re_delete re_dash_number t)).
Proof.
  intros Ht. unfold clean_title.
  assert (H91 : Forall (fun x => x <> 91) t)
    by (eapply Forall_impl; [exact Ht|]; intros x [Hx _]; exact Hx).
  assert (H40 : Forall (fun x => x <> 40) t)
    by (eapply Forall_impl; [exact Ht|]; intros x [_ Hx]; exact Hx).
  unfold re_brackets, re_parens.
  rewrite (delimited_nowhere 91 93 t H91), (delimited_nowhere 40 41 t H40).
  exact (proj2 (collapse_ws_normal _)).
Qed.

Lemma blank_is_plain (sp : pystr) :
  Forall (fun c => isspace c = true) sp ->
  Forall (fun x => x <> 91 /\ x <> 40) sp /\ Forall (fun x => x <> 45) sp.
Proof.
  intros Hsp. split; (eapply Forall_impl; [exact Hsp|]); intros c Hc;
    [split|]; intros ->; discriminate Hc.
Qed.

Lemma digits_are_plain (ds : pystr) :
  Forall (fun x => 48 <= x <= 57) ds ->
  Forall (fun x => x <> 91 /\ x <> 40) ds /\ Forall (fun x => x <> 45) ds.
Proof.
  intros Hds. split; (eapply Forall_impl; [exact Hds|]); intros c Hc;
    cbv beta in Hc |- *; lia.
Qed.

Lemma clean_title_trailing_dash_number base sp1 sp2 d ds sp3 :
  Forall (fun x => x <> 91 /\ x <> 40) base ->
  (forall b x, base = b ++ [x] -> isspace x = false /\ isdecimal x = false) ->
  Forall (fun c => isspace c = true) sp1 ->
  Forall (fun c => isspace c = true) sp2 ->
  Forall (fun c => isspace c = true) sp3 ->
  48 <= d <= 57 ->
  Forall (fun x => 48 <= x <= 57) ds ->
  clean_title (base ++ sp1 ++ [45] ++ sp2 ++ d :: ds ++ sp3) = collapse_ws base.
Proof.
  intros Hbase Hlast H1 H2 H3 Hd Hds. rewrite clean_title_plain.
  - rewrite re_delete_trailing_dash_number; try assumption.
    + rewrite episode_nowhere; [reflexivity|].
      intros b x E [Hb|Hb]; destruct (Hlast b x E); congruence.
    + intros b x E. exact (proj1 (Hlast b x E)).
  - apply Forall_app; split; [exact Hbase|].
    apply Forall_app; split; [exact (proj1 (blank_is_plain sp1 H1))|].
    apply Forall_app; split; [constructor; [split; discriminate|constructor]|].
    apply Forall_app; split; [exact (proj1 (blank_is_plain sp2 H2))|].
    constructor; [lia|].
    apply Forall_app; split;
      [exact (proj1 (digits_are_plain ds Hds))
      |exact (proj1 (blank_is_plain sp3 H3))].
Qed.

Lemma clean_title_trailing_episode base sp1 caps sp2 d ds :
  Forall (fun x => x <> 91 /\ x <> 40) base ->
  (forall b x, base = b ++ [x] -> isspace x = false) ->
  Forall (fun c => isspace c = true) sp1 ->
  Forall (fun c => isspace c = true) sp2 ->
  48 <= d <= 57 ->
  Forall (fun x => 48 <= x <= 57) ds ->
  clean_title (base ++ sp1 ++ in_case caps (py "episode") ++ sp2 ++ d :: ds)
    = collapse_ws base.
Proof.
  intros Hbase Hlast H1 H2 Hd Hds.
  pose proof (re_delete_trailing_episode base sp1 caps sp2 d ds
                Hlast H1 H2 Hd Hds) as Hepisode.
  destruct (in_case_episode caps)
    as (c1 & c2 & c3 & c4 & c5 & c6 & c7 & Ew & L1 & L2 & L3 & L4 & L5 & L6 & L7).
  rewrite clean_title_plain.
  - replace (re_delete re_dash_number
               (base ++ sp1 ++ in_case caps (py "episode") ++ sp2 ++ d :: ds))
      with (base ++ sp1 ++ in_case caps (py "episode") ++ sp2 ++ d :: ds).
    { rewrite Hepisode. reflexivity. }
    symmetry. rewrite Ew.
    replace (base ++ sp1 ++ [c1; c2; c3; c4; c5; c6; c7] ++ sp2 ++ d :: ds)
      with ((base ++ sp1 ++ [c1; c2; c3; c4; c5; c6]) ++ c7 :: sp2 ++ d :: ds)
      by (norm_app; reflexivity).
    apply dash_number_nowhere.
    + intros [E|E]; destruct L7 as [-> | ->]; discriminate E.
    + destruct L7 as [-> | ->]; discriminate.
    + apply Forall_app. split; [exact (proj2 (blank_is_plain sp2 H2))|].
      constructor; [lia|exact (proj2 (digits_are_plain ds Hds))].
  - rewrite Ew.
    apply Forall_app; split; [exact Hbase|].
    apply Forall_app; split; [exact (proj1 (blank_is_plain sp1 H1))|].
    apply Forall_app; split.
    + repeat (constructor;
              [match goal with
               | L : ?c = _ \/ ?c = _ |- ?c <> _ /\ _ =>
                   destruct L as [-> | ->]; split; discriminate
               end|]).
      constructor.
    + apply Forall_app; split; [exact (proj1 (blank_is_plain sp2 H2))|].
      constructor; [lia|exact (proj1 (digits_are_plain ds Hds))].
Qed.

End Shapes.

(** C8: [clean_title] takes the three titles of the claim to "Show Name",
    whatever the tables of the runtime.  A segment from "[" to the nearest
    "]" on the same line goes, wherever it stands, and so does one from "("
    to ")".  A trailing "- N" goes with the whitespace around it, whatever
    the title before it holds; so does a trailing "Episode N", the word in
    any case.  What is left has its whitespace collapsed: words separated by
    runs of whitespace come out separated by single spaces, without leading
    or trailing whitespace; a title without brackets, parentheses and digits
    is changed in no other way. *)
Theorem C8_clean_title_normalizes `{Runtime} :
  clean_title (py "[SubGroup] Show Name - 03") = py "Show Name" /\
  clean_title (py "Show Name Episode 5") = py "Show Name" /\
  clean_title (py "  Show   Name  ") = py "Show Name" /\
  (forall pre seg post,
     Forall (fun x => x <> 91) pre ->
     Forall (fun x => x <> 93 /\ x <> NL) seg ->
     re_delete re_brackets (pre ++ py "[" ++ seg ++ py "]" ++ post)
       = pre ++ re_delete re_brackets post /\
     clean_title (pre ++ py "[" ++ seg ++ py "]" ++ post)
       = clean_title (pre ++ post)) /\
  (forall pre seg post,
     Forall (fun x => x <> 40) pre ->
     Forall (fun x => x <> 41 /\ x <> NL) seg ->
     re_delete re_parens (pre ++ py "(" ++ seg ++ py ")" ++ post)
       = pre ++ re_delete re_parens post /\
     (Forall (fun x => x <> 91) (pre ++ seg ++ post) ->
      clean_title (pre ++ py "(" ++ seg ++ py ")" ++ post)
        = clean_title (pre ++ post))) /\
  (forall base sp1 sp2 d ds sp3,
     (forall b x, base = b ++ [x] -> isspace x = false) ->
     Forall (fun c => isspace c = true) sp1 ->
     Forall (fun c => isspace c = true) sp2 ->
     Forall (fun c => isspace c = true) sp3 ->
     48 <= d <= 57 ->
     Forall (fun x => 48 <= x <= 57) ds ->
     let title := base ++ sp1 ++ py "-" ++ sp2 ++ d :: ds ++ sp3 in
     re_delete re_dash_number title = base /\
     (Forall (fun x => x <> 91 /\ x <> 40) base ->
      (forall b x, base = b ++ [x] -> isdecimal x = false) ->
      clean_title title = collapse_ws base)) /\
  (forall base sp1 caps sp2 d ds,
     (forall b x, base = b ++ [x] -> isspace x = false) ->
     Forall (fun c => isspace c = true) sp1 ->
     Forall (fun c => isspace c = true) sp2 ->
     48 <= d <= 57 ->
     Forall (fun x => 48 <= x <= 57) ds ->
     let title := base ++ sp1 ++ in_case caps (py "episode") ++
                  sp2 ++ d :: ds in
     re_delete re_episode title = base /\
     (Forall (fun x => x <> 91 /\ x <> 40) base ->
      clean_title title = collapse_ws base)) /\
  (forall t,
     Forall (fun x => x <> 91 /\ x <> 40 /\ isdecimal x = false) t ->
     clean_title t = collapse_ws t) /\
  (forall lead (items : list (pystr * pystr)) last,
     Forall (fun c => isspace c = true) lead ->
     Forall (fun wg => wg.1 <> [] /\ Forall (fun c => isspace c = false) wg.1 /\
                       wg.2 <> [] /\ Forall (fun c => isspace c = true) wg.2)
       items ->
     Forall (fun c => isspace c = false) last ->
     collapse_ws (lead ++ concat (map (fun wg => wg.1 ++ wg.2) items) ++ last)
       = py_join [SP] (map fst items ++ match last with [] => [] | _ => [last] end)).
Proof.
  split; [vm_compute; reflexivity|].
  split; [vm_compute; reflexivity|].
  split; [vm_compute; reflexivity|].
  split.
  { intros pre seg post Hpre Hseg.
    pose proof (re_delete_delimited 91 93 pre seg post Hpre Hseg) as E.
    cbv zeta in E. split; [exact E|].
    pose proof (delimited_plain 91 93 pre post Hpre) as E'. cbv zeta in E'.
    unfold clean_title, re_brackets.
    change (py "[") with [91]. change (py "]") with [93].
    rewrite E, E'. reflexivity. }
  split.
  { intros pre seg post Hpre Hseg.
    pose proof (re_delete_delimited 40 41 pre seg post Hpre Hseg) as E.
    cbv zeta in E. split; [exact E|]. intros Hplain.
    apply Forall_app in Hplain as [P1 Hplain].
    apply Forall_app in Hplain as [P2 P3].
    pose proof (delimited_plain 40 41 pre post Hpre) as E'. cbv zeta in E'.
    unfold clean_title, re_brackets, re_parens.
    change (py "(") with [40]. change (py ")") with [41].
    rewrite (delimited_nowhere 91 93 (pre ++ post)),
      (delimited_nowhere 91 93 (pre ++ [40] ++ seg ++ [41] ++ post)).
    - rewrite E, E'. reflexivity.
    - apply Forall_app; split; [exact P1|].
      apply Forall_app; split; [constructor; [discriminate|constructor]|].
      apply Forall_app; split; [exact P2|].
      apply Forall_app; split; [constructor; [discriminate|constructor]|exact P3].
    - apply Forall_app; split; assumption. }
  split.
  { intros base sp1 sp2 d ds sp3 Hlast H1 H2 H3 Hd Hds title. subst title.
    change (py "-") with [45]. split.
    - exact (re_delete_trailing_dash_number base sp1 sp2 d ds sp3
               Hlast H1 H2 H3 Hd Hds).
    - intros Hplain Hdigit.
      apply clean_title_trailing_dash_number; try assumption.
      intros b x E. split; [exact (Hlast b x E)|exact (Hdigit b x E)]. }
  split.
  { intros base sp1 caps sp2 d ds Hlast H1 H2 Hd Hds title. subst title. split.
    - exact (re_delete_trailing_episode base sp1 caps sp2 d ds Hlast H1 H2 Hd Hds).
    - intros Hplain.
      exact (clean_title_trailing_episode base sp1 caps sp2 d ds
               Hplain Hlast H1 H2 Hd Hds). }
  split.
  { intros t Ht. rewrite clean_title_plain.
    - assert (Hd : Forall (fun c => isdecimal c = false) t)
        by (eapply Forall_impl; [exact Ht|]; intros x (_ & _ & Hx); exact Hx).
      destruct (trailing_patterns_need_digit t Hd) as [E1 E2].
      rewrite E1, E2. reflexivity.
    - eapply Forall_impl; [exact Ht|]. intros x (H1 & H2 & _). split; assumption. }
  intros lead items last Hlead Hitems Hlast. unfold collapse_ws.
  rewrite (py_split_words lead items last Hlead Hitems Hlast). reflexivity.
Qed.

Lemma C8_clean_title_normalizes_witness :
  @clean_title ascii_runtime (py "Kaguya-sama - 03 ")
    = @collapse_ws ascii_runtime (py "Kaguya-sama") /\
  @clean_title ascii_runtime (py "Deep Space EPISODE 5")
    = @collapse_ws ascii_runtime (py "Deep Space").
Proof.
  split.
  - refine (proj2 (proj1 (proj2 (proj2 (proj2 (proj2 (proj2
              (@C8_clean_title_normalizes ascii_runtime))))))
              (py "Kaguya-sama") [SP] [SP] 48 [51] [SP] _ _ _ _ _ _) _ _).
    + intros b x E. apply (f_equal (@rev N)) in E.
      rewrite rev_app_distr in E. simpl in E. injection E as <- _. reflexivity.
    + constructor; [reflexivity|constructor].
    + constructor; [reflexivity|constructor].
    + constructor; [reflexivity|constructor].
    + lia.
    + constructor; [lia|constructor].
    + unfold py. simpl. repeat (constructor; [split; discriminate|]). constructor.
    + intros b x E. apply (f_equal (@rev N)) in E.
      rewrite rev_app_distr in E. simpl in E. injection E as <- _. reflexivity.
  - refine (proj2 (proj1 (proj2 (proj2 (proj2 (proj2 (proj2 (proj2
              (@C8_clean_title_normalizes ascii_runtime)))))))
              (py "Deep Space") [SP] [true; true; true; true; true; true; true]
              [SP] 53 [] _ _ _ _ _) _).
    + intros b x E. apply (f_equal (@rev N)) in E.
      rewrite rev_app_distr in E. simpl in E. injection E as <- _. reflexivity.
    + constructor; [reflexivity|constructor].
    + constructor; [reflexivity|constructor].
    + lia.
    + constructor.
    + unfold py. simpl. repeat (constructor; [split; discriminate|]). constructor.
Defined.

(** ** Errors and fallbacks in a cycle *)

(** *** What a cycle queues *)

Lemma queued_append_at t item k x d :
  queued t item d -> queued t item (append_at k x d).
Proof.
  intros (items & Hin & Hitem). unfold append_at.
  destruct (decide (t = k)) as [->|Hne].
  - exists (items ++ [x]). split.
    + apply list_elem_of_fmap. exists (k, items). split; [|exact Hin].
      simpl. rewrite bool_decide_eq_true_2 by reflexivity. reflexivity.
    + apply elem_of_app. left. exact Hitem.
  - exists items. split; [|exact Hitem].
    apply list_elem_of_fmap. exists (t, items). split; [|exact Hin].
    simpl. rewrite bool_decide_eq_false_2 by exact Hne. reflexivity.
Qed.

Lemma queued_setdefault t item k d :
  queued t item d -> queued t item (setdefault_list k d).
Proof.
  intros (items & Hin & Hitem). exists items. split; [|exact Hitem].
  unfold setdefault_list. destruct (has_key k d); [exact Hin|].
  apply elem_of_app. left. exact Hin.
Qed.

Lemma append_at_queues k (x : Item) d :
  has_key k d = true -> queued k x (append_at k x d).
Proof.
  intros Hk. apply has_key_spec in Hk.
  apply list_elem_of_fmap in Hk as ([k' items] & E & Hin). simpl in E. subst k'.
  exists (items ++ [x]). split.
  - unfold append_at. apply list_elem_of_fmap. exists (k, items).
    split; [|exact Hin]. simpl.
    rewrite bool_decide_eq_true_2 by reflexivity. reflexivity.
  - apply elem_of_app. right. apply list_elem_of_singleton. reflexivity.
Qed.

Lemma has_key_append_at {V} k k' (x : V) d :
  has_key k (append_at k' x d) = has_key k d.
Proof.
  destruct (has_key k d) eqn:E.
  - apply has_key_spec. rewrite append_at_keys. apply has_key_spec. exact E.
  - destruct (has_key k (append_at k' x d)) eqn:E'; [|reflexivity].
    apply has_key_spec in E'. rewrite append_at_keys in E'.
    apply has_key_spec in E'. congruence.
Qed.

Lemma has_key_setdefault {V} k (d : list (pystr * list V)) :
  has_key k (setdefault_list k d) = true.
Proof.
  unfold setdefault_list. destruct (has_key k d) eqn:E; [exact E|].
  apply has_key_spec. rewrite map_app. apply elem_of_app. right.
  apply list_elem_of_singleton. reflexivity.
Qed.

Section Queue.
Context `{Runtime}.
Variable cfg : Config.
Variable world : World.

(** What [new_item] builds: the fields of the entry with their defaults,
    and the image the lookup gives for the title. *)
Lemma new_item_of entry fs :
  let item := fst (new_item cfg world entry fs) in
  item_of cfg entry item /\
  image_url item = fst (get_anime_image_from_anilist world (title item) fs).
Proof.
  unfold new_item.
  destruct (get_anime_image_from_anilist world _ fs) as [image fs'] eqn:E.
  cbn [fst title image_url]. rewrite E. repeat split.
Qed.

Lemma check_entries_keeps feed_url feed_title entries t item : forall st,
  queued t item (messages_by_feed st) ->
  queued t item
    (messages_by_feed (fst (check_entries cfg world feed_url feed_title entries st))).
Proof.
  induction entries as [|entry rest IH]; intros st Hq; simpl; [exact Hq|].
  destruct (entry_id_of entry) as [x|]; [|exact Hq].
  destruct (py_in x (ids_of (sent_items st) feed_url)); [exact (IH st Hq)|].
  destruct (new_item cfg world entry (files st)) as [it fs'].
  apply IH. simpl. apply queued_append_at. exact Hq.
Qed.

(** The first entry of the feed with a new identifier is queued. *)
Lemma check_entries_queues feed_url feed_title entries : forall st x,
  x ∈ reached_ids entries ->
  x ∉ ids_of (sent_items st) feed_url ->
  has_key feed_title (messages_by_feed st) = true ->
  exists pre entry post item,
    entries = pre ++ entry :: post /\
    Forall (fun e => is_Some (entry_id_of e)) pre /\
    entry_id_of entry = Some x /\
    (exists fs, item = fst (new_item cfg world entry fs)) /\
    queued feed_title item
      (messages_by_feed (fst (check_entries cfg world feed_url feed_title
                                entries st))).
Proof.
  induction entries as [|entry rest IH]; intros st x Hx Hnew Hkey; simpl in *.
  - inversion Hx.
  - destruct (entry_id_of entry) as [y|] eqn:Hy; [|inversion Hx].
    destruct (decide (y = x)) as [->|Hne].
    + assert (Hin : py_in x (ids_of (sent_items st) feed_url) = false)
        by (apply py_in_false; exact Hnew).
      rewrite Hin.
      assert (Hitem : exists fs, fst (new_item cfg world entry (files st))
                                 = fst (new_item cfg world entry fs))
        by (exists (files st); reflexivity).
      destruct (new_item cfg world entry (files st)) as [item fs'].
      exists [], entry, rest, item.
      split; [reflexivity|]. split; [constructor|]. split; [exact Hy|].
      split; [exact Hitem|].
      apply check_entries_keeps. simpl. apply append_at_queues. exact Hkey.
    + apply elem_of_cons in Hx as [Hx|Hx]; [congruence|].
      destruct (py_in y (ids_of (sent_items st) feed_url)) eqn:Hin.
      * destruct (IH st x Hx Hnew Hkey)
          as (pre & e & post & item & -> & Hpre & He & Hitem & Hq).
        exists (entry :: pre), e, post, item.
        split; [reflexivity|]. split; [constructor; [eauto|exact Hpre]|].
        split; [exact He|]. split; [exact Hitem|exact Hq].
      * destruct (new_item cfg world entry (files st)) as [it fs'].
        match goal with |- context [check_entries _ _ _ _ rest ?st1] =>
          destruct (IH st1 x Hx) as (pre & e & post & item & -> & Hpre & He & Hitem & Hq)
        end.
        { simpl. unfold ids_of at 1. rewrite lookup_insert_eq. simpl.
          intros Hin'. apply elem_of_app in Hin' as [Hin'|Hin'];
            [contradiction|].
          apply list_elem_of_singleton in Hin'. congruence. }
        { simpl. rewrite has_key_append_at. exact Hkey. }
        exists (entry :: pre), e, post, item.
        split; [reflexivity|]. split; [constructor; [eauto|exact Hpre]|].
        split; [exact He|]. split; [exact Hitem|exact Hq].
Qed.


Lemma try_feed_keeps feed_url t item st :
  queued t item (messages_by_feed st) ->
  queued t item (messages_by_feed (fst (try_feed cfg world feed_url st))).
Proof.
  intros Hq. unfold try_feed.
  destruct (negb (truthy (py_strip feed_url))); [exact Hq|].
  destruct (feedparser_parse world feed_url) as [feed|]; [|exact Hq].
  destruct (feed_entries feed) as [|entry rest]; [exact Hq|].
  apply check_entries_keeps. simpl. apply queued_setdefault. exact Hq.
Qed.

Lemma collect_keeps feeds t item : forall st,
  queued t item (messages_by_feed st) ->
  queued t item (messages_by_feed (collect cfg world feeds st)).
Proof.
  induction feeds as [|u feeds IH]; intros st Hq; simpl; [exact Hq|].
  apply IH. apply try_feed_keeps. exact Hq.
Qed.

(** A feed only writes under its own key of the history. *)
Lemma check_entries_other_key feed_url feed_title entries v : forall st,
  v <> feed_url ->
  sent_items (fst (check_entries cfg world feed_url feed_title entries st)) !! v
    = sent_items st !! v.
Proof.
  induction entries as [|entry rest IH]; intros st Hv; simpl; [reflexivity|].
  destruct (entry_id_of entry) as [x|]; [|reflexivity].
  destruct (py_in x (ids_of (sent_items st) feed_url)); [exact (IH st Hv)|].
  destruct (new_item cfg world entry (files st)) as [it fs'].
  rewrite IH by exact Hv. simpl. apply lookup_insert_ne. congruence.
Qed.

Lemma try_feed_other_key feed_url st v :
  v <> feed_url ->
  sent_items (fst (try_feed cfg world feed_url st)) !! v = sent_items st !! v.
Proof.
  intros Hv. unfold try_feed.
  destruct (negb (truthy (py_strip feed_url))); [reflexivity|].
  destruct (feedparser_parse world feed_url) as [feed|]; [|reflexivity].
  destruct (feed_entries feed) as [|entry rest]; [reflexivity|].
  rewrite check_entries_other_key by exact Hv. simpl.
  unfold setdefault_sent. destruct (sent_items st !! feed_url); [reflexivity|].
  apply lookup_insert_ne. congruence.
Qed.

(** A feed that cannot be fetched leaves its key of the history as it is,
    however often it is listed. *)
Lemma collect_untouched feeds v : forall st,
  feedparser_parse world v = None ->
  sent_items (collect cfg world feeds st) !! v = sent_items st !! v.
Proof.
  induction feeds as [|u feeds IH]; intros st Hv; simpl; [reflexivity|].
  rewrite IH by exact Hv. unfold check_feed.
  destruct (decide (v = u)) as [->|Hne].
  - unfold try_feed. rewrite Hv.
    destruct (negb (truthy (py_strip u))); reflexivity.
  - apply try_feed_other_key. exact Hne.
Qed.

Lemma try_feed_queues feed_url feed st x :
  truthy (py_strip feed_url) = true ->
  feedparser_parse world feed_url = Some feed ->
  x ∈ reached_ids (feed_entries feed) ->
  x ∉ ids_of (sent_items st) feed_url ->
  exists pre entry post item,
    feed_entries feed = pre ++ entry :: post /\
    Forall (fun e => is_Some (entry_id_of e)) pre /\
    entry_id_of entry = Some x /\
    (exists fs, item = fst (new_item cfg world entry fs)) /\
    queued (default feed_url (feed_title_attr feed)) item
      (messages_by_feed (fst (try_feed cfg world feed_url st))).
Proof.
  intros Hurl Hfeed Hx Hnew. unfold try_feed. rewrite Hurl, Hfeed.
  simpl negb. cbv iota.
  destruct (feed_entries feed) as [|entry rest] eqn:En; [inversion Hx|].
  rewrite <- En.
  match goal with |- context [check_entries _ _ ?u ?t _ ?st1] =>
    destruct (check_entries_queues u t (feed_entries feed) st1 x)
      as (pre & e & post & item & E & Hpre & He & Hitem & Hq)
  end.
  - rewrite En. exact Hx.
  - simpl. rewrite ids_of_setdefault. exact Hnew.
  - simpl. apply has_key_setdefault.
  - exists pre, e, post, item.
    split; [exact E|]. split; [exact Hpre|]. split; [exact He|].
    split; [exact Hitem|exact Hq].
Qed.

(** Every new identifier a cycle gets to has its first entry queued under
    the title of its feed. *)
Lemma collect_queues feeds : forall st feed_url feed x,
  feed_url ∈ feeds ->
  truthy (py_strip feed_url) = true ->
  feedparser_parse world feed_url = Some feed ->
  x ∈ reached_ids (feed_entries feed) ->
  x ∉ ids_of (sent_items st) feed_url ->
  exists pre entry post item,
    feed_entries feed = pre ++ entry :: post /\
    Forall (fun e => is_Some (entry_id_of e)) pre /\
    entry_id_of entry = Some x /\
    (exists fs, item = fst (new_item cfg world entry fs)) /\
    queued (default feed_url (feed_title_attr feed)) item
      (messages_by_feed (collect cfg world feeds st)).
Proof.
  induction feeds as [|u feeds IH]; intros st feed_url feed x Hin Hurl Hfeed Hx Hnew.
  - inversion Hin.
  - simpl. destruct (decide (u = feed_url)) as [->|Hne].
    + destruct (try_feed_queues feed_url feed st x Hurl Hfeed Hx Hnew)
        as (pre & e & post & item & E & Hpre & He & Hitem & Hq).
      exists pre, e, post, item.
      split; [exact E|]. split; [exact Hpre|]. split; [exact He|].
      split; [exact Hitem|]. apply collect_keeps. exact Hq.
    + apply elem_of_cons in Hin as [Hin|Hin]; [congruence|].
      apply (IH _ feed_url feed x Hin Hurl Hfeed Hx).
      unfold ids_of, check_feed.
      rewrite try_feed_other_key by congruence. exact Hnew.
Qed.

(** A cycle records for a feed only identifiers its loop got to. *)
Lemma check_entries_only_reached feed_url feed_title entries : forall st v x,
  x ∈ ids_of (sent_items (fst (check_entries cfg world feed_url feed_title
                                 entries st))) v ->
  x ∈ ids_of (sent_items st) v \/ (v = feed_url /\ x ∈ reached_ids entries).
Proof.
  induction entries as [|entry rest IH]; intros st v x Hx; simpl in *.
  - left. exact Hx.
  - destruct (entry_id_of entry) as [y|]; [|left; exact Hx].
    destruct (py_in y (ids_of (sent_items st) feed_url)).
    + destruct (IH st v x Hx) as [Hold|[-> Hr]]; [left; exact Hold|].
      right. split; [reflexivity|]. apply elem_of_cons. right. exact Hr.
    + destruct (new_item cfg world entry (files st)) as [it fs'].
      destruct (IH _ v x Hx) as [Hold|[-> Hr]].
      * simpl in Hold. destruct (decide (v = feed_url)) as [->|Hne].
        -- unfold ids_of at 1 in Hold. rewrite lookup_insert_eq in Hold.
           simpl in Hold. apply elem_of_app in Hold as [Hold|Hold];
             [left; exact Hold|].
           apply list_elem_of_singleton in Hold. subst x.
           right. split; [reflexivity|]. apply elem_of_cons. left. reflexivity.
        -- unfold ids_of at 1 in Hold.
           rewrite lookup_insert_ne in Hold by congruence. left. exact Hold.
      * right. split; [reflexivity|]. apply elem_of_cons. right. exact Hr.
Qed.

Lemma try_feed_only_reached feed_url st v x :
  x ∈ ids_of (sent_items (fst (try_feed cfg world feed_url st))) v ->
  x ∈ ids_of (sent_items st) v \/
  (v = feed_url /\ exists feed, feedparser_parse world feed_url = Some feed /\
                                x ∈ reached_ids (feed_entries feed)).
Proof.
  unfold try_feed. destruct (negb (truthy (py_strip feed_url))); [auto|].
  destruct (feedparser_parse world feed_url) as [feed|] eqn:Hfeed; [|auto].
  destruct (feed_entries feed) as [|entry rest] eqn:En; [auto|].
  intros Hx. apply check_entries_only_reached in Hx as [Hold|[-> Hr]].
  - left. simpl in Hold. rewrite ids_of_setdefault in Hold. exact Hold.
  - right. split; [reflexivity|]. exists feed. rewrite En. auto.
Qed.

Lemma collect_only_reached feeds : forall st v x,
  x ∈ ids_of (sent_items (collect cfg world feeds st)) v ->
  x ∈ ids_of (sent_items st) v \/
  (v ∈ feeds /\ exists feed, feedparser_parse world v = Some feed /\
                             x ∈ reached_ids (feed_entries feed)).
Proof.
  induction feeds as [|u feeds IH]; intros st v x Hx; simpl in *; [auto|].
  destruct (IH _ v x Hx) as [Hold|[Hin Hfeed]].
  - apply try_feed_only_reached in Hold as [Hold|[-> Hfeed]]; [auto|].
    right. split; [apply elem_of_cons; auto|exact Hfeed].
  - right. split; [apply elem_of_cons; auto|exact Hfeed].
Qed.

End Queue.

(** *** What is queued is handed to the bot *)

Lemma for_each_extends {A} (body : A -> M unit) (xs : list A) :
  (forall y tr, exists evs, snd (body y tr) = tr ++ evs) ->
  forall tr, exists evs, snd (for_each xs body tr) = tr ++ evs.
Proof.
  intros Hbody. induction xs as [|x xs IH]; intros tr.
  - exists []. rewrite app_nil_r. reflexivity.
  - destruct (Hbody x tr) as (evs1 & E1).
    destruct (IH (tr ++ evs1)) as (evs2 & E2).
    exists (evs1 ++ evs2). simpl. unfold bind.
    destruct (body x tr) as [[] tr1]. simpl in E1. subst tr1.
    rewrite E2, app_assoc. reflexivity.
Qed.

(** The trace of a loop holds, in its place, what each turn adds. *)
Lemma for_each_contains {A} (body : A -> M unit) (xs : list A) x :
  (forall y tr, exists evs, snd (body y tr) = tr ++ evs) ->
  x ∈ xs ->
  forall tr, exists tr1 tr2,
    snd (for_each xs body tr)
      = tr ++ tr1 ++ emitted (body x) (tr ++ tr1) ++ tr2.
Proof.
  intros Hbody. induction xs as [|y xs IH]; intros Hin tr; [inversion Hin|].
  destruct (Hbody y tr) as (evs1 & E1).
  assert (Estep : snd (for_each (y :: xs) body tr)
                  = snd (for_each xs body (tr ++ evs1))).
  { simpl. unfold bind. destruct (body y tr) as [[] tr1]. simpl in E1.
    subst tr1. reflexivity. }
  rewrite Estep.
  apply elem_of_cons in Hin as [->|Hxs].
  - destruct (for_each_extends body xs Hbody (tr ++ evs1)) as (evs2 & E2).
    exists [], evs2. rewrite app_nil_r, E2.
    rewrite (emitted_extends (body y) tr evs1 E1), <- app_assoc. reflexivity.
  - destruct (IH Hxs (tr ++ evs1)) as (tr1 & tr2 & E).
    exists (evs1 ++ tr1), tr2. rewrite E, !app_assoc. reflexivity.
Qed.

Lemma elem_of_concat {A} (x : A) (ls : list (list A)) :
  x ∈ concat ls -> exists l, l ∈ ls /\ x ∈ l.
Proof.
  induction ls as [|l ls IH]; simpl; intros Hx; [inversion Hx|].
  apply elem_of_app in Hx as [Hx|Hx].
  - exists l. split; [apply elem_of_cons; left; reflexivity|exact Hx].
  - destruct (IH Hx) as (l' & Hl' & Hx').
    exists l'. split; [apply elem_of_cons; right; exact Hl'|exact Hx'].
Qed.

Section Delivery.
Context `{Runtime}.
Variable cfg : Config.
Variable bot : Bot.

Lemma grouped_feed_extends kv tr :
  exists evs, snd (grouped_feed cfg bot kv tr) = tr ++ evs.
Proof.
  destruct (grouped_feed_texts cfg bot kv tr) as (evs & E & _).
  exists evs. exact E.
Qed.

Lemma single_entry_extends feed_title entry tr :
  exists evs, snd (single_entry cfg bot feed_title entry tr) = tr ++ evs.
Proof.
  destruct (single_entry_shape cfg bot feed_title entry tr) as (evs & E & _).
  exists evs. exact E.
Qed.

Lemma single_feed_extends kv tr :
  exists evs, snd (single_feed cfg bot kv tr) = tr ++ evs.
Proof.
  destruct (single_feed_sleeps cfg bot kv tr) as (evs & E & _).
  exists evs. exact E.
Qed.

(** Every entry of a feed is in one of the messages of the feed. *)
Lemma grouped_feed_delivers feed_title entries item tr :
  item ∈ entries ->
  exists before after ok,
    text_event cfg (grouped_header feed_title ++ before ++
                    grouped_entry_text cfg item ++ after) ok
      ∈ emitted (grouped_feed cfg bot (feed_title, entries)) tr.
Proof.
  intros Hin.
  assert (Hne : entries <> []) by (intros ->; inversion Hin).
  destruct (grouped_feed_emitted cfg bot feed_title entries tr Hne)
    as (evs & E & F & _).
  cbv zeta in F. rewrite E.
  set (header := grouped_header feed_title) in *.
  pose proof (grouping_concat cfg header entries []) as Hcat.
  cbn [app] in Hcat.
  assert (Hg : exists g, g ∈ fst (grouping cfg header entries []) ++
                             [snd (grouping cfg header entries [])] /\
                         item ∈ g).
  { rewrite <- Hcat in Hin. apply elem_of_app in Hin as [Hin|Hin].
    - apply elem_of_concat in Hin as (g & Hg & Hitem).
      exists g. split; [apply elem_of_app; left; exact Hg|exact Hitem].
    - exists (snd (grouping cfg header entries [])).
      split; [|exact Hin]. apply elem_of_app. right.
      apply list_elem_of_singleton. reflexivity. }
  destruct Hg as (g & Hg & Hitem).
  apply list_elem_of_lookup in Hg as (i & Hi).
  destruct (Forall2_lookup_r _ _ _ _ _ F Hi) as (ev & Hev & ok & ->).
  apply list_elem_of_split in Hitem as (g1 & g2 & ->).
  exists (blocks cfg g1), (blocks cfg g2), ok.
  apply elem_of_app. left.
  rewrite blocks_app in Hev.
  change (item :: g2) with ([item] ++ g2) in Hev.
  rewrite blocks_app, blocks_one in Hev.
  apply list_elem_of_lookup. exists i. exact Hev.
Qed.

Lemma single_entry_calls feed_title item tr :
  exists c ok rest,
    emitted (single_entry cfg bot feed_title item) tr = Invoke c ok :: rest /\
    single_call cfg feed_title item c.
Proof.
  destruct (image_url item) as [[|c0 url]|] eqn:Himg.
  - eexists _, _, _. split.
    + apply emitted_extends. apply single_entry_without_image. auto.
    + left. reflexivity.
  - pose proof (single_entry_with_image cfg bot feed_title item (c0 :: url) tr
                  Himg ltac:(discriminate)) as E. cbv zeta in E.
    rewrite E. destruct (bot tr _); eexists _, _, _;
      (split; [reflexivity|]); right; exists (c0 :: url);
      (split; [exact Himg|reflexivity]).
  - eexists _, _, _. split.
    + apply emitted_extends. apply single_entry_without_image. auto.
    + left. reflexivity.
Qed.

(** In the single strategy the trace holds, in its place, what the turn of
    each queued entry adds. *)
Lemma single_messages_contain messages feed_title item tr :
  queued feed_title item messages ->
  exists before after,
    emitted (send_single_messages cfg bot messages) tr
      = before ++ emitted (single_entry cfg bot feed_title item) (tr ++ before)
        ++ after.
Proof.
  intros (items & Hin & Hitem).
  destruct (for_each_contains (single_feed cfg bot) messages (feed_title, items)
              single_feed_extends Hin tr) as (tr1 & tr2 & E).
  destruct (for_each_contains (single_entry cfg bot feed_title) items item
              (single_entry_extends feed_title) Hitem (tr ++ tr1))
    as (tr3 & tr4 & E').
  exists (tr1 ++ tr3), (tr4 ++ tr2).
  unfold emitted at 1. rewrite send_single_messages_trace, E.
  rewrite drop_app_length.
  assert (Efeed : emitted (single_feed cfg bot (feed_title, items)) (tr ++ tr1)
                  = tr3 ++ emitted (single_entry cfg bot feed_title item)
                             ((tr ++ tr1) ++ tr3) ++ tr4).
  { apply emitted_extends. exact E'. }
  rewrite Efeed, <- !app_assoc. reflexivity.
Qed.

Lemma dispatch_delivers messages feed_title item tr :
  queued feed_title item messages ->
  delivered cfg feed_title item (emitted (dispatch cfg bot messages) tr).
Proof.
  intros Hq. unfold delivered, dispatch.
  destruct (TELEGRAM_GROUPED_MESSAGES cfg).
  - destruct Hq as (items & Hin & Hitem).
    destruct (for_each_contains (grouped_feed cfg bot) messages
                (feed_title, items) grouped_feed_extends Hin tr)
      as (tr1 & tr2 & E).
    destruct (grouped_feed_delivers feed_title items item (tr ++ tr1) Hitem)
      as (before & after & ok & Hev).
    exists before, after, ok.
    unfold emitted at 1. rewrite send_grouped_messages_trace, E.
    rewrite drop_app_length. apply elem_of_app. right.
    apply elem_of_app. left. exact Hev.
  - destruct (single_messages_contain messages feed_title item tr Hq)
      as (before & after & E).
    destruct (single_entry_calls feed_title item (tr ++ before))
      as (c & ok & rest & Ec & Hc).
    exists c, ok. split; [|exact Hc].
    rewrite E, Ec. apply elem_of_app. right. apply elem_of_cons. left.
    reflexivity.
Qed.

End Delivery.

(** *** A cycle, from the feeds to the bot and the history *)

Lemma reached_ids_before pre bad post x :
  Forall (fun e => is_Some (entry_id_of e)) pre ->
  entry_id_of bad = None ->
  x ∈ reached_ids (pre ++ bad :: post) <->
  exists e, e ∈ pre /\ entry_id_of e = Some x.
Proof.
  intros Hpre Hbad. induction Hpre as [|e pre [y Hy] _ IH]; simpl.
  - rewrite Hbad. split; [intros Hx; inversion Hx|].
    intros (e & He & _). inversion He.
  - rewrite Hy. rewrite elem_of_cons, IH. split.
    + intros [->|(e' & He' & Hx)].
      * exists e. split; [apply elem_of_cons; left; reflexivity|exact Hy].
      * exists e'. split; [apply elem_of_cons; right; exact He'|exact Hx].
    + intros (e' & He' & Hx). apply elem_of_cons in He' as [->|He'].
      * left. congruence.
      * right. exists e'. split; assumption.
Qed.

(** An entry with an identifier that no item without one precedes stands
    before the first such item. *)
Lemma before_the_anonymous (pre : list FeedEntry) bad post : forall pre' e post',
  pre ++ bad :: post = pre' ++ e :: post' ->
  entry_id_of bad = None ->
  Forall (fun e => is_Some (entry_id_of e)) pre' ->
  is_Some (entry_id_of e) ->
  e ∈ pre.
Proof.
  induction pre as [|a pre IH]; intros pre' e post' E Hbad Hpre' He.
  - exfalso. destruct pre' as [|p pre']; simpl in E; injection E as E _.
    + subst e. rewrite Hbad in He. destruct He as [? He]. discriminate He.
    + subst p. inversion Hpre' as [|? ? Hp _]; subst.
      rewrite Hbad in Hp. destruct Hp as [? Hp]. discriminate Hp.
  - destruct pre' as [|p pre']; simpl in E; injection E as -> E.
    + apply elem_of_cons. left. reflexivity.
    + apply elem_of_cons. right.
      inversion Hpre' as [|? ? _ Hpre'']; subst.
      exact (IH pre' e post' E Hbad Hpre'' He).
Qed.

Section CycleEnds.
Context `{Runtime}.
Variable cfg : Config.
Variable world : World.
Variable bot : Bot.

Lemma check_feeds_emitted fs tr :
  emitted (check_feeds cfg world bot fs) tr
    = emitted (dispatch cfg bot
                 (messages_by_feed
                    (collect cfg world (fst (load_feeds fs))
                       {| sent_items := load_sent_items fs;
                          messages_by_feed := [];
                          files := snd (load_feeds fs) |}))) tr.
Proof. unfold emitted. rewrite check_feeds_trace. reflexivity. Qed.

Lemma poll_cycle_history fs tr :
  load_sent_items (fst (poll_cycle cfg world bot fs tr))
    = sent_items (collect cfg world (fst (load_feeds fs))
                    {| sent_items := load_sent_items fs;
                       messages_by_feed := [];
                       files := snd (load_feeds fs) |}).
Proof. rewrite poll_cycle_files, check_feeds_sent. reflexivity. Qed.

(** A new identifier the cycle gets to is persisted once, and the first
    entry that carries it is queued and handed to the bot. *)
Lemma cycle_delivers fs tr feed_url feed x :
  feed_url ∈ fst (load_feeds fs) ->
  feedparser_parse world feed_url = Some feed ->
  x ∈ reached_ids (feed_entries feed) ->
  x ∉ ids_of (load_sent_items fs) feed_url ->
  occurrences x
    (ids_of (load_sent_items (fst (poll_cycle cfg world bot fs tr))) feed_url)
    = 1%nat /\
  exists pre entry post item,
    feed_entries feed = pre ++ entry :: post /\
    Forall (fun e => is_Some (entry_id_of e)) pre /\
    entry_id_of entry = Some x /\
    (exists fs', item = fst (new_item cfg world entry fs')) /\
    queued (default feed_url (feed_title_attr feed)) item
      (messages_by_feed
         (collect cfg world (fst (load_feeds fs))
            {| sent_items := load_sent_items fs; messages_by_feed := [];
               files := snd (load_feeds fs) |})) /\
    delivered cfg (default feed_url (feed_title_attr feed)) item
      (emitted (check_feeds cfg world bot fs) tr).
Proof.
  intros Hin Hfeed Hx Hnew.
  set (st0 := {| sent_items := load_sent_items fs; messages_by_feed := [];
                 files := snd (load_feeds fs) |}).
  pose proof (load_feeds_nonblank fs feed_url Hin) as Hurl.
  split.
  - rewrite poll_cycle_history. fold st0.
    destruct (collect_grows cfg world (fst (load_feeds fs)) st0 feed_url)
      as [F _].
    apply (fresh_ext_once _ _ _ F Hnew).
    exact (collect_records cfg world _ st0 feed_url feed x Hin Hurl Hfeed Hx).
  - destruct (collect_queues cfg world (fst (load_feeds fs)) st0 feed_url feed x
                Hin Hurl Hfeed Hx Hnew)
      as (pre & e & post & item & E & Hpre & He & Hitem & Hq).
    exists pre, e, post, item.
    split; [exact E|]. split; [exact Hpre|]. split; [exact He|].
    split; [exact Hitem|]. split; [exact Hq|].
    rewrite check_feeds_emitted. apply dispatch_delivers. exact Hq.
Qed.

End CycleEnds.

(** C6 (amended): an error in one feed is caught inside the cycle.  A feed
    whose fetch raises contributes nothing: its key of the history is left
    as it was, and what is sent is what the other feeds queue.  A feed whose
    processing raises at an item without identifier contributes the entries
    before that item and only them: their identifiers are in the persisted
    history, no other new one is, and each that was new is there once and
    its entry was handed to the bot.  Every other feed that can be fetched
    is processed as usual: each new identifier of it the loop gets to is
    persisted once and its entry handed to the bot.  The cycle reaches the
    persist step: the history file holds what [check_feeds] returned. *)
Theorem C6_failing_feed_is_isolated `{Runtime} cfg world bot fs tr
    feeds1 feed_url feeds2 :
  fst (load_feeds fs) = feeds1 ++ feed_url :: feeds2 ->
  let before := load_sent_items fs in
  let after := load_sent_items (fst (poll_cycle cfg world bot fs tr)) in
  let sent := emitted (check_feeds cfg world bot fs) tr in
  (feedparser_parse world feed_url = None ->
     after !! feed_url = before !! feed_url /\
     sent = emitted (dispatch cfg bot
                       (messages_by_feed
                          (collect cfg world (feeds1 ++ feeds2)
                             {| sent_items := before; messages_by_feed := [];
                                files := snd (load_feeds fs) |}))) tr) /\
  (forall feed pre bad post,
     feedparser_parse world feed_url = Some feed ->
     feed_entries feed = pre ++ bad :: post ->
     Forall (fun e => is_Some (entry_id_of e)) pre ->
     entry_id_of bad = None ->
     (forall x, x ∈ ids_of after feed_url <->
                x ∈ ids_of before feed_url \/
                exists e, e ∈ pre /\ entry_id_of e = Some x) /\
     (forall e x,
        e ∈ pre -> entry_id_of e = Some x -> x ∉ ids_of before feed_url ->
        occurrences x (ids_of after feed_url) = 1%nat /\
        exists e' item,
          e' ∈ pre /\ entry_id_of e' = Some x /\ item_of cfg e' item /\
          delivered cfg (default feed_url (feed_title_attr feed)) item sent)) /\
  (forall u feed x,
     u ∈ feeds1 ++ feeds2 ->
     feedparser_parse world u = Some feed ->
     x ∈ reached_ids (feed_entries feed) ->
     x ∉ ids_of before u ->
     occurrences x (ids_of after u) = 1%nat /\
     exists e item,
       e ∈ feed_entries feed /\ entry_id_of e = Some x /\ item_of cfg e item /\
       delivered cfg (default u (feed_title_attr feed)) item sent) /\
  HISTORY_FILE (fst (poll_cycle cfg world bot fs tr))
    = Some (fst (fst (check_feeds cfg world bot fs tr))).
Proof.
  intros Hfeeds before after sent.
  set (st0 := {| sent_items := before; messages_by_feed := [];
                 files := snd (load_feeds fs) |}).
  assert (Hafter : after = sent_items (collect cfg world (fst (load_feeds fs)) st0))
    by (apply poll_cycle_history).
  assert (Hlisted : feed_url ∈ fst (load_feeds fs)).
  { rewrite Hfeeds. apply elem_of_app. right. apply elem_of_cons. left.
    reflexivity. }
  pose proof (load_feeds_nonblank fs feed_url Hlisted) as Hurl.
  split; [|split; [|split]].
  - intros Hdown. split.
    + rewrite Hafter. apply collect_untouched. exact Hdown.
    + subst sent. rewrite check_feeds_emitted. fold before. fold st0.
      rewrite Hfeeds, !collect_app.
      change (collect cfg world (feed_url :: feeds2) (collect cfg world feeds1 st0))
        with (collect cfg world feeds2
                (fst (try_feed cfg world feed_url (collect cfg world feeds1 st0)))).
      rewrite (try_feed_fetch_error cfg world feed_url _ Hurl Hdown).
      reflexivity.
  - intros feed pre bad post Hfeed Hentries Hpre Hbad.
    assert (Hreached : forall x, x ∈ reached_ids (feed_entries feed) <->
                                 exists e, e ∈ pre /\ entry_id_of e = Some x).
    { intros x. rewrite Hentries.
      exact (reached_ids_before pre bad post x Hpre Hbad). }
    split.
    + intros x. rewrite Hafter. split.
      * intros Hx. apply collect_only_reached in Hx as [Hold|[_ (feed' & Hf' & Hr)]].
        -- left. exact Hold.
        -- right. rewrite Hfeed in Hf'. injection Hf' as <-.
           apply Hreached. exact Hr.
      * intros [Hold|Hnew].
        -- destruct (collect_grows cfg world (fst (load_feeds fs)) st0 feed_url)
             as [F _].
           exact (fresh_ext_elem _ _ _ F Hold).
        -- apply (collect_records cfg world _ st0 feed_url feed x Hlisted Hurl Hfeed).
           apply Hreached. exact Hnew.
    + intros e x He Hid Hnew.
      assert (Hr : x ∈ reached_ids (feed_entries feed))
        by (apply Hreached; exists e; split; assumption).
      destruct (cycle_delivers cfg world bot fs tr feed_url feed x
                  Hlisted Hfeed Hr Hnew)
        as (Honce & pre' & e' & post' & item & E & Hpre' & He' & (fs' & ->) & _ & Hd).
      split; [exact Honce|]. exists e', (fst (new_item cfg world e' fs')).
      split.
      { rewrite Hentries in E.
        apply (before_the_anonymous pre bad post pre' e' post' E Hbad Hpre').
        rewrite He'. eauto. }
      split; [exact He'|].
      split; [exact (proj1 (new_item_of cfg world e' fs'))|exact Hd].
  - intros u feed x Hu Hfeed Hr Hnew.
    assert (Hu' : u ∈ fst (load_feeds fs)).
    { rewrite Hfeeds. apply elem_of_app in Hu as [Hu|Hu]; apply elem_of_app;
        [left; exact Hu|right; apply elem_of_cons; right; exact Hu]. }
    destruct (cycle_delivers cfg world bot fs tr u feed x Hu' Hfeed Hr Hnew)
      as (Honce & pre' & e' & post' & item & E & _ & He' & (fs' & ->) & _ & Hd).
    split; [exact Honce|]. exists e', (fst (new_item cfg world e' fs')).
    split.
    { rewrite E. apply elem_of_app. right. apply elem_of_cons. left.
      reflexivity. }
    split; [exact He'|].
    split; [exact (proj1 (new_item_of cfg world e' fs'))|exact Hd].
  - rewrite poll_cycle_files. reflexivity.
Qed.

Lemma C6_failing_feed_is_isolated_witness :
  let before := load_sent_items mixed_files in
  let after := load_sent_items
                 (fst (@poll_cycle ascii_runtime default_config mixed_world
                         reliable_bot mixed_files [])) in
  let sent := emitted (@check_feeds ascii_runtime default_config mixed_world
                         reliable_bot mixed_files) [] in
  after !! down_url = before !! down_url /\
  (occurrences (py "a") (ids_of after sample_url) = 1%nat /\
   exists e' item,
     e' ∈ [entry_a] /\ entry_id_of e' = Some (py "a") /\
     item_of default_config e' item /\
     @delivered ascii_runtime default_config (py "Feed") item sent) /\
  (occurrences (py "b") (ids_of after other_url) = 1%nat /\
   exists e item,
     e ∈ [entry_b] /\ entry_id_of e = Some (py "b") /\
     item_of default_config e item /\
     @delivered ascii_runtime default_config other_url item sent).
Proof.
  intros before after sent. split; [|split].
  - refine (proj1 (proj1 (@C6_failing_feed_is_isolated ascii_runtime
                            default_config mixed_world reliable_bot mixed_files
                            [] [] down_url [sample_url; other_url] _) _)).
    + vm_compute. reflexivity.
    + vm_compute. reflexivity.
  - refine (proj2 (proj1 (proj2 (@C6_failing_feed_is_isolated ascii_runtime
                                   default_config mixed_world reliable_bot
                                   mixed_files [] [down_url] sample_url
                                   [other_url] _))
                     {| feed_title_attr := Some (py "Feed");
                        feed_entries := [entry_a; entry_anonymous; entry_b] |}
                     [entry_a] entry_anonymous [entry_b] _ _ _ _)
              entry_a (py "a") _ _ _).
    + vm_compute. reflexivity.
    + vm_compute. reflexivity.
    + reflexivity.
    + constructor; [eexists; reflexivity|constructor].
    + reflexivity.
    + apply elem_of_cons. left. reflexivity.
    + reflexivity.
    + vm_compute. intros Hx. inversion Hx.
  - refine (proj1 (proj2 (proj2 (@C6_failing_feed_is_isolated ascii_runtime
                                   default_config mixed_world reliable_bot
                                   mixed_files [] [down_url] sample_url
                                   [other_url] _)))
              other_url
              {| feed_title_attr := None; feed_entries := [entry_b] |}
              (py "b") _ _ _ _).
    + vm_compute. reflexivity.
    + apply elem_of_cons. right. apply elem_of_cons. left. reflexivity.
    + vm_compute. reflexivity.
    + simpl. apply elem_of_cons. left. reflexivity.
    + vm_compute. intros Hx. inversion Hx.
Defined.

(** *** From a call back to its entry *)

Lemma for_each_blocks {A} (body : A -> M unit) (xs : list A) :
  (forall y tr, exists evs, snd (body y tr) = tr ++ evs) ->
  forall tr, exists blks,
    snd (for_each xs body tr) = tr ++ concat blks /\
    Forall2 (fun blk x => exists tr', blk = emitted (body x) tr') blks xs.
Proof.
  intros Hbody. induction xs as [|x xs IH]; intros tr.
  - exists []. simpl. rewrite app_nil_r. split; [reflexivity|constructor].
  - destruct (Hbody x tr) as (evs1 & E1).
    destruct (IH (tr ++ evs1)) as (blks & E2 & F).
    exists (evs1 :: blks). split.
    + simpl. unfold bind. destruct (body x tr) as [[] tr1]. simpl in E1.
      subst tr1. rewrite E2, app_assoc. reflexivity.
    + constructor; [|exact F]. exists tr.
      symmetry. exact (emitted_extends (body x) tr evs1 E1).
Qed.

Lemma queued_inv_append_at t item k (x : Item) d :
  queued t item (append_at k x d) -> queued t item d \/ (t = k /\ item = x).
Proof.
  intros (items & Hin & Hitem). unfold append_at in Hin.
  apply list_elem_of_fmap in Hin as ([k' v] & E & Hin). simpl in E.
  destruct (bool_decide (k' = k)) eqn:Hk.
  - apply bool_decide_eq_true in Hk. subst k'. injection E as -> ->.
    apply elem_of_app in Hitem as [Hitem|Hitem].
    + left. exists v. split; assumption.
    + apply list_elem_of_singleton in Hitem. right. split; [reflexivity|exact Hitem].
  - injection E as -> ->. left. exists v. split; assumption.
Qed.

Lemma queued_inv_setdefault t item k d :
  queued t item (setdefault_list k d) -> queued t item d.
Proof.
  intros (items & Hin & Hitem). unfold setdefault_list in Hin.
  destruct (has_key k d); [exists items; split; assumption|].
  apply elem_of_app in Hin as [Hin|Hin]; [exists items; split; assumption|].
  apply list_elem_of_singleton in Hin. injection Hin as -> ->. inversion Hitem.
Qed.

Section Origin.
Context `{Runtime}.
Variable cfg : Config.
Variable world : World.
Variable sent0 : SentItems.

Lemma origin_grows feeds sent sent' t item :
  grows sent sent' ->
  origin cfg world sent0 feeds sent t item ->
  origin cfg world sent0 feeds sent' t item.
Proof.
  intros G (u & feed & e & x & fs' & Hu & Hf & Ht & He & Hid & Hitem & Hx & Hnew).
  exists u, feed, e, x, fs'. repeat (split; [assumption|]).
  split; [|exact Hnew]. destruct (G u) as [F _].
  exact (fresh_ext_elem _ _ _ F Hx).
Qed.

Lemma check_entries_origin feeds feed_url feed entries : forall st,
  feed_url ∈ feeds ->
  feedparser_parse world feed_url = Some feed ->
  (forall e, e ∈ entries -> e ∈ feed_entries feed) ->
  grows sent0 (sent_items st) ->
  (forall t item, queued t item (messages_by_feed st) ->
                  origin cfg world sent0 feeds (sent_items st) t item) ->
  forall t item,
    queued t item
      (messages_by_feed
         (fst (check_entries cfg world feed_url
                 (default feed_url (feed_title_attr feed)) entries st))) ->
    origin cfg world sent0 feeds
      (sent_items
         (fst (check_entries cfg world feed_url
                 (default feed_url (feed_title_attr feed)) entries st))) t item.
Proof.
  induction entries as [|entry rest IH]; intros st Hu Hfeed Hsub G Hinv t item Hq;
    simpl in *.
  - exact (Hinv t item Hq).
  - destruct (entry_id_of entry) as [y|] eqn:Hy; [|exact (Hinv t item Hq)].
    assert (Hsub' : forall e, e ∈ rest -> e ∈ feed_entries feed)
      by (intros e He; apply Hsub; apply elem_of_cons; right; exact He).
    destruct (py_in y (ids_of (sent_items st) feed_url)) eqn:Hin.
    + exact (IH st Hu Hfeed Hsub' G Hinv t item Hq).
    + apply py_in_false in Hin.
      destruct (new_item cfg world entry (files st)) as [it fs1] eqn:Hnew.
      assert (G1 : grows (sent_items st)
                     (<[feed_url := ids_of (sent_items st) feed_url ++ [y]]>
                        (sent_items st)))
        by (apply grows_append; exact Hin).
      revert Hq. apply IH; try assumption.
      * simpl. exact (grows_trans _ _ _ G G1).
      * simpl. intros t' item' Hq'.
        apply queued_inv_append_at in Hq' as [Hq'|[-> ->]].
        -- exact (origin_grows _ _ _ _ _ G1 (Hinv t' item' Hq')).
        -- exists feed_url, feed, entry, y, (files st).
           split; [exact Hu|]. split; [exact Hfeed|]. split; [reflexivity|].
           split; [apply Hsub; apply elem_of_cons; left; reflexivity|].
           split; [exact Hy|]. split; [rewrite Hnew; reflexivity|].
           split.
           ++ unfold ids_of at 1. rewrite lookup_insert_eq. simpl.
              apply elem_of_app. right. apply list_elem_of_singleton.
              reflexivity.
           ++ intros H0. apply Hin. destruct (G feed_url) as [F _].
              exact (fresh_ext_elem _ _ _ F H0).
Qed.

Lemma collect_origin feeds0 feeds : forall st,
  (forall u, u ∈ feeds -> u ∈ feeds0) ->
  grows sent0 (sent_items st) ->
  (forall t item, queued t item (messages_by_feed st) ->
                  origin cfg world sent0 feeds0 (sent_items st) t item) ->
  forall t item,
    queued t item (messages_by_feed (collect cfg world feeds st)) ->
    origin cfg world sent0 feeds0 (sent_items (collect cfg world feeds st)) t item.
Proof.
  induction feeds as [|u feeds IH]; intros st Hsub G Hinv t item Hq; simpl in *.
  - exact (Hinv t item Hq).
  - assert (Hsub' : forall v, v ∈ feeds -> v ∈ feeds0)
      by (intros v Hv; apply Hsub; apply elem_of_cons; right; exact Hv).
    revert Hq. apply IH; [exact Hsub'| |].
    + exact (grows_trans _ _ _ G (try_feed_grows cfg world u st)).
    + clear t item. intros t item. unfold check_feed, try_feed.
      destruct (negb (truthy (py_strip u))); [exact (Hinv t item)|].
      destruct (feedparser_parse world u) as [feed|] eqn:Hfeed;
        [|exact (Hinv t item)].
      destruct (feed_entries feed) as [|entry rest] eqn:En;
        [exact (Hinv t item)|].
      rewrite <- En.
      apply (check_entries_origin feeds0 u feed (feed_entries feed)).
      * apply Hsub. apply elem_of_cons. left. reflexivity.
      * exact Hfeed.
      * auto.
      * simpl. exact (grows_trans _ _ _ G (grows_setdefault _ u)).
      * simpl. intros t' item' Hq'. apply queued_inv_setdefault in Hq'.
        exact (origin_grows _ _ _ _ _ (grows_setdefault _ u) (Hinv t' item' Hq')).
Qed.

End Origin.

Section Blocks.
Context `{Runtime}.
Variable cfg : Config.
Variable bot : Bot.

(** The trace of the single strategy is made of the turns of its inner
    loop, one for each queued entry. *)
Lemma single_feed_blocks t items tr :
  exists blks,
    snd (single_feed cfg bot (t, items) tr) = tr ++ concat blks /\
    Forall (fun blk => exists item tr',
              item ∈ items /\
              blk = emitted (single_entry cfg bot t item) tr') blks.
Proof.
  destruct (for_each_blocks (single_entry cfg bot t) items
              (single_entry_extends cfg bot t) tr) as (blks & E & F).
  exists blks. split; [exact E|].
  clear E. induction F as [|blk item blks items (tr' & Hblk) _ IH]; constructor.
  - exists item, tr'. split; [apply elem_of_cons; left; reflexivity|exact Hblk].
  - eapply Forall_impl; [exact IH|].
    intros b (item' & tr'' & Hin & Hb). exists item', tr''.
    split; [apply elem_of_cons; right; exact Hin|exact Hb].
Qed.

Lemma single_messages_blocks messages tr :
  exists blks,
    emitted (send_single_messages cfg bot messages) tr = concat blks /\
    Forall (fun blk => exists t item tr',
              queued t item messages /\
              blk = emitted (single_entry cfg bot t item) tr') blks.
Proof.
  assert (Hloop : forall tr0, exists blks,
            snd (for_each messages (single_feed cfg bot) tr0)
              = tr0 ++ concat blks /\
            Forall (fun blk => exists t item tr',
                      queued t item messages /\
                      blk = emitted (single_entry cfg bot t item) tr') blks).
  { induction messages as [|[t items] messages IH]; intros tr0.
    - exists []. simpl. rewrite app_nil_r. split; [reflexivity|constructor].
    - destruct (single_feed_blocks t items tr0) as (blks1 & E1 & F1).
      destruct (IH (tr0 ++ concat blks1)) as (blks2 & E2 & F2).
      exists (blks1 ++ blks2). split.
      + cbn [for_each]. unfold bind.
        destruct (single_feed cfg bot (t, items) tr0) as [[] tr1].
        cbn [snd] in E1. subst tr1. rewrite E2, concat_app, app_assoc.
        reflexivity.
      + apply Forall_app. split.
        * eapply Forall_impl; [exact F1|].
          intros b (item & tr' & Hin & Hb). exists t, item, tr'.
          split; [|exact Hb]. exists items.
          split; [apply elem_of_cons; left; reflexivity|exact Hin].
        * eapply Forall_impl; [exact F2|].
          intros b (t' & item & tr' & (items' & Hin & Hitem) & Hb).
          exists t', item, tr'. split; [|exact Hb]. exists items'.
          split; [apply elem_of_cons; right; exact Hin|exact Hitem]. }
  destruct (Hloop tr) as (blks & E & F). exists blks. split; [|exact F].
  unfold emitted. rewrite send_single_messages_trace, E.
  apply drop_app_length.
Qed.

(** The turn of an entry: the text and the delay; or the photo and the
    delay; or the photo that fails, the text with the caption and the markup
    of the photo, and the delay. *)
Lemma single_entry_block t item tr :
  let message := fst (single_message cfg t item) in
  let reply_markup := snd (single_message cfg t item) in
  let text := send_message (TELEGRAM_CHAT_ID cfg) message
                (TELEGRAM_FORUM_ID cfg) reply_markup (DISABLE_NOTIFICATION cfg) in
  let photo := fun url =>
    send_photo (TELEGRAM_CHAT_ID cfg) url message
      (TELEGRAM_FORUM_ID cfg) reply_markup (DISABLE_NOTIFICATION cfg) in
  (exists ok, emitted (single_entry cfg bot t item) tr
              = [Invoke text ok; Sleep 1]) \/
  (exists url, image_url item = Some url /\
     (emitted (single_entry cfg bot t item) tr = [Invoke (photo url) true; Sleep 1] \/
      exists ok, emitted (single_entry cfg bot t item) tr
                 = [Invoke (photo url) false; Invoke text ok; Sleep 1])).
Proof.
  intros message reply_markup text photo.
  destruct (image_url item) as [[|c0 url]|] eqn:Himg.
  - left. eexists. apply emitted_extends.
    apply single_entry_without_image. auto.
  - right. exists (c0 :: url). split; [reflexivity|].
    pose proof (single_entry_with_image cfg bot t item (c0 :: url) tr
                  Himg ltac:(discriminate)) as E. cbv zeta in E.
    rewrite E. destruct (bot tr _); [left; reflexivity|right].
    eexists. reflexivity.
  - left. eexists. apply emitted_extends.
    apply single_entry_without_image. auto.
Qed.

(** Behind every photo that failed comes the text of the same entry. *)
Lemma failed_photo_followed (Q : pystr -> Item -> Prop) blks :
  Forall (fun blk => exists t item tr',
            Q t item /\ blk = emitted (single_entry cfg bot t item) tr') blks ->
  forall before c rest,
    concat blks = before ++ Invoke c false :: rest ->
    is_photo c ->
    exists t item url ok rest',
      Q t item /\ image_url item = Some url /\
      c = send_photo (TELEGRAM_CHAT_ID cfg) url
            (fst (single_message cfg t item)) (TELEGRAM_FORUM_ID cfg)
            (snd (single_message cfg t item)) (DISABLE_NOTIFICATION cfg) /\
      rest = Invoke (send_message (TELEGRAM_CHAT_ID cfg)
                       (fst (single_message cfg t item)) (TELEGRAM_FORUM_ID cfg)
                       (snd (single_message cfg t item))
                       (DISABLE_NOTIFICATION cfg)) ok :: Sleep 1 :: rest'.
Proof.
  induction 1 as [|blk blks (t & item & tr' & HQ & ->) _ IH];
    intros before c rest E Hc.
  - destruct before; discriminate E.
  - cbn [concat] in E.
    destruct (single_entry_block t item tr')
      as [(ok & Eb)|(url & Himg & [Eb|(ok & Eb)])];
      cbv zeta in Eb; rewrite Eb in E; cbn [app] in E.
    + destruct before as [|b1 [|b2 before]]; cbn [app] in E.
      * injection E as <- _ _. contradiction.
      * discriminate E.
      * injection E as _ _ E. exact (IH before c rest E Hc).
    + destruct before as [|b1 [|b2 before]]; cbn [app] in E.
      * discriminate E.
      * discriminate E.
      * injection E as _ _ E. exact (IH before c rest E Hc).
    + destruct before as [|b1 [|b2 [|b3 before]]]; cbn [app] in E.
      * injection E as <- <-. exists t, item, url, ok, (concat blks).
        repeat split; assumption.
      * injection E as _ <- _ _. contradiction.
      * discriminate E.
      * injection E as _ _ _ E. exact (IH before c rest E Hc).
Qed.

End Blocks.

(** C7: in the single strategy, when the photo of an entry with a resolved
    image fails, the next call is a text message with the same caption and
    the same reply markup, and then the pacing delay.  So it is in a cycle:
    every photo that fails in the trace of a cycle is the photo of an entry
    of a fetched feed, the call right behind it is the text with the caption
    and the markup of the photo, and the identifier of the entry, new before
    the cycle, is in the persisted history once.  And every entry whose
    identifier is new gets its turn: what the inner loop adds for it is in
    the trace, and its identifier is persisted once, whatever the bot
    returns. *)
Theorem C7_photo_failure_falls_back_to_text `{Runtime} cfg world bot :
  (forall feed_title entry url tr,
     image_url entry = Some url -> url <> [] ->
     let message := fst (single_message cfg feed_title entry) in
     let reply_markup := snd (single_message cfg feed_title entry) in
     let photo := send_photo (TELEGRAM_CHAT_ID cfg) url message
                    (TELEGRAM_FORUM_ID cfg) reply_markup
                    (DISABLE_NOTIFICATION cfg) in
     let text := send_message (TELEGRAM_CHAT_ID cfg) message
                   (TELEGRAM_FORUM_ID cfg) reply_markup
                   (DISABLE_NOTIFICATION cfg) in
     bot tr photo = false ->
     exists ok,
       emitted (single_entry cfg bot feed_title entry) tr
         = [Invoke photo false; Invoke text ok; Sleep 1]) /\
  (forall fs tr before c rest,
     TELEGRAM_GROUPED_MESSAGES cfg = false ->
     emitted (check_feeds cfg world bot fs) tr
       = before ++ Invoke c false :: rest ->
     is_photo c ->
     exists feed_url feed e x item url ok rest',
       (feed_url ∈ fst (load_feeds fs)) /\
       feedparser_parse world feed_url = Some feed /\
       (e ∈ feed_entries feed) /\ entry_id_of e = Some x /\
       item_of cfg e item /\ image_url item = Some url /\
       let feed_title := default feed_url (feed_title_attr feed) in
       let message := fst (single_message cfg feed_title item) in
       let reply_markup := snd (single_message cfg feed_title item) in
       c = send_photo (TELEGRAM_CHAT_ID cfg) url message
             (TELEGRAM_FORUM_ID cfg) reply_markup (DISABLE_NOTIFICATION cfg) /\
       rest = Invoke (send_message (TELEGRAM_CHAT_ID cfg) message
                        (TELEGRAM_FORUM_ID cfg) reply_markup
                        (DISABLE_NOTIFICATION cfg)) ok :: Sleep 1 :: rest' /\
       (x ∉ ids_of (load_sent_items fs) feed_url) /\
       occurrences x
         (ids_of (load_sent_items (fst (poll_cycle cfg world bot fs tr)))
            feed_url) = 1%nat) /\
  (forall fs tr feed_url feed x,
     TELEGRAM_GROUPED_MESSAGES cfg = false ->
     feed_url ∈ fst (load_feeds fs) ->
     feedparser_parse world feed_url = Some feed ->
     x ∈ reached_ids (feed_entries feed) ->
     x ∉ ids_of (load_sent_items fs) feed_url ->
     exists e item before after,
       e ∈ feed_entries feed /\ entry_id_of e = Some x /\
       item_of cfg e item /\
       emitted (check_feeds cfg world bot fs) tr
         = before ++
           emitted (single_entry cfg bot
                      (default feed_url (feed_title_attr feed)) item)
             (tr ++ before) ++
           after /\
       occurrences x
         (ids_of (load_sent_items (fst (poll_cycle cfg world bot fs tr)))
            feed_url) = 1%nat).
Proof.
  split; [|split].
  - intros feed_title entry url tr Himg Hurl message reply_markup photo text Hfail.
    pose proof (single_entry_with_image cfg bot feed_title entry url tr Himg Hurl)
      as E. cbv zeta in E. fold message reply_markup in E. fold photo text in E.
    rewrite Hfail in E. eexists. exact E.
  - intros fs tr before c rest Hsingle Etrace Hc.
    set (st0 := {| sent_items := load_sent_items fs; messages_by_feed := [];
                   files := snd (load_feeds fs) |}).
    set (st := collect cfg world (fst (load_feeds fs)) st0).
    rewrite check_feeds_emitted in Etrace. fold st0 in Etrace. fold st in Etrace.
    unfold dispatch in Etrace. rewrite Hsingle in Etrace.
    destruct (single_messages_blocks cfg bot (messages_by_feed st) tr)
      as (blks & Eblks & Fblks).
    rewrite Eblks in Etrace.
    destruct (failed_photo_followed cfg bot
                (fun t item => queued t item (messages_by_feed st))
                blks Fblks before c rest Etrace Hc)
      as (t & item & url & ok & rest' & Hq & Himg & -> & ->).
    assert (Horigin : origin cfg world (load_sent_items fs)
                        (fst (load_feeds fs)) (sent_items st) t item).
    { apply (collect_origin cfg world (load_sent_items fs) (fst (load_feeds fs))
               (fst (load_feeds fs)) st0); auto.
      - apply grows_refl.
      - intros t' item' (items & Hin & _). inversion Hin. }
    destruct Horigin
      as (u & feed & e & x & fs' & Hu & Hfeed & -> & He & Hid & -> & Hx & Hnew).
    exists u, feed, e, x, (fst (new_item cfg world e fs')), url, ok, rest'.
    split; [exact Hu|]. split; [exact Hfeed|]. split; [exact He|].
    split; [exact Hid|].
    split; [exact (proj1 (new_item_of cfg world e fs'))|].
    split; [exact Himg|]. cbv zeta.
    split; [reflexivity|]. split; [reflexivity|]. split; [exact Hnew|].
    rewrite poll_cycle_history. fold st0. fold st.
    destruct (collect_grows cfg world (fst (load_feeds fs)) st0 u) as [F _].
    exact (fresh_ext_once _ _ _ F Hnew Hx).
  - intros fs tr feed_url feed x Hsingle Hin Hfeed Hx Hnew.
    destruct (cycle_delivers cfg world bot fs tr feed_url feed x Hin Hfeed Hx Hnew)
      as (Honce & pre & e & post & item & E & _ & He & (fs' & ->) & Hq & _).
    destruct (single_messages_contain cfg bot _ _ _ tr Hq)
      as (before & after & Etrace).
    exists e, (fst (new_item cfg world e fs')), before, after.
    split.
    { rewrite E. apply elem_of_app. right. apply elem_of_cons. left. reflexivity. }
    split; [exact He|].
    split; [exact (proj1 (new_item_of cfg world e fs'))|].
    split; [|exact Honce].
    rewrite check_feeds_emitted. unfold dispatch. rewrite Hsingle.
    exact Etrace.
Qed.

Lemma C7_photo_failure_falls_back_to_text_witness :
  let cycle := @check_feeds ascii_runtime single_config mixed_world no_photo_bot
                 mixed_files in
  let cover := py "http://img.example.org/1.png" in
  let c := send_photo (py "42") cover
             (fst (@single_message ascii_runtime single_config (py "Feed")
                     {| title := py "Show - 01"; link := py "http://example.org/a";
                        description := []; image_url := Some cover |}))
             None None false in
  exists feed_url feed e x item url ok rest',
    (feed_url ∈ fst (@load_feeds ascii_runtime mixed_files)) /\
    feedparser_parse mixed_world feed_url = Some feed /\
    (e ∈ feed_entries feed) /\ entry_id_of e = Some x /\
    item_of single_config e item /\ image_url item = Some url /\
    let feed_title := default feed_url (feed_title_attr feed) in
    let message := fst (@single_message ascii_runtime single_config feed_title item) in
    let reply_markup :=
      snd (@single_message ascii_runtime single_config feed_title item) in
    c = send_photo (TELEGRAM_CHAT_ID single_config) url message
          (TELEGRAM_FORUM_ID single_config) reply_markup
          (DISABLE_NOTIFICATION single_config) /\
    drop 1 (emitted cycle [])
      = Invoke (send_message (TELEGRAM_CHAT_ID single_config) message
                  (TELEGRAM_FORUM_ID single_config) reply_markup
                  (DISABLE_NOTIFICATION single_config)) ok :: Sleep 1 :: rest' /\
    (x ∉ ids_of (load_sent_items mixed_files) feed_url) /\
    occurrences x
      (ids_of (load_sent_items
                 (fst (@poll_cycle ascii_runtime single_config mixed_world
                         no_photo_bot mixed_files []))) feed_url) = 1%nat.
Proof.
  intros cycle cover c.
  refine (proj1 (proj2 (@C7_photo_failure_falls_back_to_text ascii_runtime
                          single_config mixed_world no_photo_bot))
            mixed_files [] [] c (drop 1 (emitted cycle [])) _ _ _).
  - reflexivity.
  - vm_compute. reflexivity.
  - exact I.
Defined.
